(** * my-vector-db: the in-memory vector store and its sharded top-K search

    A shallow embedding of the store of [backend/] (vector math, quantization,
    upsert, sharded search over bounded min-heaps, persistence) and of the
    HTTP handlers that use it, together with the properties its
    specification states about it and further properties of the code.

    Conventions of the embedding:
    - [float32] values are IEEE-754 binary32 numbers ([SpecFloat] at precision
      24, maximal exponent 128); every arithmetic operation rounds on its own
      (no fused multiply-add, as the gc compiler does on amd64);
    - Go [int] values that are slice lengths or indices are [nat]; the
      parameter [k] of [Search], which may be negative, is a [Z];
    - a slice is a [list], a Go map a [gmap];
    - a Go function that may panic returns in the [run] monad. *)

From Stdlib Require Import ZArith List Lia ZifyNat.
From Stdlib Require Import Floats.SpecFloat.
From stdpp Require Import base option list gmap strings sorting.

Ltac Zify.zify_post_hook ::= Z.div_mod_to_equations.

(** ** Outcomes of Go code *)

(** [Ret a]: the call returns [a].  [Panic]: a run-time panic (index out of
    range).  [Fuel]: the iteration budget handed to a loop was too small; the
    budgets used below are shown to be sufficient wherever a result is
    claimed. *)
Inductive run (A : Type) : Type :=
  | Ret (a : A)
  | Panic
  | Fuel.
Arguments Ret {A} a.
Arguments Panic {A}.
Arguments Fuel {A}.

Global Instance run_ret : MRet run := λ A a, Ret a.
Global Instance run_bind : MBind run := λ A B f m,
  match m with
  | Ret a => f a
  | Panic => Panic
  | Fuel => Fuel
  end.

(** [s[i]] on a slice: panics out of range. *)
Definition at_ {A} (s : list A) (i : nat) : run A :=
  match s !! i with
  | Some x => Ret x
  | None => Panic
  end.

(** [res := make([]B, len(v)); for i, val := range v { res[i] = f val }] *)
Definition fill_range {A B} (f : A → B) (z : B) (v : list A) : list B :=
  foldl (λ res iv, <[iv.1 := f iv.2]> res)
        (replicate (length v) z)
        (zip (seq 0 (length v)) v).

(** ** binary32 and binary64 arithmetic *)

Module Float32.
Definition prec : Z := 24.
Definition emax : Z := 128.

Definition add : spec_float → spec_float → spec_float := SFadd prec emax.
Definition mul : spec_float → spec_float → spec_float := SFmul prec emax.
Definition div : spec_float → spec_float → spec_float := SFdiv prec emax.
Definition ltb : spec_float → spec_float → bool := SFltb.
Definition leb : spec_float → spec_float → bool := SFleb.
Definition eqb : spec_float → spec_float → bool := SFeqb.

(** The zero value of a [float32] variable. *)
Definition zero : spec_float := S754_zero false.

(** An integer constant converted to [float32]. *)
Definition of_Z (z : Z) : spec_float := binary_normalize prec emax z 0 false.

(** [m / 2^e] as a [float32] (for writing test vectors). *)
Definition of_frac (m : Z) (e : Z) : spec_float :=
  binary_normalize prec emax m (- e) false.

Definition is_nan (x : spec_float) : bool :=
  match x with S754_nan => true | _ => false end.

(** A value of the [float32] type: canonical mantissa and exponent. *)
Definition valid (x : spec_float) : bool := valid_binary prec emax x.

(** [float64(x)]: exact. *)
Definition to_float64 (x : spec_float) : spec_float :=
  match x with
  | S754_finite s m e => binary_round 53 1024 s m e
  | _ => x
  end.

(** [float32(y)] for a [float64] [y]: rounds to nearest even. *)
Definition of_float64 (y : spec_float) : spec_float :=
  match y with
  | S754_finite s m e => binary_round prec emax s m e
  | _ => y
  end.

(** [math.Sqrt] on [float64]. *)
Definition sqrt64 : spec_float → spec_float := SFsqrt 53 1024.

(** The integer part of a finite value (rounding toward zero). *)
Definition trunc (x : spec_float) : option Z :=
  match x with
  | S754_zero _ => Some 0%Z
  | S754_finite s m e => Some (cond_Zopp s (Z.shiftl (Zpos m) e))
  | _ => None
  end.

(** A [float32] to [int32] conversion as gc emits it on amd64 (CVTTSS2SL):
    truncation toward zero, and the "integer indefinite" value [-2^31] for
    NaN, infinities and out-of-range values.  (The Go specification makes
    the result of an out-of-range conversion implementation-dependent.) *)
Definition to_int32 (x : spec_float) : Z :=
  match trunc x with
  | Some t => if ((- 2 ^ 31 <=? t) && (t <? 2 ^ 31))%Z then t else (- 2 ^ 31)%Z
  | None => (- 2 ^ 31)%Z
  end.

(** Keeping the low 8 bits of an integer, read as a signed byte. *)
Definition wrap_int8 (z : Z) : Z := ((z + 128) mod 256 - 128)%Z.

(** [int8(x)]: gc converts through [int32] and truncates to 8 bits. *)
Definition to_int8 (x : spec_float) : Z := wrap_int8 (to_int32 x).

Definition in_int8 (z : Z) : Prop := (- 128 ≤ z ≤ 127)%Z.
End Float32.

Abbreviation float32 := spec_float.
Abbreviation int8 := Z (only parsing).

(** [type Vector []float32] *)
Abbreviation Vector := (list float32).

(** ** Vector math primitives *)

(** The loops of [DotProduct], over any scalar type: [float32] in the
    program, an exact ring for the comparison with the reference sum. *)
Section DotProduct.
Context {F : Type} (add mul : F → F → F) (zero : F).

Section Loops.
Variables (a b : list F) (n : nat).

(** [for i := 0; i < n-3; i += 4 { sum += a[i]*b[i] + ... + a[i+3]*b[i+3] }];
    [i < n-3] on Go's signed [int] is [i + 3 < n] on [nat].  [fuel] bounds
    the number of executions of the body. *)
Fixpoint dot_unrolled (fuel i : nat) (sum : F) : run F :=
  if i + 3 <? n then
    match fuel with
    | 0 => Fuel
    | S fuel =>
        x0 ← at_ a i; y0 ← at_ b i;
        x1 ← at_ a (i + 1); y1 ← at_ b (i + 1);
        x2 ← at_ a (i + 2); y2 ← at_ b (i + 2);
        x3 ← at_ a (i + 3); y3 ← at_ b (i + 3);
        dot_unrolled fuel (i + 4)
          (add sum (add (add (add (mul x0 y0) (mul x1 y1)) (mul x2 y2)) (mul x3 y3)))
    end
  else Ret sum.

(** [for i := (n/4)*4; i < n; i++ { sum += a[i] * b[i] }] *)
Fixpoint dot_tail (fuel i : nat) (sum : F) : run F :=
  if i <? n then
    match fuel with
    | 0 => Fuel
    | S fuel =>
        x ← at_ a i; y ← at_ b i;
        dot_tail fuel (i + 1) (add sum (mul x y))
    end
  else Ret sum.
End Loops.

Definition DotProduct_gen (a b : list F) : run F :=
  let n := length a in
  sum ← dot_unrolled a b n n 0 zero;
  dot_tail a b n n (n / 4 * 4) sum.

(** The plain element-by-element summation the unrolled loops are compared
    with: [for i := range a { sum += a[i] * b[i] }]. *)
Definition dot_reference (a b : list F) : F :=
  foldl (λ sum xy, add sum (mul xy.1 xy.2)) zero (zip a b).

(** The summation order of the two loops, on the list of component pairs:
    the products of each full group of four are added up before they are
    added to the running sum; the last zero to three products are added one
    by one. *)
Fixpoint dot_grouped (sum : F) (ps : list (F * F)) : F :=
  match ps with
  | p0 :: p1 :: p2 :: p3 :: rest =>
      dot_grouped
        (add sum (add (add (add (mul p0.1 p0.2) (mul p1.1 p1.2)) (mul p2.1 p2.2))
                      (mul p3.1 p3.2)))
        rest
  | _ => foldl (λ sum xy, add sum (mul xy.1 xy.2)) sum ps
  end.
End DotProduct.

(** [func DotProduct(a, b Vector) float32] *)
Definition DotProduct (a b : Vector) : run float32 :=
  DotProduct_gen Float32.add Float32.mul Float32.zero a b.

(** [mag] of [Normalize]: the sum of squares accumulated in [float32], its
    square root taken in [float64] and converted back. *)
Definition magnitude (v : Vector) : float32 :=
  let sum := foldl (λ sum val, Float32.add sum (Float32.mul val val)) Float32.zero v in
  Float32.of_float64 (Float32.sqrt64 (Float32.to_float64 sum)).

(** [func Normalize(v Vector) Vector] *)
Definition Normalize (v : Vector) : Vector :=
  let mag := magnitude v in
  if Float32.eqb mag Float32.zero then v
  else fill_range (λ x, Float32.div x mag) Float32.zero v.

(** [func Quantize(v Vector) []int8] *)
Definition Quantize (v : Vector) : list int8 :=
  fill_range (λ val, Float32.to_int8 (Float32.mul val (Float32.of_Z 127))) 0%Z v.

(** ** [container/heap] over a slice

    [ResultHeap] implements [heap.Interface] on a slice with [Less] comparing
    two elements; the functions of [container/heap] are written here for a
    slice of any element type with such a comparison. *)

Section Heap.
Context {A : Type} (less : A → A → bool).

(** The five methods of [heap.Interface] on a slice type. *)
Definition Len (h : list A) : nat := length h.

Definition Less (h : list A) (i j : nat) : run bool :=
  x ← at_ h i; y ← at_ h j; Ret (less x y).

(** [h[i], h[j] = h[j], h[i]] *)
Definition Swap (h : list A) (i j : nat) : run (list A) :=
  x ← at_ h i; y ← at_ h j; Ret (<[i := y]> (<[j := x]> h)).

(** [*h = append( *h, x)] *)
Definition Push (h : list A) (x : A) : list A := h ++ [x].

(** [old := *h; n := len(old); x := old[n-1]; *h = old[0 : n-1]; return x] *)
Definition Pop (h : list A) : run (A * list A) :=
  match length h with
  | 0 => Panic
  | S m => x ← at_ h m; Ret (x, take m h)
  end.

(** [up(h, j)]: [for { i := (j - 1) / 2; if i == j || !h.Less(j, i) { break };
    h.Swap(i, j); j = i }].  Go's division truncates toward zero, so the
    parent of the root is the root itself, as with [(0 - 1) / 2] on [nat]. *)
Fixpoint up_loop (fuel : nat) (h : list A) (j : nat) : run (list A) :=
  let i := (j - 1) / 2 in
  if decide (i = j) then Ret h
  else
    lt ← Less h j i;
    if negb lt then Ret h
    else
      match fuel with
      | 0 => Fuel
      | S fuel => h' ← Swap h i j; up_loop fuel h' i
      end.

Definition heap_up (h : list A) (j : nat) : run (list A) := up_loop j h j.

(** [down(h, i0, n)]: sift the element at [i0] down within the first [n]
    elements.  (The boolean it returns is used by [heap.Fix] only.) *)
Fixpoint down_loop (fuel : nat) (h : list A) (i n : nat) : run (list A) :=
  let j1 := 2 * i + 1 in
  if decide (n ≤ j1) then Ret h
  else
    let j2 := j1 + 1 in
    right_smaller ← (if decide (j2 < n) then Less h j2 j1 else Ret false);
    let j := if (right_smaller : bool) then j2 else j1 in
    lt ← Less h j i;
    if negb lt then Ret h
    else
      match fuel with
      | 0 => Fuel
      | S fuel => h' ← Swap h i j; down_loop fuel h' j n
      end.

Definition heap_down (h : list A) (i0 n : nat) : run (list A) :=
  down_loop n h i0 n.

(** [heap.Init]: [n := h.Len(); for i := n/2 - 1; i >= 0; i-- { down(h, i, n) }];
    [cnt] is [i + 1]. *)
Fixpoint init_loop (cnt : nat) (h : list A) (n : nat) : run (list A) :=
  match cnt with
  | 0 => Ret h
  | S i => h' ← heap_down h i n; init_loop i h' n
  end.

Definition heap_Init (h : list A) : run (list A) :=
  let n := Len h in init_loop (n / 2) h n.

(** [heap.Push]: [h.Push(x); up(h, h.Len()-1)] *)
Definition heap_Push (h : list A) (x : A) : run (list A) :=
  let h := Push h x in heap_up h (Len h - 1).

(** [heap.Pop]: [n := h.Len() - 1; h.Swap(0, n); down(h, 0, n); return h.Pop()];
    on an empty heap [h.Swap(0, -1)] panics. *)
Definition heap_Pop (h : list A) : run (A * list A) :=
  match Len h with
  | 0 => Panic
  | S n => h1 ← Swap h 0 n; h2 ← heap_down h1 0 n; Pop h2
  end.

(** The bounded insertion used by each shard worker and by the merge step:
    [if h.Len() < k { heap.Push(h, res) } else if res.Score > ( *h)[0].Score
    { heap.Pop(h); heap.Push(h, res) }]; [less top res] is the comparison
    [res.Score > ( *h)[0].Score]. *)
Definition topk_offer (k : Z) (h : list A) (res : A) : run (list A) :=
  if decide (Z.of_nat (Len h) < k)%Z then heap_Push h res
  else
    top ← at_ h 0;
    if less top res then
      '(_, h1) ← heap_Pop h; heap_Push h1 res
    else Ret h.

(** [results := make([]T, h.Len()); for idx := h.Len() - 1; idx >= 0; idx--
    { results[idx] = heap.Pop(h) }]; [cnt] is [idx + 1]. *)
Fixpoint drain_loop (cnt : nat) (h : list A) (results : list A) : run (list A) :=
  match cnt with
  | 0 => Ret results
  | S idx => '(x, h') ← heap_Pop h; drain_loop idx h' (<[idx := x]> results)
  end.

Definition heap_drain (zero : A) (h : list A) : run (list A) :=
  drain_loop (Len h) h (replicate (Len h) zero).

(** The order the heap works with: [x] may stay above [y]. *)
Definition heap_le (x y : A) : Prop := less y x = false.

(** The min-heap shape of the first [n] elements: no element is smaller than
    its parent. *)
Definition heap_upto (n : nat) (h : list A) : Prop :=
  ∀ c x y, 0 < c < n → h !! ((c - 1) / 2) = Some x → h !! c = Some y → heap_le x y.

Definition is_heap (h : list A) : Prop := heap_upto (length h) h.

(** The shape while [down] works at position [i]: only the pairs below [i]
    may be out of order, and the children of [i] respect the parent of [i]. *)
Definition hole_down (n : nat) (h : list A) (i : nat) : Prop :=
  (∀ c x y, 0 < c < n → (c - 1) / 2 ≠ i →
     h !! ((c - 1) / 2) = Some x → h !! c = Some y → heap_le x y)
  ∧ (∀ c x y, 0 < i → 0 < c < n → (c - 1) / 2 = i →
     h !! ((i - 1) / 2) = Some x → h !! c = Some y → heap_le x y).

(** The shape while [up] works at position [j]: only the pair above [j] may
    be out of order, and the children of [j] respect the parent of [j]. *)
Definition hole_up (n : nat) (h : list A) (j : nat) : Prop :=
  (∀ c x y, 0 < c < n → c ≠ j →
     h !! ((c - 1) / 2) = Some x → h !! c = Some y → heap_le x y)
  ∧ (∀ c x y, 0 < j → 0 < c < n → (c - 1) / 2 = j →
     h !! ((j - 1) / 2) = Some x → h !! c = Some y → heap_le x y).
End Heap.

(** ** Data model *)

(** [type SearchResult struct { ID string; Score float32 }] *)
Record SearchResult : Type := { ID : string; Score : float32 }.

(** [type ResultHeap []SearchResult], with
    [Less(i, j) = h[i].Score < h[j].Score]. *)
Abbreviation ResultHeap := (list SearchResult).

Definition ResultHeap_less (x y : SearchResult) : bool :=
  Float32.ltb (Score x) (Score y).

Definition zero_SearchResult : SearchResult :=
  {| ID := ""; Score := Float32.zero |}.

(** [type Record struct { ID; Vector; Quantized; Metadata; Namespace }].  A
    [nil] metadata map reads like an empty one. *)
Record Rec : Type := {
  RecID : string;
  RecVector : Vector;
  RecQuantized : list int8;
  RecMetadata : gmap string string;
  RecNamespace : string
}.

(** [type VectorStore struct { sync.RWMutex; Records []Record; IDMap map[string]int }].
    Every method holds the lock for its whole body, so a method is one atomic
    step on this state. *)
Record VectorStore : Type := {
  Records : list Rec;
  IDMap : gmap string nat
}.

Definition NewVectorStore : VectorStore :=
  {| Records := []; IDMap := ∅ |}.

(** ** Insertion *)

(** [func (vs *VectorStore) AddItem(id, vector, meta, namespace)];
    [vs.Records[idx] = record] panics when [idx] is out of range. *)
Definition AddItem (vs : VectorStore) (id : string) (vector : Vector)
    (meta : gmap string string) (namespace : string) : run VectorStore :=
  let norm := Normalize vector in
  let record := {| RecID := id; RecVector := norm; RecQuantized := Quantize norm;
                   RecMetadata := meta; RecNamespace := namespace |} in
  match IDMap vs !! id with
  | Some idx =>
      if decide (idx < length (Records vs)) then
        Ret {| Records := <[idx := record]> (Records vs); IDMap := IDMap vs |}
      else Panic
  | None =>
      Ret {| Records := Records vs ++ [record];
             IDMap := <[id := length (Records vs)]> (IDMap vs) |}
  end.

(** ** Sharded search *)

(** [rec.Metadata[filterKey]]: the empty string when the key is absent. *)
Definition meta_get (rec : Rec) (key : string) : string :=
  default "" (RecMetadata rec !! key).

(** The two [continue] guards of the scan, negated: the record is scored. *)
Definition passes (namespace filterKey filterVal : string) (rec : Rec) : bool :=
  negb (bool_decide (namespace ≠ "") && bool_decide (RecNamespace rec ≠ namespace))
  && negb (bool_decide (filterKey ≠ "") && bool_decide (meta_get rec filterKey ≠ filterVal)).

Section Search.
Variables (vs : VectorStore) (q : Vector) (k : Z).
Variables (namespace filterKey filterVal : string).

(** [for j := s; j < e; j++ { ... }] of a shard worker; [cnt] is [e - j]. *)
Fixpoint scan (cnt j : nat) (h : ResultHeap) : run ResultHeap :=
  match cnt with
  | 0 => Ret h
  | S cnt =>
      rec ← at_ (Records vs) j;
      if passes namespace filterKey filterVal rec then
        score ← DotProduct q (RecVector rec);
        h' ← topk_offer ResultHeap_less k h {| ID := RecID rec; Score := score |};
        scan cnt (S j) h'
      else scan cnt (S j) h
  end.

(** The goroutine started for the range [[s, e)]: what it sends on [workChan]. *)
Definition worker (se : nat * nat) : run (list SearchResult) :=
  h0 ← heap_Init ResultHeap_less [];
  h ← scan (se.2 - se.1) se.1 h0;
  heap_drain ResultHeap_less zero_SearchResult h.

(** The ranges handed to the workers: [for i := 0; i < numWorkers; i++
    { start := i * chunkSize; if start >= len { break }; end := min(start +
    chunkSize, len); go worker(start, end) }]; [cnt] is [numWorkers - i]. *)
Fixpoint spawn (chunkSize len cnt i : nat) : list (nat * nat) :=
  match cnt with
  | 0 => []
  | S cnt =>
      let start := i * chunkSize in
      if decide (len ≤ start) then []
      else
        let e := start + chunkSize in
        let e := if decide (len < e) then len else e in
        (start, e) :: spawn chunkSize len cnt (S i)
  end.
End Search.

(** All the workers of a call have returned: the slices they sent, in spawn
    order.  A panic in any goroutine ends the process. *)
Fixpoint collect {A} (outs : list (run A)) : run (list A) :=
  match outs with
  | [] => Ret []
  | o :: outs => x ← o; xs ← collect outs; Ret (x :: xs)
  end.

(** [for chunk := range workChan { for _, res := range chunk { ... } }] and the
    final drain, for the chunks in the order they were received. *)
Definition merge_chunk (k : Z) (h : ResultHeap) (chunk : list SearchResult) : run ResultHeap :=
  foldl (λ acc res, h ← acc; topk_offer ResultHeap_less k h res) (Ret h) chunk.

Definition merge (k : Z) (arrival : list (list SearchResult)) : run (list SearchResult) :=
  h0 ← heap_Init ResultHeap_less [];
  h ← foldl (λ acc chunk, h ← acc; merge_chunk k h chunk) (Ret h0) arrival;
  heap_drain ResultHeap_less zero_SearchResult h.

(** The per-shard results of [Search] on [numWorkers = runtime.NumCPU()]
    processors (at least one). *)
Definition Search_chunks (vs : VectorStore) (numCPU : positive) (query : Vector) (k : Z)
    (namespace filterKey filterVal : string) : run (list (list SearchResult)) :=
  let q := Normalize query in
  let numWorkers := Pos.to_nat numCPU in
  let chunkSize := (length (Records vs) + numWorkers - 1) / numWorkers in
  collect (worker vs q k namespace filterKey filterVal
             <$> spawn chunkSize (length (Records vs)) numWorkers 0).

(** [func (vs *VectorStore) Search(query, k, namespace, filterKey, filterVal)]
    when the workers' slices are received in spawn order. *)
Definition Search (vs : VectorStore) (numCPU : positive) (query : Vector) (k : Z)
    (namespace filterKey filterVal : string) : run (list SearchResult) :=
  chunks ← Search_chunks vs numCPU query k namespace filterKey filterVal;
  merge k chunks.

(** Every outcome of [Search]: the channel delivers the workers' slices in
    any order. *)
Definition Search_outcome (vs : VectorStore) (numCPU : positive) (query : Vector) (k : Z)
    (namespace filterKey filterVal : string) (out : run (list SearchResult)) : Prop :=
  match Search_chunks vs numCPU query k namespace filterKey filterVal with
  | Ret chunks => ∃ arrival, arrival ≡ₚ chunks ∧ out = merge k arrival
  | Panic => out = Panic
  | Fuel => out = Fuel
  end.

(** ** Persistence *)

(** Go [error] values returned by [Save] and [Load]; [None] is [nil]. *)
Inductive error : Type :=
  | ErrNotExist              (* os.ReadFile: no such file *)
  | ErrPermission            (* os.WriteFile: the path cannot be written *)
  | SyntaxError              (* json: the bytes are not JSON *)
  | UnmarshalTypeError       (* json: a value does not fit its Go type *)
  | UnsupportedValueError.   (* json: NaN or an infinity cannot be encoded *)

(** The contents of a file, as [encoding/json] decodes them into a
    [[]Record].  [encoding/json] is not part of the repository; its documented
    behaviour is modelled at this boundary:
    - [Malformed]: the bytes are not valid JSON.  [json.Unmarshal] checks the
      syntax before it stores anything and returns a [SyntaxError];
    - [Encoded rs]: a JSON array of record objects decoding to [rs];
    - [Mistyped rs]: well-formed JSON in which some value does not fit the Go
      type of its field (a string where a vector is expected, say).
      [json.Unmarshal] skips that value, "completes the unmarshaling as best
      it can", which leaves [rs] in the target, and returns an
      [UnmarshalTypeError]. *)
Inductive Bytes : Type :=
  | Malformed
  | Encoded (rs : list Rec)
  | Mistyped (rs : list Rec).

Definition finite32 (x : float32) : bool :=
  match x with
  | S754_zero _ | S754_finite _ _ _ => true
  | _ => false
  end.

(** [json.Marshal(records)]: fails on a NaN or infinite component. *)
Definition json_Marshal (rs : list Rec) : Bytes + error :=
  if forallb (λ rec, forallb finite32 (RecVector rec)) rs then inl (Encoded rs)
  else inr UnsupportedValueError.

(** [json.Unmarshal(data, &target)]: the new value of the target and the
    error.  Decoding an array resets the slice and appends the decoded
    elements. *)
Definition json_Unmarshal (data : Bytes) (target : list Rec) : list Rec * option error :=
  match data with
  | Malformed => (target, Some SyntaxError)
  | Encoded rs => (rs, None)
  | Mistyped rs => (rs, Some UnmarshalTypeError)
  end.

(** The named files the process can see, and the paths that cannot be
    written. *)
Record FS : Type := {
  files : gmap string Bytes;
  readonly : gset string
}.

Definition os_ReadFile (fs : FS) (name : string) : Bytes + error :=
  match files fs !! name with
  | Some data => inl data
  | None => inr ErrNotExist
  end.

Definition os_WriteFile (fs : FS) (name : string) (data : Bytes) : FS * option error :=
  if decide (name ∈ readonly fs) then (fs, Some ErrPermission)
  else ({| files := <[name := data]> (files fs); readonly := readonly fs |}, None).

(** [func (vs *VectorStore) Save(filename string) error] *)
Definition Save (vs : VectorStore) (filename : string) (fs : FS) : FS * option error :=
  match json_Marshal (Records vs) with
  | inr err => (fs, Some err)
  | inl data => os_WriteFile fs filename data
  end.

(** [vs.IDMap = make(map[string]int); for i, rec := range vs.Records
    { vs.IDMap[rec.ID] = i }] *)
Definition rebuild_IDMap (records : list Rec) : gmap string nat :=
  foldl (λ m irec, <[RecID irec.2 := irec.1]> m) ∅
        (zip (seq 0 (length records)) records).

(** [func (vs *VectorStore) Load(filename string) error]; [json.Unmarshal]
    writes through the pointer [&vs.Records]. *)
Definition Load (vs : VectorStore) (filename : string) (fs : FS) : VectorStore * option error :=
  match os_ReadFile fs filename with
  | inr err => (vs, Some err)
  | inl data =>
      let '(records, err) := json_Unmarshal data (Records vs) in
      let vs := {| Records := records; IDMap := IDMap vs |} in
      match err with
      | Some err => (vs, Some err)
      | None => ({| Records := Records vs; IDMap := rebuild_IDMap (Records vs) |}, None)
      end
  end.

(** ** The HTTP handlers of [main.go]

    The web framework, the JSON binding of the request and the call to the
    embedding service are outside the repository: a handler is given what
    they returned. *)

(** [type AddRequest struct { ID; Text; Namespace; Metadata }]; a [nil]
    metadata map is [None]. *)
Module AddRequest.
Record t : Type := {
  ID : string;
  Text : string;
  Namespace : string;
  Metadata : option (gmap string string)
}.
End AddRequest.

(** [type QueryRequest struct { Text; K; Namespace; FilterKey; FilterVal }] *)
Module QueryRequest.
Record t : Type := {
  Text : string;
  K : Z;
  Namespace : string;
  FilterKey : string;
  FilterVal : string
}.
End QueryRequest.

(** [type DetailedResult struct { SearchResult; Metadata map[string]string }] *)
Record DetailedResult : Type := {
  Result : SearchResult;
  Metadata : gmap string string
}.

Definition zero_DetailedResult : DetailedResult :=
  {| Result := zero_SearchResult; Metadata := ∅ |}.

(** What a handler answers: [c.JSON(400, ...)], [c.JSON(500, ...)], and the
    two bodies sent with status 200. *)
Inductive Response : Type :=
  | BadRequest
  | EmbeddingError
  | Added (total : nat)
  | Results (results : list DetailedResult).

(** The handler of [POST /add].  [bound] is the request [ShouldBindJSON]
    decoded ([None]: it returned an error); [embedding] is the vector
    [getEmbedding] returned ([None]: it returned an error). *)
Definition add_handler (db : VectorStore) (bound : option AddRequest.t)
    (embedding : option Vector) : run (VectorStore * Response) :=
  match bound with
  | None => Ret (db, BadRequest)
  | Some req =>
      match embedding with
      | None => Ret (db, EmbeddingError)
      | Some vec =>
          let meta := default ∅ (AddRequest.Metadata req) in
          let meta := <["text" := AddRequest.Text req]> meta in
          db' ← AddItem db (AddRequest.ID req) vec meta (AddRequest.Namespace req);
          Ret (db', Added (length (Records db')))
      end
  end.

(** [res := make([]B, len(v)); for i, x := range v { res[i] = f(x) }] with a
    body that may panic. *)
Definition fill_range_run {A B} (f : A → run B) (z : B) (v : list A) : run (list B) :=
  foldl (λ acc iv, res ← acc; y ← f iv.2; Ret (<[iv.1 := y]> res))
        (Ret (replicate (length v) z))
        (zip (seq 0 (length v)) v).

(** The loop of the [/query] handler that attaches the metadata:
    [idx := db.IDMap[res.ID]] reads 0 for an id that is not mapped, and
    [db.Records[idx]] panics out of range. *)
Definition attach_metadata (db : VectorStore) (results : list SearchResult)
    : run (list DetailedResult) :=
  fill_range_run
    (λ res, let idx := default 0 (IDMap db !! ID res) in
            rec ← at_ (Records db) idx;
            Ret {| Result := res; Metadata := RecMetadata rec |})
    zero_DetailedResult results.

(** [if req.K == 0 { req.K = 5 }] *)
Definition query_k (req : QueryRequest.t) : Z :=
  if decide (QueryRequest.K req = 0)%Z then 5%Z else QueryRequest.K req.

(** The outcomes of the handler of [POST /query].  [queryVec] is the vector
    [getEmbedding] returned; its error is dropped, so a failed call leaves
    the [nil] vector.  The handler takes the read lock twice, in [Search]
    and around the metadata loop; [db] is the store for both, no [/add]
    being served in between. *)
Definition query_handler (db : VectorStore) (numCPU : positive)
    (bound : option QueryRequest.t) (queryVec : Vector) (out : run Response) : Prop :=
  match bound with
  | None => out = Ret BadRequest
  | Some req =>
      ∃ sout,
        Search_outcome db numCPU queryVec (query_k req) (QueryRequest.Namespace req)
          (QueryRequest.FilterKey req) (QueryRequest.FilterVal req) sout
        ∧ out = (results ← sout;
                 finalResponse ← attach_metadata db results;
                 Ret (Results finalResponse))
  end.

(** The states of the store while the server runs: [main] loads
    "vectors.json" into a new store, dropping the error, and from then on
    only the [/add] handler changes the store. *)
Inductive reachable (fs : FS) : VectorStore → Prop :=
  | reachable_start :
      reachable fs (Load NewVectorStore "vectors.json" fs).1
  | reachable_add db bound embedding db' resp :
      reachable fs db →
      add_handler db bound embedding = Ret (db', resp) →
      reachable fs db'.

(** ** Properties of a store state *)

(** The identifier mapping is a bijection onto the valid positions: [id] is
    mapped to [i] exactly when the record at position [i] has that [id]. *)
Definition store_inv (vs : VectorStore) : Prop :=
  ∀ id i, IDMap vs !! id = Some i ↔ RecID <$> Records vs !! i = Some id.

(** The weaker half: every mapped position is valid and holds a record with
    that id (positions may be left unmapped). *)
Definition store_sound (vs : VectorStore) : Prop :=
  ∀ id i, IDMap vs !! id = Some i → RecID <$> Records vs !! i = Some id.


(** ** Vocabulary of the properties *)

(** The quantization the specification asks for: the truncated product,
    clamped to the [int8] range. *)
Definition clamp_int8 (z : Z) : Z := Z.max (-128) (Z.min 127 z).

Definition Quantize_clamped (v : Vector) : list (option int8) :=
  (λ x, clamp_int8 <$> Float32.trunc (Float32.mul x (Float32.of_Z 127))) <$> v.

(** A key that orders the values other than NaN: the sign class first, then
    exponent and mantissa (reversed for negative values). *)
Definition fkey (x : float32) : Z * Z * Z :=
  match x with
  | S754_infinity true => (-2, 0, 0)
  | S754_finite true m e => (-1, - e, - Zpos m)
  | S754_zero _ | S754_nan => (0, 0, 0)
  | S754_finite false m e => (1, e, Zpos m)
  | S754_infinity false => (2, 0, 0)
  end%Z.

Definition lex_lt (a b : Z * Z * Z) : Prop :=
  (a.1.1 < b.1.1 ∨ (a.1.1 = b.1.1 ∧ (a.1.2 < b.1.2 ∨ (a.1.2 = b.1.2 ∧ a.2 < b.2))))%Z.

(** A search result whose score is a number. *)
Definition numeric (r : SearchResult) : Prop := Float32.is_nan (Score r) = false.

(** Non-increasing order of score; equal scores may come in any order. *)
Definition descending (rs : list SearchResult) : Prop :=
  StronglySorted (λ a b, Float32.leb (Score b) (Score a) = true) rs.

(** [r] is the id and score of a stored record that passes the filters. *)
Definition hit (vs : VectorStore) (q : Vector) (namespace filterKey filterVal : string)
    (r : SearchResult) : Prop :=
  ∃ rec, rec ∈ Records vs
    ∧ passes namespace filterKey filterVal rec = true
    ∧ RecID rec = ID r
    ∧ DotProduct q (RecVector rec) = Ret (Score r).

(** The precondition of a well-defined search result for one record: the
    stored vector is at least as long as the (normalized) query, so that
    [DotProduct] indexes within bounds, and the score is a number. *)
Definition scorable (q : Vector) (rec : Rec) : bool :=
  bool_decide (length q ≤ length (RecVector rec))
  && match DotProduct q (RecVector rec) with
     | Ret s => negb (Float32.is_nan s)
     | _ => true
     end.

(** Every record that passes the filters is scorable. *)
Definition searchable (vs : VectorStore) (query : Vector)
    (namespace filterKey filterVal : string) : bool :=
  forallb (λ rec, implb (passes namespace filterKey filterVal rec)
                        (scorable (Normalize query) rec))
          (Records vs).

(** What the scan and the merge keep true of their heap. *)
Definition topk_inv (k : Z) (h : ResultHeap) : Prop :=
  is_heap ResultHeap_less h ∧ Forall numeric h ∧ (Z.of_nat (length h) ≤ k)%Z.

(** The record that [AddItem] stores. *)
Definition new_record (id : string) (vector : Vector) (meta : gmap string string)
    (namespace : string) : Rec :=
  {| RecID := id; RecVector := Normalize vector;
     RecQuantized := Quantize (Normalize vector);
     RecMetadata := meta; RecNamespace := namespace |}.

(** A value that is a number (or an infinity) of sign [s]: a rounded result
    of that sign. *)
Definition signed (s : bool) (x : spec_float) : Prop :=
  match x with
  | S754_zero s' | S754_finite s' _ _ | S754_infinity s' => s' = s
  | S754_nan => False
  end.

(** The sign bit of a value (that of NaN is not modelled). *)
Definition sign_bit (x : float32) : bool :=
  match x with
  | S754_zero s | S754_infinity s | S754_finite s _ _ => s
  | S754_nan => false
  end.

(** [l[s:e]] *)
Definition slice {A} (l : list A) (s e : nat) : list A := take (e - s) (drop s l).

(** The (id, score) pairs a scan of [records] offers to its heap: one for
    each record that passes the filters, in the order of the slice (none
    for a record at which [DotProduct] panics: the scan ends there). *)
Definition candidates (q : Vector) (namespace filterKey filterVal : string)
    (records : list Rec) : list SearchResult :=
  rec ← records;
  if passes namespace filterKey filterVal rec then
    match DotProduct q (RecVector rec) with
    | Ret score => [{| ID := RecID rec; Score := score |}]
    | _ => []
    end
  else [].

(** [h] holds the [k] best of the elements [xs] offered so far (all of them
    when there are fewer than [k]): no element left out compares greater
    than one that was kept. *)
Definition keeps_best {A} (less : A → A → bool) (k : Z) (xs h : list A) : Prop :=
  ∃ dropped, xs ≡ₚ h ++ dropped
    ∧ Z.of_nat (length h) = Z.min k (Z.of_nat (length xs))
    ∧ ∀ d x, d ∈ dropped → x ∈ h → less x d = false.

(** The key of a result's score, and the order of keys from the greatest
    down: [a] is not below [b]. *)
Definition score_key (r : SearchResult) : Z * Z * Z := fkey (Score r).

Definition key_ge (a b : Z * Z * Z) : Prop := ¬ lex_lt a b.

Global Instance lex_lt_dec (a b : Z * Z * Z) : Decision (lex_lt a b).
Proof. unfold lex_lt. apply _. Defined.

Global Instance key_ge_dec (a b : Z * Z * Z) : Decision (key_ge a b).
Proof. unfold key_ge. apply _. Defined.

(** ** Example stores and files *)

(** The store obtained by upserting the given (id, vector, namespace)
    triples, with empty metadata, into a new store. *)
Definition store_of (items : list (string * Vector * string)) : VectorStore :=
  foldl (λ vs item,
           match AddItem vs item.1.1 item.1.2 ∅ item.2 with
           | Ret vs' => vs'
           | _ => vs
           end)
        NewVectorStore items.

(** The scenario of the specification: A = [1,0,0], B = [0,1,0] and
    C = [0.9,0.1,0] in namespace "ns1". *)
Definition store_ABC : VectorStore :=
  store_of
    [("A", [Float32.of_Z 1; Float32.zero; Float32.zero], "ns1");
     ("B", [Float32.zero; Float32.of_Z 1; Float32.zero], "ns1");
     ("C", [Float32.div (Float32.of_Z 9) (Float32.of_Z 10);
            Float32.div (Float32.of_Z 1) (Float32.of_Z 10); Float32.zero], "ns1")].

Definition query_x : Vector := [Float32.of_Z 1; Float32.zero; Float32.zero].

(** A store into which a NaN vector was upserted. *)
Definition store_NaN : VectorStore :=
  store_of
    [("A", [S754_nan], ""); ("B", [Float32.of_Z 2], ""); ("C", [Float32.of_Z (-1)], "")].

Definition result_A : SearchResult := {| ID := "A"; Score := Float32.of_Z 1 |}.
Definition result_C : SearchResult :=
  {| ID := "C"; Score := S754_finite false 16674602 (-24) |}.

Definition fs_empty : FS := {| files := ∅; readonly := ∅ |}.

(** A file in which the id "a" occurs twice. *)
Definition fs_duplicate : FS :=
  {| files := {["vectors.json" := Encoded [new_record "a" [Float32.of_Z 1] ∅ "";
                                           new_record "a" [Float32.of_Z 2] ∅ ""]]};
     readonly := ∅ |}.

(** A file that is well-formed JSON but holds a string where the vector of
    its one record should be: the decoder stores the record without a vector
    and reports the type error. *)
Definition fs_mistyped : FS :=
  {| files := {["vectors.json" :=
       Mistyped [{| RecID := "x"; RecVector := []; RecQuantized := [];
                    RecMetadata := ∅; RecNamespace := "" |}]]};
     readonly := ∅ |}.

(** * Properties *)

(** ** The [run] monad *)

Lemma bind_Ret {A B} (m : run A) (f : A → run B) (b : B) :
  m ≫= f = Ret b ↔ ∃ a, m = Ret a ∧ f a = Ret b.
Proof.
  split.
  - destruct m as [a| |]; simpl; [eauto | discriminate | discriminate].
  - intros (a & -> & Hf). exact Hf.
Qed.

Lemma at_Ret {A} (s : list A) (i : nat) (x : A) : at_ s i = Ret x ↔ s !! i = Some x.
Proof. unfold at_. destruct (s !! i); split; congruence. Qed.

Lemma at_lookup {A} (s : list A) (i : nat) (x : A) : s !! i = Some x → at_ s i = Ret x.
Proof. apply at_Ret. Qed.

Lemma at_Panic {A} (s : list A) (i : nat) : length s ≤ i → at_ s i = Panic.
Proof. intros H. unfold at_. by rewrite lookup_ge_None_2. Qed.

(** [at_] never runs out of fuel. *)
Lemma at_not_Fuel {A} (s : list A) (i : nat) : at_ s i ≠ Fuel.
Proof. unfold at_. destruct (s !! i); discriminate. Qed.

(** ** Range loops that fill a fresh slice *)

Lemma fill_range_from {A B} (f : A → B) (z : B) (v : list A) (pre : list B) :
  foldl (λ res iv, <[iv.1 := f iv.2]> res)
        (pre ++ replicate (length v) z)
        (zip (seq (length pre) (length v)) v)
  = pre ++ (f <$> v).
Proof.
  revert pre. induction v as [|x v IH]; intros pre.
  - by simpl.
  - cbn [length seq zip zip_with foldl replicate fmap list_fmap fst snd].
    replace (<[length pre := f x]> (pre ++ z :: replicate (length v) z))
      with ((pre ++ [f x]) ++ replicate (length v) z).
    + replace (S (length pre)) with (length (pre ++ [f x]))
        by (rewrite length_app; simpl; lia).
      rewrite IH. by rewrite <- app_assoc.
    + rewrite <- app_assoc, insert_app_r_alt by lia.
      by rewrite Nat.sub_diag.
Qed.

Lemma fill_range_fmap {A B} (f : A → B) (z : B) (v : list A) :
  fill_range f z v = f <$> v.
Proof. exact (fill_range_from f z v []). Qed.

(** ** Normalize *)


(** The magnitude is the [float32] value the code computes: [3, 4] is scaled
    by 5; the zero vector is returned as it is, and so is a vector whose
    squares underflow to zero. *)
Example Normalize_examples :
  magnitude [Float32.of_Z 3; Float32.of_Z 4] = Float32.of_Z 5
  ∧ Normalize [Float32.of_Z 3; Float32.of_Z 4]
    = [Float32.div (Float32.of_Z 3) (Float32.of_Z 5);
       Float32.div (Float32.of_Z 4) (Float32.of_Z 5)]
  ∧ Normalize [Float32.zero; Float32.zero] = [Float32.zero; Float32.zero]
  ∧ magnitude [Float32.of_frac 1 100] = Float32.zero
  ∧ Normalize [Float32.of_frac 1 100] = [Float32.of_frac 1 100].
Proof.
  split; [vm_compute; reflexivity|].
  split; [vm_compute; reflexivity|].
  split; [vm_compute; reflexivity|].
  split; vm_compute; reflexivity.
Qed.

Lemma Normalize_length (v : Vector) : length (Normalize v) = length v.
Proof.
  unfold Normalize. destruct (Float32.eqb _ _); [done|].
  by rewrite fill_range_fmap, length_fmap.
Qed.

(** ** Quantize *)

Lemma Quantize_fmap (v : Vector) :
  Quantize v = (λ x, Float32.to_int8 (Float32.mul x (Float32.of_Z 127))) <$> v.
Proof. apply fill_range_fmap. Qed.

Lemma to_int8_in_range (x : float32) (t : Z) :
  Float32.trunc x = Some t → Float32.in_int8 t → Float32.to_int8 x = t.
Proof.
  unfold Float32.to_int8, Float32.to_int32, Float32.wrap_int8, Float32.in_int8.
  intros -> Ht.
  destruct (Z.leb_spec (- 2 ^ 31) t), (Z.ltb_spec t (2 ^ 31)); simpl; lia.
Qed.

(** C6, as the code has it.  [Quantize] keeps the length of its argument and
    maps a component [x] to the integer part of the [float32] product
    [x * 127] whenever that integer part fits in an [int8]; for such
    components this is also the clamped value.  Nothing is clamped: outside
    that range the result is what the conversion to [int8] makes of it. *)
Theorem Quantize_in_range (v : Vector) (i : nat) (x : float32) (t : Z) :
  v !! i = Some x →
  Float32.trunc (Float32.mul x (Float32.of_Z 127)) = Some t →
  Float32.in_int8 t →
  length (Quantize v) = length v
  ∧ Quantize v !! i = Some t
  ∧ Quantize_clamped v !! i = Some (Some t).
Proof.
  intros Hx Ht Hr. rewrite Quantize_fmap. unfold Quantize_clamped.
  rewrite length_fmap, !list_lookup_fmap, Hx.
  cbn -[Float32.mul Float32.of_Z Float32.to_int8 Float32.trunc clamp_int8].
  rewrite (to_int8_in_range _ t Ht Hr), Ht.
  split; [reflexivity|]. split; [reflexivity|].
  cbn -[clamp_int8]. do 2 f_equal.
  unfold clamp_int8, Float32.in_int8 in *. lia.
Qed.

Lemma Quantize_in_range_witness :
  length (Quantize [Float32.of_Z 1; Float32.of_frac (-1) 1]) = 2
  ∧ Quantize [Float32.of_Z 1; Float32.of_frac (-1) 1] !! 1 = Some (-63)%Z
  ∧ Quantize_clamped [Float32.of_Z 1; Float32.of_frac (-1) 1] !! 1 = Some (Some (-63)%Z).
Proof.
  apply (Quantize_in_range [Float32.of_Z 1; Float32.of_frac (-1) 1] 1
           (Float32.of_frac (-1) 1) (-63)).
  - reflexivity.
  - vm_compute. reflexivity.
  - unfold Float32.in_int8. lia.
Defined.

(** C6 as stated fails on the component [2.0]: its product with 127 is 254,
    which the specification clamps to 127 and the code turns into -2. *)
Lemma Quantize_does_not_clamp :
  Float32.valid (Float32.of_Z 2) = true
  ∧ Float32.trunc (Float32.mul (Float32.of_Z 2) (Float32.of_Z 127)) = Some 254%Z
  ∧ Quantize_clamped [Float32.of_Z 2] = [Some 127%Z]
  ∧ Quantize [Float32.of_Z 2] = [(-2)%Z]
  ∧ ¬ (∀ v : Vector, Some <$> Quantize v = Quantize_clamped v).
Proof.
  split; [vm_compute; reflexivity|].
  split; [vm_compute; reflexivity|].
  split; [vm_compute; reflexivity|].
  split; [vm_compute; reflexivity|].
  intros H. specialize (H [Float32.of_Z 2]). vm_compute in H. discriminate H.
Qed.

(** ** DotProduct *)

Section DotProductProofs.
Context {F : Type} (add mul : F → F → F) (zero : F).
Implicit Types a b : list F.

Lemma zip_drop_cons a b i x y :
  a !! i = Some x → b !! i = Some y →
  drop i (zip a b) = (x, y) :: drop (S i) (zip a b).
Proof. intros Ha Hb. apply drop_S. by apply lookup_zip_Some. Qed.

(** The remainder loop adds the products from [i] on, one by one. *)
Lemma dot_tail_spec a b fuel i sum :
  length a ≤ length b → length a - i ≤ fuel →
  dot_tail add mul a b (length a) fuel i sum
  = Ret (foldl (λ sum xy, add sum (mul xy.1 xy.2)) sum (drop i (zip a b))).
Proof.
  intros Hab. revert i sum.
  induction fuel as [|fuel IH]; intros i sum Hfuel.
  - cbn [dot_tail]. destruct (Nat.ltb_spec i (length a)); [lia|].
    rewrite drop_ge; [done|]. rewrite length_zip. lia.
  - cbn [dot_tail]. destruct (Nat.ltb_spec i (length a)) as [Hi|Hi].
    + destruct (lookup_lt_is_Some_2 a i Hi) as [x Hx].
      destruct (lookup_lt_is_Some_2 b i ltac:(lia)) as [y Hy].
      rewrite (at_lookup _ _ _ Hx), (at_lookup _ _ _ Hy). cbn [mbind run_bind].
      rewrite (zip_drop_cons _ _ _ _ _ Hx Hy). cbn [foldl fst snd].
      replace (i + 1) with (S i) by lia. apply IH. lia.
    + rewrite drop_ge; [done|]. rewrite length_zip. lia.
Qed.

Lemma dot_grouped_short sum (ps : list (F * F)) :
  length ps < 4 →
  dot_grouped add mul sum ps = foldl (λ sum xy, add sum (mul xy.1 xy.2)) sum ps.
Proof.
  intros Hlen. destruct ps as [|p0 [|p1 [|p2 [|p3 ps]]]]; try reflexivity.
  simpl in Hlen. lia.
Qed.

(** Both loops together follow [dot_grouped]. *)
Lemma dot_loops_spec a b fuel fuel' i sum :
  length a ≤ length b → (length a - i) / 4 ≤ fuel → length a ≤ fuel' →
  dot_unrolled add mul a b (length a) fuel i sum
    ≫= dot_tail add mul a b (length a) fuel' (i + 4 * ((length a - i) / 4))
  = Ret (dot_grouped add mul sum (drop i (zip a b))).
Proof.
  intros Hab. revert i sum.
  induction fuel as [|fuel IH]; intros i sum Hfuel Hfuel'.
  - cbn [dot_unrolled]. destruct (Nat.ltb_spec (i + 3) (length a)); [lia|].
    cbn [mbind run_bind].
    replace (i + 4 * ((length a - i) / 4)) with i by lia.
    rewrite dot_tail_spec by lia. rewrite dot_grouped_short; [done|].
    rewrite length_drop, length_zip. lia.
  - cbn [dot_unrolled]. destruct (Nat.ltb_spec (i + 3) (length a)) as [Hi|Hi].
    + destruct (lookup_lt_is_Some_2 a i ltac:(lia)) as [x0 Hx0].
      destruct (lookup_lt_is_Some_2 b i ltac:(lia)) as [y0 Hy0].
      destruct (lookup_lt_is_Some_2 a (i + 1) ltac:(lia)) as [x1 Hx1].
      destruct (lookup_lt_is_Some_2 b (i + 1) ltac:(lia)) as [y1 Hy1].
      destruct (lookup_lt_is_Some_2 a (i + 2) ltac:(lia)) as [x2 Hx2].
      destruct (lookup_lt_is_Some_2 b (i + 2) ltac:(lia)) as [y2 Hy2].
      destruct (lookup_lt_is_Some_2 a (i + 3) ltac:(lia)) as [x3 Hx3].
      destruct (lookup_lt_is_Some_2 b (i + 3) ltac:(lia)) as [y3 Hy3].
      rewrite (at_lookup _ _ _ Hx0), (at_lookup _ _ _ Hy0),
        (at_lookup _ _ _ Hx1), (at_lookup _ _ _ Hy1),
        (at_lookup _ _ _ Hx2), (at_lookup _ _ _ Hy2),
        (at_lookup _ _ _ Hx3), (at_lookup _ _ _ Hy3).
      cbn [mbind run_bind].
      rewrite (zip_drop_cons _ _ i _ _ Hx0 Hy0).
      replace (i + 1) with (S i) in Hx1, Hy1 by lia.
      rewrite (zip_drop_cons _ _ _ _ _ Hx1 Hy1).
      replace (i + 2) with (S (S i)) in Hx2, Hy2 by lia.
      rewrite (zip_drop_cons _ _ _ _ _ Hx2 Hy2).
      replace (i + 3) with (S (S (S i))) in Hx3, Hy3 by lia.
      rewrite (zip_drop_cons _ _ _ _ _ Hx3 Hy3).
      cbn [dot_grouped fst snd].
      replace (S (S (S (S i)))) with (i + 4) by lia.
      rewrite <- (IH (i + 4)) by lia.
      f_equal. f_equal. lia.
    + cbn [mbind run_bind].
      replace (i + 4 * ((length a - i) / 4)) with i by lia.
      rewrite dot_tail_spec by lia. rewrite dot_grouped_short; [done|].
      rewrite length_drop, length_zip. lia.
Qed.

(** With an associative addition the grouping does not matter. *)
Lemma dot_grouped_assoc sum (ps : list (F * F)) :
  (∀ x y z, add x (add y z) = add (add x y) z) →
  dot_grouped add mul sum ps = foldl (λ sum xy, add sum (mul xy.1 xy.2)) sum ps.
Proof.
  intros Hassoc.
  assert (∀ n (ps : list (F * F)) sum, length ps ≤ n →
    dot_grouped add mul sum ps = foldl (λ sum xy, add sum (mul xy.1 xy.2)) sum ps)
    as Hn; [|by apply (Hn (length ps))].
  clear sum ps. induction n as [|n IH]; intros ps sum Hlen.
  - destruct ps; [done|simpl in Hlen; lia].
  - destruct ps as [|p0 [|p1 [|p2 [|p3 ps]]]]; try reflexivity.
    cbn [dot_grouped foldl]. rewrite IH by (simpl in Hlen; lia).
    by rewrite !Hassoc.
Qed.

(** C9, as the code has it.  On vectors of equal length [DotProduct] returns
    (no index is out of range) the sum of the pairwise products taken in the
    order of [dot_grouped]: every index contributes exactly once, each full
    group of four products is summed before it reaches the accumulator.
    Whenever the addition is associative, as in exact arithmetic, this is
    the plain element-by-element summation. *)
Theorem DotProduct_gen_spec a b :
  length a = length b →
  DotProduct_gen add mul zero a b = Ret (dot_grouped add mul zero (zip a b))
  ∧ ((∀ x y z, add x (add y z) = add (add x y) z) →
     DotProduct_gen add mul zero a b = Ret (dot_reference add mul zero a b)).
Proof.
  intros Hlen.
  assert (DotProduct_gen add mul zero a b = Ret (dot_grouped add mul zero (zip a b)))
    as Hg.
  { unfold DotProduct_gen.
    replace (length a / 4 * 4) with (0 + 4 * ((length a - 0) / 4)) by lia.
    rewrite dot_loops_spec by lia. by rewrite drop_0. }
  split; [exact Hg|]. intros Hassoc.
  rewrite Hg. unfold dot_reference. by rewrite dot_grouped_assoc.
Qed.

(** [DotProduct] returns whenever the second vector is at least as long as
    the first. *)
Lemma DotProduct_gen_Ret a b :
  length a ≤ length b → ∃ s, DotProduct_gen add mul zero a b = Ret s.
Proof.
  intros Hlen. unfold DotProduct_gen.
  replace (length a / 4 * 4) with (0 + 4 * ((length a - 0) / 4)) by lia.
  rewrite dot_loops_spec by lia. eauto.
Qed.
End DotProductProofs.

(** In [float32] the result is the grouped sum. *)
Lemma DotProduct_grouped (a b : Vector) :
  length a = length b →
  DotProduct a b = Ret (dot_grouped Float32.add Float32.mul Float32.zero (zip a b)).
Proof.
  intros Hlen. unfold DotProduct, DotProduct_gen.
  replace (length a / 4 * 4) with (0 + 4 * ((length a - 0) / 4)) by lia.
  rewrite dot_loops_spec by lia. by rewrite drop_0.
Qed.

Lemma DotProduct_gen_spec_witness :
  DotProduct_gen Z.add Z.mul 0%Z [1; 2; 3; 4; 5; 6; 7; 8; 9]%Z [9; 8; 7; 6; 5; 4; 3; 2; 1]%Z
    = Ret (dot_grouped Z.add Z.mul 0%Z
             (zip [1; 2; 3; 4; 5; 6; 7; 8; 9]%Z [9; 8; 7; 6; 5; 4; 3; 2; 1]%Z))
  ∧ ((∀ x y z : Z, (x + (y + z) = x + y + z)%Z) →
     DotProduct_gen Z.add Z.mul 0%Z [1; 2; 3; 4; 5; 6; 7; 8; 9]%Z [9; 8; 7; 6; 5; 4; 3; 2; 1]%Z
     = Ret (dot_reference Z.add Z.mul 0%Z
              [1; 2; 3; 4; 5; 6; 7; 8; 9]%Z [9; 8; 7; 6; 5; 4; 3; 2; 1]%Z)).
Proof.
  apply (DotProduct_gen_spec Z.add Z.mul 0%Z
           [1; 2; 3; 4; 5; 6; 7; 8; 9]%Z [9; 8; 7; 6; 5; 4; 3; 2; 1]%Z).
  reflexivity.
Defined.

(** C9 as stated fails in [float32]: on these two vectors of length 8 the
    unrolled loops return 16777218 and the element-by-element summation
    16777216 (2^24 + 1 rounds back to 2^24, twice). *)
Lemma DotProduct_differs_from_reference :
  let a := [Float32.of_Z 16777216; Float32.zero; Float32.zero; Float32.zero;
            Float32.of_Z 1; Float32.of_Z 1; Float32.zero; Float32.zero] in
  let b := replicate 8 (Float32.of_Z 1) in
  forallb Float32.valid a = true ∧ forallb Float32.valid b = true
  ∧ length a = length b
  ∧ DotProduct a b = Ret (Float32.of_Z 16777218)
  ∧ dot_reference Float32.add Float32.mul Float32.zero a b = Float32.of_Z 16777216
  ∧ DotProduct a b ≠ Ret (dot_reference Float32.add Float32.mul Float32.zero a b).
Proof.
  intros a b.
  split; [vm_compute; reflexivity|].
  split; [vm_compute; reflexivity|].
  split; [reflexivity|].
  split; [vm_compute; reflexivity|].
  split; [vm_compute; reflexivity|].
  vm_compute. discriminate.
Qed.

(** ** [container/heap]: what the operations do to the contents *)

Ltac inv_run :=
  repeat match goal with
  | H : (_ ≫= _) = Ret _ |- _ => apply bind_Ret in H as (? & ? & H)
  | H : Ret _ = Ret _ |- _ => injection H as H
  | H : Panic = Ret _ |- _ => discriminate H
  | H : Fuel = Ret _ |- _ => discriminate H
  | H : at_ _ _ = Ret _ |- _ => apply at_Ret in H
  end.

Section HeapContents.
Context {A : Type} (less : A → A → bool).
Implicit Types (h : list A) (x y : A).

Lemma Less_Ret h i j x y :
  h !! i = Some x → h !! j = Some y → Less less h i j = Ret (less x y).
Proof. intros Hi Hj. unfold Less. by rewrite (at_lookup _ _ _ Hi), (at_lookup _ _ _ Hj). Qed.

Lemma Swap_Ret h i j x y :
  h !! i = Some x → h !! j = Some y → Swap h i j = Ret (<[i := y]> (<[j := x]> h)).
Proof. intros Hi Hj. unfold Swap. by rewrite (at_lookup _ _ _ Hi), (at_lookup _ _ _ Hj). Qed.

Lemma lookup_swap h i j x y c :
  h !! i = Some x → h !! j = Some y →
  <[i := y]> (<[j := x]> h) !! c
  = if decide (c = i) then Some y else if decide (c = j) then Some x else h !! c.
Proof.
  intros Hi%lookup_lt_Some Hj%lookup_lt_Some.
  destruct (decide (c = i)) as [->|Hci].
  - apply list_lookup_insert_eq. by rewrite length_insert.
  - rewrite list_lookup_insert_ne by done.
    destruct (decide (c = j)) as [->|Hcj].
    + by apply list_lookup_insert_eq.
    + by rewrite list_lookup_insert_ne.
Qed.

Lemma lookup_swap_l h i j x y :
  h !! i = Some x → h !! j = Some y → <[i := y]> (<[j := x]> h) !! i = Some y.
Proof. intros Hi Hj. rewrite (lookup_swap _ _ _ _ _ _ Hi Hj). by rewrite decide_True. Qed.

Lemma lookup_swap_r h i j x y :
  h !! i = Some x → h !! j = Some y → i ≠ j → <[i := y]> (<[j := x]> h) !! j = Some x.
Proof.
  intros Hi Hj Hij. rewrite (lookup_swap _ _ _ _ _ _ Hi Hj).
  rewrite decide_False by done. by rewrite decide_True.
Qed.

Lemma lookup_swap_ne h i j x y c :
  h !! i = Some x → h !! j = Some y → c ≠ i → c ≠ j →
  <[i := y]> (<[j := x]> h) !! c = h !! c.
Proof.
  intros Hi Hj Hci Hcj. rewrite (lookup_swap _ _ _ _ _ _ Hi Hj).
  by rewrite !decide_False.
Qed.

Lemma Swap_perm h i j h' : Swap h i j = Ret h' → h' ≡ₚ h.
Proof.
  unfold Swap. intros H. inv_run. subst h'. by apply Permutation_insert_swap.
Qed.

Lemma up_loop_unfold fuel h j :
  up_loop less fuel h j
  = let i := (j - 1) / 2 in
    if decide (i = j) then Ret h
    else
      lt ← Less less h j i;
      if negb lt then Ret h
      else
        match fuel with
        | 0 => Fuel
        | S fuel => h' ← Swap h i j; up_loop less fuel h' i
        end.
Proof. by destruct fuel. Qed.

Lemma down_loop_unfold fuel h i n :
  down_loop less fuel h i n
  = let j1 := 2 * i + 1 in
    if decide (n ≤ j1) then Ret h
    else
      let j2 := j1 + 1 in
      right_smaller ← (if decide (j2 < n) then Less less h j2 j1 else Ret false);
      let j := if (right_smaller : bool) then j2 else j1 in
      lt ← Less less h j i;
      if negb lt then Ret h
      else
        match fuel with
        | 0 => Fuel
        | S fuel => h' ← Swap h i j; down_loop less fuel h' j n
        end.
Proof. by destruct fuel. Qed.

Lemma up_loop_perm fuel h j h' : up_loop less fuel h j = Ret h' → h' ≡ₚ h.
Proof.
  revert h j. induction fuel as [|fuel IH]; intros h j; rewrite up_loop_unfold; cbv zeta;
    (destruct (decide _); [by intros [= ->]|]);
    intros H; apply bind_Ret in H as (lt & _ & H);
    (destruct (negb lt); [by injection H as ->|]).
  - discriminate H.
  - apply bind_Ret in H as (h1 & Hs%Swap_perm & H). rewrite <- Hs. by eapply IH.
Qed.

Lemma down_loop_perm fuel h i n h' : down_loop less fuel h i n = Ret h' → h' ≡ₚ h.
Proof.
  revert h i. induction fuel as [|fuel IH]; intros h i; rewrite down_loop_unfold; cbv zeta;
    (destruct (decide _); [by intros [= ->]|]);
    intros H; apply bind_Ret in H as (rs & _ & H);
    apply bind_Ret in H as (lt & _ & H);
    (destruct (negb lt); [by injection H as ->|]).
  - discriminate H.
  - apply bind_Ret in H as (h1 & Hs%Swap_perm & H). rewrite <- Hs. by eapply IH.
Qed.

(** Positions from [n] on are not touched by [down(h, i, n)]. *)
Lemma down_loop_above fuel h i n h' c :
  down_loop less fuel h i n = Ret h' → i < n → n ≤ c → h' !! c = h !! c.
Proof.
  revert h i. induction fuel as [|fuel IH]; intros h i; rewrite down_loop_unfold; cbv zeta;
    (destruct (decide _); [by intros [= ->]|]);
    intros H Hi Hc; apply bind_Ret in H as (rs & Hrs & H);
    apply bind_Ret in H as (lt & _ & H);
    (destruct (negb lt); [by injection H as ->|]).
  - discriminate H.
  - apply bind_Ret in H as (h1 & Hs & H).
    assert ((if rs then 2 * i + 1 + 1 else 2 * i + 1) < n) as Hj.
    { destruct rs; [|lia]. destruct (decide (2 * i + 1 + 1 < n)); [done|].
      by injection Hrs. }
    rewrite (IH _ _ H Hj Hc).
    unfold Swap in Hs. inv_run. subst h1.
    rewrite !list_lookup_insert_ne by (destruct rs; lia). done.
Qed.

Lemma heap_Push_perm h x h' : heap_Push less h x = Ret h' → h' ≡ₚ x :: h.
Proof.
  unfold heap_Push, heap_up, Push. intros ->%up_loop_perm.
  by rewrite Permutation_app_comm.
Qed.

Lemma Pop_Ret h x h' : Pop h = Ret (x, h') → h = h' ++ [x].
Proof.
  unfold Pop. destruct (length h) as [|m] eqn:Hlen; [discriminate|].
  intros H. inv_run. simplify_eq.
  rewrite <- (take_S_r _ _ _ H0). by rewrite take_ge by lia.
Qed.

Lemma heap_Pop_perm h x h' : heap_Pop less h = Ret (x, h') → x :: h' ≡ₚ h.
Proof.
  unfold heap_Pop, heap_down, Len. destruct (length h) as [|n]; [discriminate|].
  intros H. apply bind_Ret in H as (h1 & Hs%Swap_perm & H).
  apply bind_Ret in H as (h2 & Hd%down_loop_perm & H).
  apply Pop_Ret in H. rewrite <- Hs, <- Hd, H.
  by rewrite Permutation_app_comm.
Qed.

Lemma heap_Init_nil : heap_Init less (@nil A) = Ret [].
Proof. reflexivity. Qed.

(** The bounded insertion keeps a sub-multiset of the heap and the offered
    element, and never grows the heap past [k] once it is within [k]. *)
Lemma topk_offer_subseteq k h res h' :
  topk_offer less k h res = Ret h' → h' ⊆ res :: h.
Proof.
  unfold topk_offer. destruct (decide _).
  - by intros ->%heap_Push_perm.
  - intros H. apply bind_Ret in H as (top & _ & H). destruct (less top res).
    + apply bind_Ret in H as ([x h1] & Hp%heap_Pop_perm & H%heap_Push_perm).
      rewrite H, <- Hp. apply list_subseteq_skip, list_subseteq_cons. done.
    + injection H as ->. by apply list_subseteq_cons.
Qed.

Lemma topk_offer_length k h res h' :
  topk_offer less k h res = Ret h' →
  (Z.of_nat (length h) ≤ k)%Z → (Z.of_nat (length h') ≤ k)%Z.
Proof.
  unfold topk_offer, Len. destruct (decide _).
  - intros ->%heap_Push_perm _. simpl. lia.
  - intros H Hk. apply bind_Ret in H as (top & _ & H). destruct (less top res).
    + apply bind_Ret in H as ([x h1] & Hp%heap_Pop_perm & H%heap_Push_perm).
      rewrite H. simpl. rewrite <- Hp in Hk. simpl in Hk. lia.
    + by injection H as ->.
Qed.

(** Draining pops everything: the result holds the heap's elements. *)
Lemma drain_loop_perm cnt h results out :
  drain_loop less cnt h results = Ret out →
  length h = cnt → cnt ≤ length results →
  take cnt out ≡ₚ h ∧ drop cnt out = drop cnt results ∧ length out = length results.
Proof.
  revert h results. induction cnt as [|idx IH]; intros h results H Hh Hr.
  - injection H as ->. destruct h; [done|discriminate].
  - cbn [drain_loop] in H. apply bind_Ret in H as ([x h1] & Hp & H).
    pose proof (heap_Pop_perm _ _ _ Hp) as Hperm.
    assert (length h1 = idx) as Hh1.
    { apply Permutation_length in Hperm. simpl in Hperm. lia. }
    destruct (IH _ _ H Hh1) as (Ht & Hd & Hl); [rewrite length_insert; lia|].
    rewrite length_insert in Hl.
    assert (out !! idx = Some x) as Hx.
    { rewrite <- (Nat.add_0_r idx), <- lookup_drop, Hd, lookup_drop, Nat.add_0_r.
      apply list_lookup_insert_eq. lia. }
    split; [|split; [|done]].
    + rewrite (take_S_r _ _ _ Hx), Ht, <- Hperm. by rewrite Permutation_app_comm.
    + replace (S idx) with (idx + 1) by lia.
      rewrite <- !drop_drop, Hd. rewrite !drop_drop.
      apply drop_insert_lt. lia.
Qed.

Lemma heap_drain_perm zero h out :
  heap_drain less zero h = Ret out → out ≡ₚ h.
Proof.
  unfold heap_drain, Len. intros H.
  destruct (drain_loop_perm _ _ _ _ H) as (Ht & _ & Hl);
    [done|by rewrite length_replicate|].
  rewrite length_replicate in Hl. by rewrite take_ge in Ht by lia.
Qed.
End HeapContents.

(** ** [container/heap]: the heap shape *)

Section HeapOrder.
Context {A : Type} (less : A → A → bool) (good : A → Prop).
Implicit Types (h : list A) (x y z : A).

(** [less] is a strict weak order on the [good] elements. *)
Hypothesis less_asym : ∀ x y, less x y = true → less y x = false.
Hypothesis heap_le_trans : ∀ x y z, good x → good y → good z →
  heap_le less x y → heap_le less y z → heap_le less x z.

Lemma heap_le_refl x : heap_le less x x.
Proof.
  unfold heap_le. destruct (less x x) eqn:H; [|done]. by rewrite (less_asym _ _ H) in H.
Qed.

Lemma good_lookup h i x : Forall good h → h !! i = Some x → good x.
Proof. intros Hg Hx. by eapply Forall_lookup_1. Qed.

(** The root of a heap is below every element. *)
Lemma heap_root_min n h r :
  heap_upto less n h → Forall good h → n ≤ length h → h !! 0 = Some r →
  ∀ c y, c < n → h !! c = Some y → heap_le less r y.
Proof.
  intros Hheap Hg Hn Hr c. induction c as [c IH] using lt_wf_ind. intros y Hc Hy.
  destruct (decide (c = 0)) as [->|Hc0].
  - simplify_eq. apply heap_le_refl.
  - destruct (lookup_lt_is_Some_2 h ((c - 1) / 2) ltac:(lia)) as [x Hx].
    apply (heap_le_trans r x y); eauto using good_lookup.
    + apply (IH ((c - 1) / 2)); [lia|lia|done].
    + apply (Hheap c); [lia|done|done].
Qed.

(** One step of [down] that stops: the chosen child is not below [i]. *)
Lemma hole_down_stop n h i j xi yj :
  Forall good h → hole_down less n h i →
  h !! i = Some xi → h !! j = Some yj →
  (∀ c y, 0 < c < n → (c - 1) / 2 = i → h !! c = Some y → heap_le less yj y) →
  less yj xi = false →
  heap_upto less n h.
Proof.
  intros Hg [H1 H2] Hi Hj Hmin Hle c x y Hc Hx Hy.
  destruct (decide ((c - 1) / 2 = i)) as [Hp|Hp].
  - rewrite Hp in Hx. assert (x = xi) as -> by congruence.
    apply (heap_le_trans xi yj y); eauto using good_lookup.
  - by apply (H1 c).
Qed.

(** One step of [down] that swaps [i] with its smaller child [j]. *)
Lemma hole_down_swap n h i j xi yj :
  n ≤ length h → hole_down less n h i →
  h !! i = Some xi → h !! j = Some yj →
  0 < j < n → (j - 1) / 2 = i →
  (∀ c y, 0 < c < n → (c - 1) / 2 = i → h !! c = Some y → heap_le less yj y) →
  less yj xi = true →
  hole_down less n (<[i := yj]> (<[j := xi]> h)) j.
Proof.
  intros Hn [H1 H2] Hi Hj Hjn Hpj Hmin Hlt.
  assert (i ≠ j) as Hij by lia.
  split.
  - intros c x y Hc Hp.
    destruct (decide (c = j)) as [->|Hcj].
    + rewrite Hpj, (lookup_swap_l _ _ _ _ _ Hi Hj), (lookup_swap_r _ _ _ _ _ Hi Hj Hij).
      intros [= <-] [= <-]. by apply less_asym.
    + destruct (decide ((c - 1) / 2 = i)) as [Hpi|Hpi].
      * rewrite Hpi, (lookup_swap_l _ _ _ _ _ Hi Hj).
        rewrite (lookup_swap_ne _ _ _ _ _ _ Hi Hj) by lia.
        intros [= <-] Hy. by apply (Hmin c).
      * rewrite (lookup_swap_ne _ _ _ _ _ ((c - 1) / 2) Hi Hj) by lia.
        destruct (decide (c = i)) as [->|Hci].
        -- rewrite (lookup_swap_l _ _ _ _ _ Hi Hj). intros Hx [= <-].
           apply (H2 j); [lia|lia|done|done|done].
        -- rewrite (lookup_swap_ne _ _ _ _ _ c Hi Hj) by lia.
           by apply (H1 c).
  - intros c x y _ Hc Hp.
    rewrite Hpj, (lookup_swap_l _ _ _ _ _ Hi Hj).
    rewrite (lookup_swap_ne _ _ _ _ _ c Hi Hj) by lia.
    intros [= <-] Hy. apply (H1 c); [lia|lia| |done]. by rewrite Hp.
Qed.

(** [down] restores the heap shape of the first [n] elements. *)
Lemma down_loop_heap fuel h i n :
  n ≤ length h → n - i ≤ fuel → Forall good h → hole_down less n h i →
  ∃ h', down_loop less fuel h i n = Ret h' ∧ heap_upto less n h'.
Proof.
  intros Hn. revert h i Hn.
  induction fuel as [|fuel IH]; intros h i Hn Hfuel Hg Hhole;
    rewrite down_loop_unfold; cbv beta iota zeta;
    (destruct (decide (n ≤ 2 * i + 1)) as [Hleaf|Hleaf];
     [exists h; split; [done|];
      intros c x y Hc Hx Hy; apply (proj1 Hhole c); [done|lia|done|done] |]);
    [lia|].
  destruct (lookup_lt_is_Some_2 h i ltac:(lia)) as [xi Hi].
  destruct (lookup_lt_is_Some_2 h (2 * i + 1) ltac:(lia)) as [y1 Hy1].
  (* once the smaller child [j] is chosen *)
  assert (∀ j yj, h !! j = Some yj → 0 < j < n → (j - 1) / 2 = i →
    (∀ c y, 0 < c < n → (c - 1) / 2 = i → h !! c = Some y → heap_le less yj y) →
    ∃ h', (Less less h j i ≫= λ lt : bool,
             if negb lt then Ret h
             else Swap h i j ≫= λ h', down_loop less fuel h' j n) = Ret h'
          ∧ heap_upto less n h') as Hstep.
  { intros j yj Hj Hjn Hpj Hmin.
    rewrite (Less_Ret _ _ _ _ _ _ Hj Hi). cbn [mbind run_bind].
    destruct (less yj xi) eqn:Hlt; cbn [negb].
    - rewrite (Swap_Ret _ _ _ _ _ Hi Hj). cbn [mbind run_bind].
      apply IH.
      + by rewrite !length_insert.
      + lia.
      + apply Forall_insert; [apply Forall_insert|]; eauto using good_lookup.
      + by eapply hole_down_swap.
    - exists h. split; [done|]. by eapply hole_down_stop. }
  destruct (decide (2 * i + 1 + 1 < n)) as [Hr|Hr].
  - destruct (lookup_lt_is_Some_2 h (2 * i + 1 + 1) ltac:(lia)) as [y2 Hy2].
    rewrite (Less_Ret _ _ _ _ _ _ Hy2 Hy1). cbn [mbind run_bind].
    destruct (less y2 y1) eqn:Hsm.
    + apply (Hstep (2 * i + 1 + 1) y2); [done|lia|lia|].
      intros c y Hc Hp Hy.
      assert (c = 2 * i + 1 ∨ c = 2 * i + 1 + 1) as [->| ->] by lia.
      * assert (y = y1) as -> by congruence. by apply less_asym.
      * assert (y = y2) as -> by congruence. apply heap_le_refl.
    + apply (Hstep (2 * i + 1) y1); [done|lia|lia|].
      intros c y Hc Hp Hy.
      assert (c = 2 * i + 1 ∨ c = 2 * i + 1 + 1) as [->| ->] by lia.
      * assert (y = y1) as -> by congruence. apply heap_le_refl.
      * assert (y = y2) as -> by congruence. done.
  - cbn [mbind run_bind].
    apply (Hstep (2 * i + 1) y1); [done|lia|lia|].
    intros c y Hc Hp Hy. assert (c = 2 * i + 1) as -> by lia.
    assert (y = y1) as -> by congruence. apply heap_le_refl.
Qed.

(** One step of [up] that swaps [j] with its parent [i]. *)
Lemma hole_up_swap n h i j xi yj :
  n ≤ length h → Forall good h → hole_up less n h j →
  h !! i = Some xi → h !! j = Some yj →
  0 < j < n → (j - 1) / 2 = i →
  less yj xi = true →
  hole_up less n (<[i := yj]> (<[j := xi]> h)) i.
Proof.
  intros Hn Hg [H1 H2] Hi Hj Hjn Hpj Hlt.
  assert (i ≠ j) as Hij by lia.
  assert (heap_le less yj xi) as Hji by by apply less_asym.
  split.
  - intros c x y Hc Hci.
    destruct (decide (c = j)) as [->|Hcj].
    + rewrite Hpj, (lookup_swap_l _ _ _ _ _ Hi Hj), (lookup_swap_r _ _ _ _ _ Hi Hj Hij).
      by intros [= <-] [= <-].
    + rewrite (lookup_swap_ne _ _ _ _ _ c Hi Hj) by done.
      destruct (decide ((c - 1) / 2 = i)) as [Hpi|Hpi].
      * rewrite Hpi, (lookup_swap_l _ _ _ _ _ Hi Hj). intros [= <-] Hy.
        apply (heap_le_trans yj xi y); eauto using good_lookup.
        apply (H1 c); [done|done| |done]. by rewrite Hpi.
      * destruct (decide ((c - 1) / 2 = j)) as [Hpc|Hpc].
        -- rewrite Hpc, (lookup_swap_r _ _ _ _ _ Hi Hj Hij). intros [= <-] Hy.
           apply (H2 c); [lia|done|done| |done]. by rewrite Hpj.
        -- rewrite (lookup_swap_ne _ _ _ _ _ ((c - 1) / 2) Hi Hj) by done.
           by apply (H1 c).
  - intros c x y Hi0 Hc Hp.
    rewrite (lookup_swap_ne _ _ _ _ _ ((i - 1) / 2) Hi Hj) by lia. intros Hx.
    assert (heap_le less x xi) as Hxi.
    { apply (H1 i); [lia|lia|done|done]. }
    destruct (decide (c = j)) as [->|Hcj].
    + rewrite (lookup_swap_r _ _ _ _ _ Hi Hj Hij). by intros [= <-].
    + rewrite (lookup_swap_ne _ _ _ _ _ c Hi Hj) by lia. intros Hy.
      apply (heap_le_trans x xi y); eauto using good_lookup.
      apply (H1 c); [done|done| |done]. by rewrite Hp.
Qed.

(** [up] restores the heap shape. *)
Lemma up_loop_heap fuel h j :
  j < length h → j ≤ fuel → Forall good h → hole_up less (length h) h j →
  ∃ h', up_loop less fuel h j = Ret h' ∧ heap_upto less (length h) h'.
Proof.
  revert h j.
  induction fuel as [|fuel IH]; intros h j Hj Hfuel Hg Hhole;
    rewrite up_loop_unfold; cbv zeta;
    (destruct (decide ((j - 1) / 2 = j)) as [Hroot|Hroot];
     [exists h; split; [done|];
      intros c x y Hc Hx Hy; apply (proj1 Hhole c); [done|lia|done|done] |]);
    [lia|].
  destruct (lookup_lt_is_Some_2 h j Hj) as [yj Hyj].
  destruct (lookup_lt_is_Some_2 h ((j - 1) / 2) ltac:(lia)) as [xi Hxi].
  rewrite (Less_Ret _ _ _ _ _ _ Hyj Hxi). cbn [mbind run_bind].
  destruct (less yj xi) eqn:Hlt; cbn [negb].
  - rewrite (Swap_Ret _ _ _ _ _ Hxi Hyj). cbn [mbind run_bind].
    destruct (IH (<[(j - 1) / 2 := yj]> (<[j := xi]> h)) ((j - 1) / 2))
      as (h' & Hup & Hheap).
    + rewrite !length_insert. lia.
    + lia.
    + apply Forall_insert; [apply Forall_insert|]; eauto using good_lookup.
    + rewrite !length_insert. eapply hole_up_swap; eauto. lia.
    + exists h'. split; [done|]. by rewrite !length_insert in Hheap.
  - exists h. split; [done|].
    intros c x y Hc Hx Hy. destruct (decide (c = j)) as [->|Hcj].
    + by simplify_eq.
    + by apply (proj1 Hhole c).
Qed.

(** [heap.Push] on a heap returns a heap. *)
Lemma heap_Push_heap h x :
  is_heap less h → Forall good h → good x →
  ∃ h', heap_Push less h x = Ret h' ∧ is_heap less h' ∧ h' ≡ₚ x :: h.
Proof.
  intros Hheap Hg Hx. unfold heap_Push, heap_up, Push, Len.
  destruct (up_loop_heap (length (h ++ [x]) - 1) (h ++ [x]) (length (h ++ [x]) - 1))
    as (h' & Hup & Hh').
  - rewrite length_app. simpl. lia.
  - done.
  - apply Forall_app. by split; [|constructor].
  - rewrite length_app. simpl. split.
    + intros c y z Hc Hcj. rewrite !lookup_app_l by lia. by apply Hheap; lia.
    + intros c y z _ Hc Hp. lia.
  - exists h'. pose proof (up_loop_perm _ _ _ _ _ Hup) as Hperm.
    split; [done|]. split.
    + unfold is_heap. by rewrite (Permutation_length Hperm).
    + by rewrite Hperm, Permutation_app_comm.
Qed.

(** [heap.Pop] on a non-empty heap returns its root, which is below every
    element, and leaves a heap. *)
Lemma heap_Pop_heap h :
  is_heap less h → Forall good h → h ≠ [] →
  ∃ x h', heap_Pop less h = Ret (x, h') ∧ h !! 0 = Some x
    ∧ is_heap less h' ∧ x :: h' ≡ₚ h ∧ Forall (heap_le less x) h.
Proof.
  intros Hheap Hg Hne. unfold heap_Pop, heap_down, Len.
  destruct (length h) as [|n] eqn:Hlen; [by destruct h|].
  destruct (lookup_lt_is_Some_2 h 0 ltac:(lia)) as [r Hr].
  destruct (lookup_lt_is_Some_2 h n ltac:(lia)) as [l Hl].
  rewrite (Swap_Ret _ _ _ _ _ Hr Hl). cbn [mbind run_bind].
  set (h1 := <[0 := l]> (<[n := r]> h)).
  assert (length h1 = S n) as Hlen1 by (unfold h1; by rewrite !length_insert).
  destruct (down_loop_heap n h1 0 n) as (h2 & Hdown & Hheap2).
  - lia.
  - lia.
  - apply Forall_insert; [apply Forall_insert|]; eauto using good_lookup.
  - split; [|intros; lia].
    intros c x y Hc Hp. unfold h1. rewrite !(lookup_swap _ _ _ _ _ _ Hr Hl).
    rewrite !decide_False by lia. apply Hheap. lia.
  - rewrite Hdown. cbn [mbind run_bind].
    pose proof (down_loop_perm _ _ _ _ _ _ Hdown) as Hperm.
    assert (h2 !! n = Some r) as Hn2.
    { destruct (decide (n = 0)) as [->|Hn0].
      - rewrite down_loop_unfold in Hdown. cbv zeta in Hdown.
        rewrite decide_True in Hdown by lia. injection Hdown as <-.
        unfold h1. rewrite list_insert_insert_eq. simplify_eq.
        apply list_lookup_insert_eq. lia.
      - rewrite (down_loop_above _ _ _ _ _ _ n Hdown) by lia.
        unfold h1. rewrite (lookup_swap _ _ _ _ _ _ Hr Hl).
        rewrite decide_False, decide_True by lia. done. }
    assert (length h2 = S n) as Hlen2 by by rewrite (Permutation_length Hperm).
    unfold Pop. rewrite Hlen2, (at_lookup _ _ _ Hn2). cbn [mbind run_bind].
    exists r, (take n h2). split; [done|]. split; [done|].
    assert (h2 = take n h2 ++ [r]) as Hsplit.
    { rewrite <- (take_S_r _ _ _ Hn2). by rewrite take_ge by lia. }
    split; [|split].
    + unfold is_heap. rewrite length_take_le by lia.
      intros c x y Hc. rewrite !lookup_take_lt by lia. by apply Hheap2.
    + rewrite <- (Swap_perm h 0 n h1), <- Hperm by by apply Swap_Ret.
      rewrite Hsplit at 2. by rewrite Permutation_app_comm.
    + apply Forall_lookup. intros c y Hy.
      apply (heap_root_min (length h) h r Hheap Hg ltac:(done) Hr c);
        [by eapply lookup_lt_Some|done].
Qed.

(** The bounded insertion keeps the heap shape. *)
Lemma topk_offer_heap k h res :
  (0 < k)%Z → is_heap less h → Forall good h → good res →
  ∃ h', topk_offer less k h res = Ret h' ∧ is_heap less h' ∧ Forall good h'.
Proof.
  intros Hk Hheap Hg Hres. unfold topk_offer, Len.
  destruct (decide (Z.of_nat (length h) < k)%Z) as [Hlt|Hge].
  - destruct (heap_Push_heap h res) as (h' & Hpush & Hh' & Hperm); [done..|].
    exists h'. split; [done|]. split; [done|].
    rewrite Hperm. by constructor.
  - destruct h as [|top h0] eqn:Hh; [simpl in Hge; lia|]. rewrite <- Hh in *.
    assert (h !! 0 = Some top) as Htop by by rewrite Hh.
    rewrite (at_lookup _ _ _ Htop). cbn [mbind run_bind].
    destruct (less top res).
    + destruct (heap_Pop_heap h) as (x & h1 & Hpop & _ & Hh1 & Hperm & _);
        [done|done|by rewrite Hh|].
      rewrite Hpop. cbn [mbind run_bind].
      assert (Forall good h1) as Hg1.
      { rewrite <- Hperm in Hg. by apply Forall_cons in Hg as [_ ?]. }
      destruct (heap_Push_heap h1 res) as (h' & Hpush & Hh' & Hperm'); [done..|].
      exists h'. split; [done|]. split; [done|].
      rewrite Hperm'. by constructor.
    + by exists h.
Qed.

(** Draining a heap fills the result in non-increasing order. *)
Lemma drain_loop_sorted cnt h results :
  is_heap less h → Forall good h → length h = cnt → cnt ≤ length results →
  ∃ out, drain_loop less cnt h results = Ret out
    ∧ StronglySorted (flip (heap_le less)) (take cnt out).
Proof.
  revert h results. induction cnt as [|idx IH]; intros h results Hheap Hg Hlen Hr.
  - exists results. split; [done|]. rewrite take_0. constructor.
  - destruct (heap_Pop_heap h) as (x & h1 & Hpop & _ & Hh1 & Hperm & Hmin);
      [done|done|by destruct h|].
    cbn [drain_loop]. rewrite Hpop. cbn [mbind run_bind].
    assert (Forall good h1) as Hg1.
    { rewrite <- Hperm in Hg. by apply Forall_cons in Hg as [_ ?]. }
    assert (length h1 = idx) as Hlen1.
    { apply Permutation_length in Hperm. simpl in Hperm. lia. }
    destruct (IH h1 (<[idx := x]> results)) as (out & Hout & Hsorted);
      [done|done|done|rewrite length_insert; lia|].
    exists out. split; [done|].
    destruct (drain_loop_perm _ _ _ _ _ Hout) as (Ht & Hd & Hl);
      [done|rewrite length_insert; lia|].
    rewrite length_insert in Hl.
    assert (out !! idx = Some x) as Hx.
    { rewrite <- (Nat.add_0_r idx), <- lookup_drop, Hd, lookup_drop, Nat.add_0_r.
      apply list_lookup_insert_eq. lia. }
    rewrite (take_S_r _ _ _ Hx). apply StronglySorted_app_2; [|done|].
    + intros x1 x2 Hx1 ->%list_elem_of_singleton. unfold flip.
      rewrite Ht in Hx1. rewrite Forall_forall in Hmin. apply Hmin.
      rewrite <- Hperm. by right.
    + repeat constructor.
Qed.

Lemma heap_drain_sorted zero h :
  is_heap less h → Forall good h →
  ∃ out, heap_drain less zero h = Ret out
    ∧ out ≡ₚ h ∧ StronglySorted (flip (heap_le less)) out.
Proof.
  intros Hheap Hg. unfold heap_drain, Len.
  destruct (drain_loop_sorted (length h) h (replicate (length h) zero))
    as (out & Hout & Hsorted); [done|done|done|by rewrite length_replicate|].
  exists out. split; [done|].
  destruct (drain_loop_perm _ _ _ _ _ Hout) as (Ht & _ & Hl);
    [done|by rewrite length_replicate|].
  rewrite length_replicate in Hl. rewrite take_ge in Ht, Hsorted by lia. done.
Qed.
End HeapOrder.

(** ** The order of [float32] values *)

Ltac compare_cases :=
  repeat match goal with
  | |- context [Pos.compare_cont Eq ?a ?b] =>
      change (Pos.compare_cont Eq a b) with (Pos.compare a b)
  | |- context [Z.compare ?a ?b] => destruct (Z.compare_spec a b)
  | |- context [Pos.compare ?a ?b] => destruct (Pos.compare_spec a b)
  end.

Section Float32Order.
Import Float32.

Lemma ltb_not_nan x y : ltb x y = true → is_nan x = false ∧ is_nan y = false.
Proof. by destruct x, y. Qed.

Lemma ltb_lex x y :
  is_nan x = false → is_nan y = false → ltb x y = true ↔ lex_lt (fkey x) (fkey y).
Proof.
  unfold ltb, SFltb, SFcompare, lex_lt.
  destruct x as [sx|sx| |sx mx ex], y as [sy|sy| |sy my ey]; try discriminate;
    intros _ _; try destruct sx; try destruct sy; simpl;
    compare_cases; simpl; split; (done || discriminate || lia).
Qed.

Lemma leb_lex x y :
  is_nan x = false → is_nan y = false → leb x y = true ↔ ¬ lex_lt (fkey y) (fkey x).
Proof.
  unfold leb, SFleb, SFcompare, lex_lt.
  destruct x as [sx|sx| |sx mx ex], y as [sy|sy| |sy my ey]; try discriminate;
    intros _ _; try destruct sx; try destruct sy; simpl;
    compare_cases; simpl; split; (done || discriminate || lia).
Qed.

Lemma ltb_asym x y : ltb x y = true → ltb y x = false.
Proof.
  intros H. destruct (ltb_not_nan _ _ H) as [Hx Hy].
  apply (ltb_lex _ _ Hx Hy) in H.
  destruct (ltb y x) eqn:H'; [|done].
  apply (ltb_lex _ _ Hy Hx) in H'. unfold lex_lt in *. lia.
Qed.

Lemma ltb_false_trans x y z :
  is_nan x = false → is_nan y = false → is_nan z = false →
  ltb y x = false → ltb z y = false → ltb z x = false.
Proof.
  intros Hx Hy Hz Hyx Hzy.
  destruct (ltb z x) eqn:Hzx; [|done].
  apply (ltb_lex _ _ Hz Hx) in Hzx.
  assert (¬ lex_lt (fkey y) (fkey x)) as Hyx'.
  { intros H%(ltb_lex _ _ Hy Hx). congruence. }
  assert (¬ lex_lt (fkey z) (fkey y)) as Hzy'.
  { intros H%(ltb_lex _ _ Hz Hy). congruence. }
  unfold lex_lt in *. lia.
Qed.

Lemma ltb_false_leb x y :
  is_nan x = false → is_nan y = false → ltb x y = false → leb y x = true.
Proof.
  intros Hx Hy H. apply (leb_lex _ _ Hy Hx).
  intros H'%(ltb_lex _ _ Hx Hy). congruence.
Qed.
End Float32Order.

Lemma ResultHeap_less_asym x y :
  ResultHeap_less x y = true → ResultHeap_less y x = false.
Proof. apply ltb_asym. Qed.

Lemma ResultHeap_le_trans x y z :
  numeric x → numeric y → numeric z →
  heap_le ResultHeap_less x y → heap_le ResultHeap_less y z →
  heap_le ResultHeap_less x z.
Proof.
  unfold heap_le, ResultHeap_less, numeric. intros Hx Hy Hz Hxy Hyz.
  by apply (ltb_false_trans _ (Score y)).
Qed.

(** ** Folding a fallible step over a slice *)

Section FoldRun.
Context {S X : Type} (f : S → X → run S).

Lemma foldl_run_Ret_inv (m : run S) (xs : list X) (s' : S) :
  foldl (λ acc x, s ← acc; f s x) m xs = Ret s' → ∃ s, m = Ret s.
Proof.
  revert m. induction xs as [|x xs IH]; intros m H; simpl in H; [eauto|].
  apply IH in H as [s1 H]. apply bind_Ret in H as (s & -> & _). eauto.
Qed.

(** A property kept by every step that returns is kept by the loop. *)
Lemma foldl_run_inv (P : S → Prop) (xs : list X) (s s' : S) :
  P s →
  (∀ s x s', P s → x ∈ xs → f s x = Ret s' → P s') →
  foldl (λ acc x, s ← acc; f s x) (Ret s) xs = Ret s' → P s'.
Proof.
  revert s. induction xs as [|x xs IH]; intros s Hs Hstep H; simpl in H.
  - by injection H as <-.
  - destruct (foldl_run_Ret_inv _ _ _ H) as [s1 Hs1]. rewrite Hs1 in H.
    apply (IH s1); [|intros; eapply Hstep; eauto; by right|done].
    eapply Hstep; [done|by left|done].
Qed.

(** When every step returns and keeps [P], so does the loop. *)
Lemma foldl_run_total (P : S → Prop) (xs : list X) (s : S) :
  P s →
  (∀ s x, P s → x ∈ xs → ∃ s', f s x = Ret s' ∧ P s') →
  ∃ s', foldl (λ acc x, s ← acc; f s x) (Ret s) xs = Ret s' ∧ P s'.
Proof.
  revert s. induction xs as [|x xs IH]; intros s Hs Hstep; simpl.
  - eauto.
  - destruct (Hstep s x Hs) as (s1 & Hs1 & HP1); [by left|]. rewrite Hs1.
    apply IH; [done|]. intros. apply Hstep; [done|by right].
Qed.
End FoldRun.

Lemma collect_Ret {A} (outs : list (run A)) (xs : list A) :
  collect outs = Ret xs ↔ outs = Ret <$> xs.
Proof.
  revert xs. induction outs as [|o outs IH]; intros xs; simpl.
  - split; [intros [= <-]; done|]. by destruct xs.
  - split.
    + intros H. apply bind_Ret in H as (x & -> & H).
      apply bind_Ret in H as (xs' & Hxs & [= <-]). apply IH in Hxs as ->. done.
    + destruct xs as [|x xs]; [done|]. intros [= -> Houts]. simpl.
      apply IH in Houts as ->. done.
Qed.

(** ** Search: every result comes from a record that passed the filters *)

Section SearchContents.
Variables (vs : VectorStore) (q : Vector) (k : Z).
Variables (namespace filterKey filterVal : string).

Lemma scan_hits cnt j h h' :
  Forall (hit vs q namespace filterKey filterVal) h →
  scan vs q k namespace filterKey filterVal cnt j h = Ret h' →
  Forall (hit vs q namespace filterKey filterVal) h'.
Proof.
  revert j h. induction cnt as [|cnt IH]; intros j h Hh H; cbn [scan] in H.
  - by injection H as <-.
  - apply bind_Ret in H as (rec & Hrec%at_Ret & H).
    destruct (passes namespace filterKey filterVal rec) eqn:Hp; [|by eapply IH].
    apply bind_Ret in H as (score & Hscore & H).
    apply bind_Ret in H as (h1 & Hoffer%topk_offer_subseteq & H).
    refine (IH _ _ _ H).
    apply Forall_forall. intros r Hr%Hoffer.
    apply elem_of_cons in Hr as [->|Hr].
    + exists rec. split; [by eapply list_elem_of_lookup_2|done].
    + by eapply Forall_forall in Hh.
Qed.

Lemma worker_hits se out :
  worker vs q k namespace filterKey filterVal se = Ret out →
  Forall (hit vs q namespace filterKey filterVal) out.
Proof.
  unfold worker. rewrite heap_Init_nil. cbn [mbind run_bind]. intros H.
  apply bind_Ret in H as (h & Hscan & Hdrain%heap_drain_perm).
  rewrite Hdrain. by eapply scan_hits.
Qed.

Lemma merge_hits arrival out :
  Forall (Forall (hit vs q namespace filterKey filterVal)) arrival →
  merge k arrival = Ret out →
  Forall (hit vs q namespace filterKey filterVal) out.
Proof.
  unfold merge. rewrite heap_Init_nil. cbn [mbind run_bind]. intros Harr H.
  apply bind_Ret in H as (h & Hfold & Hdrain%heap_drain_perm).
  rewrite Hdrain. revert Hfold. apply foldl_run_inv; [done|].
  intros h1 chunk h2 Hh1 Hchunk. unfold merge_chunk.
  apply foldl_run_inv; [done|].
  intros h3 res h4 Hh3 Hres Hoffer%topk_offer_subseteq.
  apply Forall_forall. intros r Hr%Hoffer.
  apply elem_of_cons in Hr as [->|Hr].
  - rewrite Forall_forall in Harr. specialize (Harr _ Hchunk).
    by eapply Forall_forall in Harr.
  - by eapply Forall_forall in Hh3.
Qed.
End SearchContents.

Lemma passes_spec namespace filterKey filterVal rec :
  passes namespace filterKey filterVal rec = true ↔
  (namespace ≠ "" → RecNamespace rec = namespace)
  ∧ (filterKey ≠ "" → default "" (RecMetadata rec !! filterKey) = filterVal).
Proof.
  unfold passes, meta_get.
  rewrite andb_true_iff, !negb_true_iff, !andb_false_iff, !bool_decide_eq_false.
  split.
  - intros [Hns Hmeta]. split.
    + intros Hne. destruct Hns as [Hns|Hns]; [done|].
      by destruct (decide (RecNamespace rec = namespace)).
    + intros Hne. destruct Hmeta as [Hmeta|Hmeta]; [done|].
      by destruct (decide (default "" (RecMetadata rec !! filterKey) = filterVal)).
  - intros [Hns Hmeta]. split.
    + destruct (decide (namespace = "")) as [->|Hne]; [left; by intros []|].
      right. intros Hne'. by apply Hne', Hns.
    + destruct (decide (filterKey = "")) as [->|Hne]; [left; by intros []|].
      right. intros Hne'. by apply Hne', Hmeta.
Qed.

Lemma Search_is_outcome vs numCPU query k namespace filterKey filterVal :
  Search_outcome vs numCPU query k namespace filterKey filterVal
    (Search vs numCPU query k namespace filterKey filterVal).
Proof.
  unfold Search_outcome, Search.
  destruct (Search_chunks _ _ _ _ _ _ _) as [chunks| |]; [|done|done].
  by exists chunks.
Qed.

Lemma Search_chunks_hits vs numCPU query k namespace filterKey filterVal chunks :
  Search_chunks vs numCPU query k namespace filterKey filterVal = Ret chunks →
  Forall (Forall (hit vs (Normalize query) namespace filterKey filterVal)) chunks.
Proof.
  unfold Search_chunks. intros H%collect_Ret.
  apply Forall_forall. intros chunk Hchunk.
  assert (Ret chunk ∈ Ret <$> chunks) as Hin by by apply list_elem_of_fmap_2.
  rewrite <- H in Hin. apply list_elem_of_fmap in Hin as (se & Hse & _).
  by eapply worker_hits.
Qed.

(** C3.  Whatever the order in which the shard results arrive, every pair
    that [Search] returns carries the id of a stored record that satisfies
    both filters: its namespace is the requested one when that is not empty,
    and its metadata value under the filter key (the empty string when the
    key is absent) is the filter value when the key is not empty.  The score
    is that record's dot product with the normalized query. *)
Theorem Search_results_pass_filters vs numCPU query k namespace filterKey filterVal
    results r :
  Search_outcome vs numCPU query k namespace filterKey filterVal (Ret results) →
  r ∈ results →
  ∃ rec, rec ∈ Records vs
    ∧ RecID rec = ID r
    ∧ (namespace ≠ "" → RecNamespace rec = namespace)
    ∧ (filterKey ≠ "" → default "" (RecMetadata rec !! filterKey) = filterVal)
    ∧ DotProduct (Normalize query) (RecVector rec) = Ret (Score r).
Proof.
  unfold Search_outcome. intros Hout Hr.
  destruct (Search_chunks _ _ _ _ _ _ _) as [chunks| |] eqn:Hchunks;
    [|discriminate|discriminate].
  destruct Hout as (arrival & Hperm & Hmerge).
  apply Search_chunks_hits in Hchunks. rewrite <- Hperm in Hchunks.
  symmetry in Hmerge. apply (merge_hits _ _ _ _ _ _ _ _ Hchunks) in Hmerge.
  rewrite Forall_forall in Hmerge.
  destruct (Hmerge r Hr) as (rec & Hrec & Hpass%passes_spec & Hid & Hscore).
  exists rec. by destruct Hpass.
Qed.

(** ** Search: at most [k] results, in non-increasing order of score *)

Lemma StronglySorted_impl_elem {A} (R R' : A → A → Prop) (l : list A) :
  (∀ a b, a ∈ l → b ∈ l → R a b → R' a b) →
  StronglySorted R l → StronglySorted R' l.
Proof.
  intros Himpl Hs. induction Hs as [|a l Hs IH Ha]; constructor.
  - apply IH. intros b c Hb Hc. apply Himpl; by right.
  - apply Forall_forall. intros b Hb. apply Himpl; [by left|by right|].
    by eapply Forall_forall in Ha.
Qed.

Lemma collect_total {A} (P : A → Prop) (outs : list (run A)) :
  Forall (λ o, ∃ x, o = Ret x ∧ P x) outs →
  ∃ xs, collect outs = Ret xs ∧ Forall P xs.
Proof.
  induction 1 as [|o outs (x & -> & Hx) _ (xs & Hxs & HP)]; simpl.
  - by exists [].
  - rewrite Hxs. exists (x :: xs). split; [done|]. by constructor.
Qed.

Lemma spawn_bounds chunkSize len cnt i se :
  se ∈ spawn chunkSize len cnt i → se.1 ≤ se.2 ≤ len.
Proof.
  revert i. induction cnt as [|cnt IH]; intros i; cbn [spawn].
  - by intros ?%elem_of_nil.
  - destruct (decide (len ≤ i * chunkSize)); [by intros ?%elem_of_nil|].
    intros [->|Hin]%elem_of_cons; [|by eapply IH].
    cbn [fst snd]. destruct (decide (len < i * chunkSize + chunkSize)); lia.
Qed.

Section SearchOrder.
Variables (vs : VectorStore) (q : Vector) (k : Z).
Variables (namespace filterKey filterVal : string).
Hypothesis k_pos : (0 < k)%Z.
Hypothesis records_scorable : ∀ rec, rec ∈ Records vs →
  passes namespace filterKey filterVal rec = true → scorable q rec = true.

Lemma topk_inv_nil : (topk_inv k) [].
Proof.
  split; [|split; [constructor|simpl; lia]].
  intros c x y Hc. simpl in Hc. lia.
Qed.

Lemma topk_offer_inv h res :
  (topk_inv k) h → numeric res →
  ∃ h', topk_offer ResultHeap_less k h res = Ret h' ∧ (topk_inv k) h'.
Proof.
  intros (Hheap & Hnum & Hlen) Hres.
  destruct (topk_offer_heap ResultHeap_less numeric ResultHeap_less_asym
              ResultHeap_le_trans k h res) as (h' & Hoffer & Hheap' & Hnum');
    [done..|].
  exists h'. split; [done|]. split; [done|]. split; [done|].
  by eapply topk_offer_length.
Qed.

Lemma scan_inv cnt j h :
  (topk_inv k) h → j + cnt ≤ length (Records vs) →
  ∃ h', scan vs q k namespace filterKey filterVal cnt j h = Ret h' ∧ (topk_inv k) h'.
Proof.
  revert j h. induction cnt as [|cnt IH]; intros j h Hinv Hj; cbn [scan].
  - by exists h.
  - destruct (lookup_lt_is_Some_2 (Records vs) j ltac:(lia)) as [rec Hrec].
    rewrite (at_lookup _ _ _ Hrec). cbn [mbind run_bind].
    destruct (passes namespace filterKey filterVal rec) eqn:Hp.
    + pose proof (records_scorable rec (list_elem_of_lookup_2 _ _ _ Hrec) Hp) as Hok.
      unfold scorable in Hok. apply andb_true_iff in Hok as [Hlen%bool_decide_eq_true Hnan].
      destruct (DotProduct_gen_Ret Float32.add Float32.mul Float32.zero q (RecVector rec) Hlen)
        as [score Hscore].
      fold (DotProduct q (RecVector rec)) in Hscore. rewrite Hscore in Hnan |- *.
      cbn [mbind run_bind].
      destruct (topk_offer_inv h {| ID := RecID rec; Score := score |} Hinv)
        as (h1 & Hoffer & Hinv1).
      { unfold numeric. cbn [Score]. by apply negb_true_iff. }
      rewrite Hoffer. cbn [mbind run_bind]. apply IH; [done|lia].
    + apply IH; [done|lia].
Qed.

Lemma worker_total se :
  se.1 ≤ se.2 ≤ length (Records vs) →
  ∃ out, worker vs q k namespace filterKey filterVal se = Ret out ∧ Forall numeric out.
Proof.
  intros Hse. unfold worker. rewrite heap_Init_nil. cbn [mbind run_bind].
  destruct (scan_inv (se.2 - se.1) se.1 [] topk_inv_nil) as (h & Hscan & Hheap & Hnum & _);
    [lia|].
  rewrite Hscan. cbn [mbind run_bind].
  destruct (heap_drain_sorted ResultHeap_less numeric ResultHeap_less_asym
              ResultHeap_le_trans zero_SearchResult h Hheap Hnum)
    as (out & Hdrain & Hperm & _).
  exists out. split; [done|]. by rewrite Hperm.
Qed.

Lemma merge_total arrival :
  Forall (Forall numeric) arrival →
  ∃ out, merge k arrival = Ret out
    ∧ (Z.of_nat (length out) ≤ k)%Z ∧ descending out.
Proof.
  intros Harr. unfold merge. rewrite heap_Init_nil. cbn [mbind run_bind].
  destruct (foldl_run_total (merge_chunk k) (topk_inv k) arrival [] topk_inv_nil)
    as (h & Hfold & Hheap & Hnum & Hlen).
  { intros h chunk Hinv Hchunk. unfold merge_chunk.
    apply (foldl_run_total _ (topk_inv k)); [done|].
    intros h1 res Hinv1 Hres. apply topk_offer_inv; [done|].
    rewrite Forall_forall in Harr. specialize (Harr _ Hchunk).
    by eapply Forall_forall in Harr. }
  rewrite Hfold. cbn [mbind run_bind].
  destruct (heap_drain_sorted ResultHeap_less numeric ResultHeap_less_asym
              ResultHeap_le_trans zero_SearchResult h Hheap Hnum)
    as (out & Hdrain & Hperm & Hsorted).
  exists out. split; [done|]. split.
  - by rewrite (Permutation_length Hperm).
  - unfold descending. eapply StronglySorted_impl_elem; [|exact Hsorted].
    intros a b Ha Hb. unfold flip, heap_le, ResultHeap_less.
    rewrite Hperm in Ha, Hb. rewrite Forall_forall in Hnum.
    apply ltb_false_leb; by apply Hnum.
Qed.
End SearchOrder.

(** C1, as the code has it.  For every store and query in which each record
    passing the filters has a vector at least as long as the normalized
    query and a score that is not NaN, and for every [k > 0]: whatever the
    order in which the shard results arrive, [Search] returns a list of at
    most [k] pairs in non-increasing order of score. *)
Theorem Search_top_k vs numCPU query k namespace filterKey filterVal out :
  (0 < k)%Z →
  searchable vs query namespace filterKey filterVal = true →
  Search_outcome vs numCPU query k namespace filterKey filterVal out →
  ∃ results, out = Ret results
    ∧ (Z.of_nat (length results) ≤ k)%Z
    ∧ descending results.
Proof.
  intros Hk Hok Hout.
  assert (∀ rec, rec ∈ Records vs →
    passes namespace filterKey filterVal rec = true →
    scorable (Normalize query) rec = true) as Hrec.
  { intros rec Hin Hp. unfold searchable in Hok.
    rewrite forallb_forall in Hok. apply list_elem_of_In, Hok in Hin.
    by rewrite Hp in Hin. }
  unfold Search_outcome, Search_chunks in Hout.
  destruct (collect_total (Forall numeric)
    (worker vs (Normalize query) k namespace filterKey filterVal
       <$> spawn ((length (Records vs) + Pos.to_nat numCPU - 1) / Pos.to_nat numCPU)
             (length (Records vs)) (Pos.to_nat numCPU) 0))
    as (chunks & Hchunks & Hnum).
  { apply Forall_forall. intros o (se & -> & Hse%spawn_bounds)%list_elem_of_fmap.
    by apply (worker_total vs (Normalize query) k namespace filterKey filterVal). }
  rewrite Hchunks in Hout. destruct Hout as (arrival & Hperm & ->).
  apply (merge_total k Hk). by rewrite Hperm.
Qed.

(** ** Search with [k ≤ 0] *)

Lemma at_cases {A} (s : list A) (i : nat) : (∃ x, at_ s i = Ret x) ∨ at_ s i = Panic.
Proof. unfold at_. destruct (s !! i); eauto. Qed.

Ltac at_case s i :=
  let x := fresh "x" in
  let H := fresh "H" in
  destruct (at_cases s i) as [[x H]|H]; rewrite H; cbn [mbind run_bind];
  [|discriminate].

Section DotProductFuel.
Context {F : Type} (add mul : F → F → F) (zero : F).

Lemma dot_tail_not_Fuel (a b : list F) fuel i sum :
  length a - i ≤ fuel → dot_tail add mul a b (length a) fuel i sum ≠ Fuel.
Proof.
  revert i sum. induction fuel as [|fuel IH]; intros i sum Hfuel; cbn [dot_tail];
    (destruct (Nat.ltb_spec i (length a)); [|discriminate]); [lia|].
  at_case a i. at_case b i. apply IH. lia.
Qed.

Lemma dot_unrolled_not_Fuel (a b : list F) fuel i sum :
  (length a - i) / 4 ≤ fuel → dot_unrolled add mul a b (length a) fuel i sum ≠ Fuel.
Proof.
  revert i sum. induction fuel as [|fuel IH]; intros i sum Hfuel; cbn [dot_unrolled];
    (destruct (Nat.ltb_spec (i + 3) (length a)); [|discriminate]); [lia|].
  at_case a i. at_case b i. at_case a (i + 1). at_case b (i + 1).
  at_case a (i + 2). at_case b (i + 2). at_case a (i + 3). at_case b (i + 3).
  apply IH. lia.
Qed.

(** The budgets of [DotProduct] always suffice. *)
Lemma DotProduct_gen_not_Fuel (a b : list F) : DotProduct_gen add mul zero a b ≠ Fuel.
Proof.
  unfold DotProduct_gen.
  destruct (dot_unrolled add mul a b (length a) (length a) 0 zero) as [sum| |] eqn:Hu;
    cbn [mbind run_bind].
  - apply dot_tail_not_Fuel. lia.
  - discriminate.
  - by apply dot_unrolled_not_Fuel in Hu; [|lia].
Qed.
End DotProductFuel.

(** The ranges handed to the workers cover every position. *)
Lemma spawn_cover chunkSize len cnt i0 i :
  i0 * chunkSize ≤ i → i < len → i < (i0 + cnt) * chunkSize →
  ∃ se, se ∈ spawn chunkSize len cnt i0 ∧ se.1 ≤ i < se.2.
Proof.
  revert i0. induction cnt as [|cnt IH]; intros i0 Hlo Hlen Hhi; cbn [spawn].
  - lia.
  - rewrite decide_False by lia.
    destruct (decide (i < i0 * chunkSize + chunkSize)) as [Hin|Hout].
    + eexists. split; [by left|]. cbn [fst snd].
      destruct (decide (len < i0 * chunkSize + chunkSize)); lia.
    + destruct (IH (S i0)) as (se & Hse & Hi); [lia|done|lia|].
      exists se. split; [by right|done].
Qed.

Lemma Search_ranges_cover len (numCPU : positive) i :
  i < len →
  ∃ se, se ∈ spawn ((len + Pos.to_nat numCPU - 1) / Pos.to_nat numCPU) len
                (Pos.to_nat numCPU) 0
    ∧ se.1 ≤ i < se.2.
Proof.
  intros Hi. apply spawn_cover; [lia|done|].
  pose proof (Pos2Nat.is_pos numCPU) as Hpos.
  pose proof (Nat.div_mod_eq (len + Pos.to_nat numCPU - 1) (Pos.to_nat numCPU)) as Hdiv.
  pose proof (Nat.mod_upper_bound (len + Pos.to_nat numCPU - 1) (Pos.to_nat numCPU)) as Hmod.
  nia.
Qed.

Lemma collect_Panic {A} (outs : list (run A)) :
  Forall (λ o, o = Panic ∨ ∃ x, o = Ret x) outs → Panic ∈ outs → collect outs = Panic.
Proof.
  induction 1 as [|o outs [->|[x ->]] _ IH]; intros Hin; cbn [collect mbind run_bind].
  - by apply elem_of_nil in Hin.
  - done.
  - apply elem_of_cons in Hin as [Hin|Hin]; [discriminate|]. by rewrite IH.
Qed.

Section SearchNonpositive.
Variables (vs : VectorStore) (q : Vector) (k : Z).
Variables (namespace filterKey filterVal : string).
Hypothesis k_nonpos : (k ≤ 0)%Z.

(** On an empty heap the first record that passes the filters makes the
    worker panic; without such a record the heap stays empty. *)
Lemma scan_nonpositive cnt j :
  j + cnt ≤ length (Records vs) →
  (scan vs q k namespace filterKey filterVal cnt j [] = Ret []
   ∧ ∀ i rec, j ≤ i < j + cnt → Records vs !! i = Some rec →
       passes namespace filterKey filterVal rec = false)
  ∨ (scan vs q k namespace filterKey filterVal cnt j [] = Panic
     ∧ ∃ i rec, j ≤ i < j + cnt ∧ Records vs !! i = Some rec
         ∧ passes namespace filterKey filterVal rec = true).
Proof.
  revert j. induction cnt as [|cnt IH]; intros j Hj; cbn [scan].
  - left. split; [done|]. intros; lia.
  - destruct (lookup_lt_is_Some_2 (Records vs) j ltac:(lia)) as [rec Hrec].
    rewrite (at_lookup _ _ _ Hrec). cbn [mbind run_bind].
    destruct (passes namespace filterKey filterVal rec) eqn:Hp.
    + right. split; [|exists j, rec; split; [lia|done]].
      destruct (DotProduct q (RecVector rec)) as [score| |] eqn:Hscore;
        cbn [mbind run_bind]; [|done|by apply DotProduct_gen_not_Fuel in Hscore].
      unfold topk_offer, Len. rewrite decide_False by (simpl; lia). done.
    + destruct (IH (S j)) as [[Hscan Hnone]|[Hscan (i & rec' & Hi & Hrec' & Hp')]]; [lia|..].
      * left. split; [done|]. intros i rec' Hi Hrec'.
        destruct (decide (i = j)) as [->|Hij]; [congruence|].
        apply (Hnone i); [lia|done].
      * right. split; [done|]. exists i, rec'. split; [lia|done].
Qed.

Lemma worker_nonpositive se :
  se.1 ≤ se.2 ≤ length (Records vs) →
  (worker vs q k namespace filterKey filterVal se = Ret []
   ∧ ∀ i rec, se.1 ≤ i < se.2 → Records vs !! i = Some rec →
       passes namespace filterKey filterVal rec = false)
  ∨ (worker vs q k namespace filterKey filterVal se = Panic
     ∧ ∃ i rec, se.1 ≤ i < se.2 ∧ Records vs !! i = Some rec
         ∧ passes namespace filterKey filterVal rec = true).
Proof.
  intros Hse. unfold worker. rewrite heap_Init_nil. cbn [mbind run_bind].
  destruct (scan_nonpositive (se.2 - se.1) se.1) as [[-> Hnone]|[-> Hsome]]; [lia|..].
  - left. split; [done|]. intros i rec Hi. apply Hnone. lia.
  - right. split; [done|]. destruct Hsome as (i & rec & Hi & Hrec).
    exists i, rec. split; [lia|done].
Qed.
End SearchNonpositive.

Lemma merge_empty_chunks k arrival :
  Forall (λ chunk, chunk = []) arrival → merge k arrival = Ret [].
Proof.
  intros Harr. unfold merge. rewrite heap_Init_nil. cbn [mbind run_bind].
  assert (foldl (λ acc chunk, h ← acc; merge_chunk k h chunk) (Ret []) arrival = Ret [])
    as ->; [|done].
  induction Harr as [|chunk arrival -> _ IH]; [done|]. cbn. exact IH.
Qed.

(** What [Search] does for [k ≤ 0]: it panics as soon as one stored record
    passes the filters, and returns the empty list otherwise. *)
Lemma Search_nonpositive_k vs numCPU query k namespace filterKey filterVal out :
  (k ≤ 0)%Z →
  Search_outcome vs numCPU query k namespace filterKey filterVal out →
  (out = Panic ∧ ∃ rec, rec ∈ Records vs
                   ∧ passes namespace filterKey filterVal rec = true)
  ∨ (out = Ret [] ∧ ∀ rec, rec ∈ Records vs →
                     passes namespace filterKey filterVal rec = false).
Proof.
  intros Hk. unfold Search_outcome, Search_chunks.
  set (ranges := spawn _ _ _ _).
  set (w := worker vs (Normalize query) k namespace filterKey filterVal).
  assert (∀ se, se ∈ ranges → se.1 ≤ se.2 ≤ length (Records vs)) as Hbounds.
  { intros se. apply spawn_bounds. }
  destruct (decide (Exists (λ rec, passes namespace filterKey filterVal rec = true)
                      (Records vs))) as [Hex|Hnone].
  - apply Exists_exists in Hex as (rec & Hrec & Hp).
    assert (collect (w <$> ranges) = Panic) as ->.
    { apply collect_Panic.
      - apply Forall_forall. intros o (se & -> & Hse)%list_elem_of_fmap. unfold w.
        destruct (worker_nonpositive vs (Normalize query) k namespace filterKey filterVal
                    Hk se (Hbounds se Hse)) as [[-> _]|[-> _]]; eauto.
      - apply list_elem_of_lookup in Hrec as [i Hi].
        destruct (Search_ranges_cover (length (Records vs)) numCPU i) as (se & Hse & Hin);
          [by eapply lookup_lt_Some|].
        destruct (worker_nonpositive vs (Normalize query) k namespace filterKey filterVal
                    Hk se (Hbounds se Hse)) as [[_ Hall]|[Hw _]].
        + rewrite (Hall i rec Hin Hi) in Hp. discriminate.
        + unfold w. rewrite <- Hw. by apply list_elem_of_fmap_2. }
    intros ->. left. eauto.
  - assert (∀ rec, rec ∈ Records vs → passes namespace filterKey filterVal rec = false)
      as Hall.
    { intros rec Hrec. destruct (passes namespace filterKey filterVal rec) eqn:Hp; [|done].
      destruct Hnone. apply Exists_exists. eauto. }
    assert (collect (w <$> ranges) = Ret ((λ _, []) <$> ranges)) as ->.
    { apply collect_Ret. rewrite <- list_fmap_compose. apply list_fmap_ext.
      intros _ se Hse%list_elem_of_lookup_2. unfold w, compose.
      destruct (worker_nonpositive vs (Normalize query) k namespace filterKey filterVal
                  Hk se (Hbounds se Hse)) as [[-> _]|[_ (i & rec & _ & Hi & Hp)]]; [done|].
      rewrite (Hall rec) in Hp; [discriminate|]. by eapply list_elem_of_lookup_2. }
    intros (arrival & Hperm & ->). right. split; [|done].
    apply merge_empty_chunks. rewrite Hperm.
    apply Forall_forall. by intros chunk (se & -> & _)%list_elem_of_fmap.
Qed.

(** ** Search on the example stores *)

(** The scenario: A is ranked above C, B is left out of the top 2. *)
Lemma Search_ABC :
  Search store_ABC 2 query_x 2 "ns1" "" "" = Ret [result_A; result_C].
Proof. vm_compute. reflexivity. Qed.

Lemma Search_top_k_witness :
  ∃ results, Search store_ABC 2 query_x 2 "ns1" "" "" = Ret results
    ∧ (Z.of_nat (length results) ≤ 2)%Z
    ∧ descending results.
Proof.
  apply (Search_top_k store_ABC 2 query_x 2 "ns1" "" "").
  - lia.
  - vm_compute. reflexivity.
  - apply Search_is_outcome.
Defined.

Lemma Search_results_pass_filters_witness :
  ∃ rec, rec ∈ Records store_ABC
    ∧ RecID rec = ID result_C
    ∧ ("ns1" ≠ "" → RecNamespace rec = "ns1")
    ∧ ("" ≠ "" → default "" (RecMetadata rec !! "") = "")
    ∧ DotProduct (Normalize query_x) (RecVector rec) = Ret (Score result_C).
Proof.
  apply (Search_results_pass_filters store_ABC 2 query_x 2 "ns1" "" ""
           [result_A; result_C] result_C).
  - rewrite <- Search_ABC. apply Search_is_outcome.
  - apply elem_of_cons. right. apply elem_of_cons. by left.
Defined.

(** C1 as stated fails.  A query longer than the stored vectors makes a
    worker index a stored vector out of range: [Search] panics instead of
    returning.  And a NaN score defeats the heap order: the store with the
    scores NaN, 1 and -1 yields the list 1, NaN, -1, in which 1 >= NaN does
    not hold. *)
Lemma Search_not_total_nor_sorted :
  (∀ out, Search_outcome store_ABC 2 (query_x ++ [Float32.zero]) 2 "" "" "" out →
          out = Panic)
  ∧ Search store_NaN 1 [Float32.of_Z 1] 3 "" "" ""
    = Ret [{| ID := "B"; Score := Float32.of_Z 1 |};
           {| ID := "A"; Score := S754_nan |};
           {| ID := "C"; Score := Float32.of_Z (-1) |}]
  ∧ ¬ descending [{| ID := "B"; Score := Float32.of_Z 1 |};
                  {| ID := "A"; Score := S754_nan |};
                  {| ID := "C"; Score := Float32.of_Z (-1) |}]
  ∧ ¬ (∀ vs numCPU query k namespace filterKey filterVal out,
         (0 < k)%Z →
         Search_outcome vs numCPU query k namespace filterKey filterVal out →
         ∃ results, out = Ret results
           ∧ (Z.of_nat (length results) ≤ k)%Z ∧ descending results).
Proof.
  assert (∀ out, Search_outcome store_ABC 2 (query_x ++ [Float32.zero]) 2 "" "" "" out →
                 out = Panic) as Hpanic.
  { intros out. unfold Search_outcome.
    assert (Search_chunks store_ABC 2 (query_x ++ [Float32.zero]) 2 "" "" "" = Panic)
      as -> by (vm_compute; reflexivity).
    done. }
  split; [exact Hpanic|].
  split; [vm_compute; reflexivity|].
  split.
  - intros Hs. apply StronglySorted_inv in Hs as [_ Hs].
    apply Forall_cons in Hs as [Hs _]. vm_compute in Hs. discriminate Hs.
  - intros Hall.
    destruct (Hall store_ABC 2%positive (query_x ++ [Float32.zero]) 2%Z "" "" ""
                (Search store_ABC 2 (query_x ++ [Float32.zero]) 2 "" "" ""))
      as (results & Hres & _); [lia|apply Search_is_outcome|].
    rewrite (Hpanic _ (Search_is_outcome _ _ _ _ _ _ _)) in Hres. discriminate Hres.
Qed.

(** C2 fails on the code.  With [k ≤ 0] the first record that passes the
    filters reaches [( *h)[0]] on an empty heap: the worker panics, whatever
    the arrival order of the other shards. *)
Theorem Search_nonpositive_k_panics :
  (∀ out, Search_outcome store_ABC 2 query_x 0 "" "" "" out → out = Panic)
  ∧ (∀ out, Search_outcome store_ABC 2 query_x (-1) "ns1" "" "" out → out = Panic)
  ∧ Search store_ABC 2 query_x 0 "" "" "" = Panic
  ∧ Search store_ABC 2 query_x (-1) "ns1" "" "" = Panic.
Proof.
  split; [|split; [|split; vm_compute; reflexivity]].
  - intros out. unfold Search_outcome.
    assert (Search_chunks store_ABC 2 query_x 0 "" "" "" = Panic)
      as -> by (vm_compute; reflexivity).
    done.
  - intros out. unfold Search_outcome.
    assert (Search_chunks store_ABC 2 query_x (-1) "ns1" "" "" = Panic)
      as -> by (vm_compute; reflexivity).
    done.
Qed.

(** ** The identifier mapping *)

Lemma rebuild_IDMap_snoc (rs : list Rec) (r : Rec) :
  rebuild_IDMap (rs ++ [r]) = <[RecID r := length rs]> (rebuild_IDMap rs).
Proof.
  unfold rebuild_IDMap. rewrite length_app. cbn [length].
  replace (length rs + 1) with (S (length rs)) by lia.
  rewrite seq_S, zip_with_app by by rewrite length_seq.
  by rewrite foldl_app.
Qed.

(** The rebuilt mapping sends an id to the last position that carries it. *)
Lemma rebuild_IDMap_lookup (rs : list Rec) (id : string) (i : nat) :
  rebuild_IDMap rs !! id = Some i ↔
  RecID <$> rs !! i = Some id ∧ ∀ j, i < j → RecID <$> rs !! j ≠ Some id.
Proof.
  induction rs as [|r rs IH] using rev_ind.
  - unfold rebuild_IDMap. cbn. rewrite lookup_empty. split; [done|]. by intros [? _].
  - rewrite rebuild_IDMap_snoc.
    destruct (decide (RecID r = id)) as [<-|Hne].
    + rewrite lookup_insert_eq. split.
      * intros [= <-]. split.
        -- by rewrite list_lookup_middle.
        -- intros j Hj. rewrite lookup_ge_None_2; [done|]. rewrite length_app. simpl. lia.
      * intros [Hi Hlast]. f_equal.
        destruct (decide (i = length rs)) as [->|Hi']; [done|].
        assert (i < length rs) as Hlt.
        { apply fmap_Some in Hi as (r' & Hr'%lookup_lt_Some & _).
          rewrite length_app in Hr'. simpl in Hr'. lia. }
        destruct (Hlast (length rs) Hlt). by rewrite list_lookup_middle.
    + rewrite lookup_insert_ne by done. rewrite IH. split.
      * intros [Hi Hlast]. split.
        -- apply fmap_Some in Hi as (r' & Hr' & ->).
           by rewrite (lookup_app_l_Some _ _ _ _ Hr').
        -- intros j Hj. destruct (decide (j < length rs)) as [Hlt|Hge].
           ++ rewrite lookup_app_l by done. by apply Hlast.
           ++ destruct (decide (j = length rs)) as [->|Hj'].
              ** rewrite list_lookup_middle by done. simpl. congruence.
              ** rewrite lookup_ge_None_2; [done|]. rewrite length_app. simpl. lia.
      * intros [Hi Hlast].
        assert (i < length rs) as Hlt.
        { apply fmap_Some in Hi as (r' & Hr' & Hid).
          apply lookup_app_Some in Hr' as [Hr'|[_ Hr']];
            [by eapply lookup_lt_Some|].
          apply list_lookup_singleton_Some in Hr' as [_ ->]. congruence. }
        split.
        -- by rewrite lookup_app_l in Hi.
        -- intros j Hj Hj'. apply (Hlast j Hj).
           apply fmap_Some in Hj' as (r' & Hr' & ->).
           by rewrite (lookup_app_l_Some _ _ _ _ Hr').
Qed.

Lemma rebuild_IDMap_sound (rs : list Rec) :
  store_sound {| Records := rs; IDMap := rebuild_IDMap rs |}.
Proof. intros id i. cbn. by intros [? _]%rebuild_IDMap_lookup. Qed.

(** In a store that satisfies the invariant no id occurs twice. *)
Lemma store_inv_NoDup (vs : VectorStore) :
  store_inv vs → NoDup (RecID <$> Records vs).
Proof.
  intros Hinv. apply NoDup_alt. intros i j id.
  rewrite !list_lookup_fmap. intros Hi%Hinv Hj%Hinv. congruence.
Qed.

Lemma rebuild_IDMap_inv (rs : list Rec) :
  NoDup (RecID <$> rs) → store_inv {| Records := rs; IDMap := rebuild_IDMap rs |}.
Proof.
  intros Hnd id i. cbn. rewrite rebuild_IDMap_lookup. split; [by intros [? _]|].
  intros Hi. split; [done|]. intros j Hj Hj'.
  rewrite NoDup_alt in Hnd. rewrite <- !list_lookup_fmap in *.
  specialize (Hnd _ _ _ Hi Hj'). lia.
Qed.

Lemma store_inv_sound (vs : VectorStore) : store_inv vs → store_sound vs.
Proof. intros Hinv id i. by intros ?%Hinv. Qed.


(** ** AddItem *)

Lemma AddItem_present vs id vector meta namespace idx :
  IDMap vs !! id = Some idx → idx < length (Records vs) →
  AddItem vs id vector meta namespace
  = Ret {| Records := <[idx := new_record id vector meta namespace]> (Records vs);
           IDMap := IDMap vs |}.
Proof.
  intros Hidx Hlt. unfold AddItem. rewrite Hidx. by rewrite decide_True.
Qed.

Lemma AddItem_absent vs id vector meta namespace :
  IDMap vs !! id = None →
  AddItem vs id vector meta namespace
  = Ret {| Records := Records vs ++ [new_record id vector meta namespace];
           IDMap := <[id := length (Records vs)]> (IDMap vs) |}.
Proof. intros Hnone. unfold AddItem. by rewrite Hnone. Qed.

Lemma store_sound_valid vs id idx :
  store_sound vs → IDMap vs !! id = Some idx → idx < length (Records vs).
Proof.
  intros Hsound Hidx%Hsound. apply fmap_Some in Hidx as (r & Hr & _).
  by eapply lookup_lt_Some.
Qed.

(** C4.  In a store whose mapped positions are valid, upserting an id that
    is present replaces the record at its position and leaves the mapping,
    the size and every other position as they were; upserting an id that is
    absent appends the record and maps the id to the new last position,
    leaving the other ids and the earlier positions as they were. *)
Theorem AddItem_upsert vs id vector meta namespace :
  store_sound vs →
  (∀ idx, IDMap vs !! id = Some idx →
     ∃ vs', AddItem vs id vector meta namespace = Ret vs'
       ∧ IDMap vs' = IDMap vs
       ∧ length (Records vs') = length (Records vs)
       ∧ Records vs' !! idx = Some (new_record id vector meta namespace)
       ∧ ∀ i, i ≠ idx → Records vs' !! i = Records vs !! i)
  ∧ (IDMap vs !! id = None →
     ∃ vs', AddItem vs id vector meta namespace = Ret vs'
       ∧ Records vs' = Records vs ++ [new_record id vector meta namespace]
       ∧ IDMap vs' !! id = Some (length (Records vs))
       ∧ ∀ id', id' ≠ id → IDMap vs' !! id' = IDMap vs !! id').
Proof.
  intros Hsound. split.
  - intros idx Hidx.
    pose proof (store_sound_valid vs id idx Hsound Hidx) as Hlt.
    rewrite (AddItem_present _ _ _ _ _ _ Hidx Hlt).
    eexists. split; [done|]. cbn.
    split; [done|]. split; [by rewrite length_insert|]. split.
    + by apply list_lookup_insert_eq.
    + intros i Hi. by apply list_lookup_insert_ne.
  - intros Hnone. rewrite (AddItem_absent _ _ _ _ _ Hnone).
    eexists. split; [done|]. cbn.
    split; [done|]. split.
    + by rewrite lookup_insert_eq.
    + intros id' Hid'. by rewrite lookup_insert_ne.
Qed.

(** [AddItem] keeps the invariant of the store. *)
Lemma AddItem_inv vs id vector meta namespace :
  store_inv vs →
  ∃ vs', AddItem vs id vector meta namespace = Ret vs' ∧ store_inv vs'.
Proof.
  intros Hinv. pose proof (store_inv_sound vs Hinv) as Hsound.
  set (record := new_record id vector meta namespace).
  destruct (IDMap vs !! id) as [idx|] eqn:Hid.
  - pose proof (store_sound_valid vs id idx Hsound Hid) as Hlt.
    rewrite (AddItem_present _ _ _ _ _ _ Hid Hlt). eexists. split; [done|].
    intros id' i. cbn. fold record.
    destruct (decide (i = idx)) as [->|Hi].
    + rewrite list_lookup_insert_eq by done. cbn. rewrite (Hinv id' idx).
      apply Hinv in Hid. rewrite Hid. split; congruence.
    + rewrite list_lookup_insert_ne by done. apply Hinv.
  - rewrite (AddItem_absent _ _ _ _ _ Hid). eexists. split; [done|].
    intros id' i. cbn. fold record.
    destruct (decide (id' = id)) as [->|Hne].
    + rewrite lookup_insert_eq. split.
      * intros [= <-]. by rewrite list_lookup_middle.
      * intros Hi. f_equal. apply fmap_Some in Hi as (r & Hr & Hrid).
        apply lookup_app_Some in Hr as [Hr|[Hge Hr]].
        -- assert (IDMap vs !! id = Some i) as Hcontra; [|congruence].
           apply Hinv. by rewrite Hr; cbn; rewrite Hrid.
        -- apply list_lookup_singleton_Some in Hr as [Hi _]. lia.
    + rewrite lookup_insert_ne by done. rewrite (Hinv id' i). split.
      * intros Hi. apply fmap_Some in Hi as (r & Hr & ->).
        by rewrite (lookup_app_l_Some _ _ _ _ Hr).
      * intros Hi. apply fmap_Some in Hi as (r & Hr & Hrid).
        apply lookup_app_Some in Hr as [Hr|[_ Hr]]; [by rewrite Hr; cbn; rewrite Hrid|].
        apply list_lookup_singleton_Some in Hr as [_ <-]. cbn in Hrid. congruence.
Qed.

Lemma NewVectorStore_inv : store_inv NewVectorStore.
Proof.
  intros id i. cbn. rewrite lookup_empty, lookup_nil. cbn. split; discriminate.
Qed.

Lemma store_of_inv items : store_inv (store_of items).
Proof.
  unfold store_of. generalize NewVectorStore_inv. generalize NewVectorStore.
  induction items as [|item items IH]; intros vs Hinv; cbn [foldl]; [done|].
  apply IH.
  destruct (AddItem_inv vs item.1.1 item.1.2 ∅ item.2 Hinv) as (vs' & -> & Hinv').
  done.
Qed.

Lemma AddItem_upsert_witness :
  (∀ idx, IDMap store_ABC !! "B" = Some idx →
     ∃ vs', AddItem store_ABC "B" query_x ∅ "ns2" = Ret vs'
       ∧ IDMap vs' = IDMap store_ABC
       ∧ length (Records vs') = length (Records store_ABC)
       ∧ Records vs' !! idx = Some (new_record "B" query_x ∅ "ns2")
       ∧ ∀ i, i ≠ idx → Records vs' !! i = Records store_ABC !! i)
  ∧ (IDMap store_ABC !! "B" = None →
     ∃ vs', AddItem store_ABC "B" query_x ∅ "ns2" = Ret vs'
       ∧ Records vs' = Records store_ABC ++ [new_record "B" query_x ∅ "ns2"]
       ∧ IDMap vs' !! "B" = Some (length (Records store_ABC))
       ∧ ∀ id', id' ≠ "B" → IDMap vs' !! id' = IDMap store_ABC !! id').
Proof.
  apply (AddItem_upsert store_ABC "B" query_x ∅ "ns2").
  apply store_inv_sound, store_of_inv.
Defined.

(** ** Save and Load *)

Lemma Load_success vs filename fs vs' :
  Load vs filename fs = (vs', None) →
  ∃ rs, files fs !! filename = Some (Encoded rs)
    ∧ vs' = {| Records := rs; IDMap := rebuild_IDMap rs |}.
Proof.
  unfold Load, os_ReadFile.
  destruct (files fs !! filename) as [[|rs|rs]|]; cbn; intros [= <-]. eauto.
Qed.

(** What a failing [Load] leaves behind. *)
Lemma Load_failure vs filename fs vs' err :
  Load vs filename fs = (vs', Some err) →
  (vs' = vs ∧ (err = ErrNotExist ∨ err = SyntaxError))
  ∨ (err = UnmarshalTypeError
     ∧ ∃ rs, files fs !! filename = Some (Mistyped rs)
         ∧ vs' = {| Records := rs; IDMap := IDMap vs |}).
Proof.
  unfold Load, os_ReadFile.
  destruct (files fs !! filename) as [[|rs|rs]|]; cbn; intros [= <- <-].
  - left. split; [by destruct vs|]. by right.
  - right. eauto.
  - left. split; [done|]. by left.
Qed.


(** C5, as the code has it.  The mapping is a bijection onto the valid
    positions in a new store, after [AddItem] on a store where it was one,
    and after a [Load] that returns no error from a file in which no id
    occurs twice.  After any [Load] that returns no error, every mapped
    position is valid and holds a record with the mapped id. *)
Theorem store_inv_maintained :
  store_inv NewVectorStore
  ∧ (∀ vs id vector meta namespace, store_inv vs →
       ∃ vs', AddItem vs id vector meta namespace = Ret vs' ∧ store_inv vs')
  ∧ (∀ vs filename fs vs', Load vs filename fs = (vs', None) →
       store_sound vs' ∧ (NoDup (RecID <$> Records vs') → store_inv vs')).
Proof.
  split; [exact NewVectorStore_inv|]. split; [intros; by apply AddItem_inv|].
  intros vs filename fs vs' (rs & _ & ->)%Load_success. split.
  - apply rebuild_IDMap_sound.
  - apply rebuild_IDMap_inv.
Qed.

(** C5 as stated fails for [Load]: from a file in which an id occurs twice
    it returns no error and leaves two records but one mapped position, so
    that position 0 holds a record whose id is mapped elsewhere. *)
Lemma Load_duplicate_ids_not_bijective :
  ∃ vs', Load NewVectorStore "vectors.json" fs_duplicate = (vs', None)
    ∧ length (Records vs') = 2
    ∧ RecID <$> Records vs' !! 0 = Some "a"
    ∧ IDMap vs' !! "a" = Some 1
    ∧ ¬ store_inv vs'.
Proof.
  eexists. split; [vm_compute; reflexivity|].
  split; [reflexivity|]. split; [reflexivity|].
  split; [vm_compute; reflexivity|].
  intros Hinv. specialize (Hinv "a" 0). destruct Hinv as [_ Hinv].
  specialize (Hinv eq_refl). vm_compute in Hinv. discriminate Hinv.
Qed.



(** C10 fails on the code.  [Load] leaves the store untouched when the file
    cannot be read or is not JSON; but on a type error [json.Unmarshal] has
    already written the decoded records through [&vs.Records] when [Load]
    returns the error, without rebuilding the mapping. *)
Theorem Load_type_error_not_atomic :
  (∀ vs filename fs vs' err,
     Load vs filename fs = (vs', Some err) →
     err = ErrNotExist ∨ err = SyntaxError → vs' = vs)
  ∧ (∃ vs', Load NewVectorStore "vectors.json" fs_mistyped
            = (vs', Some UnmarshalTypeError)
      ∧ RecID <$> Records vs' = ["x"]
      ∧ IDMap vs' = ∅
      ∧ ¬ store_inv vs')
  ∧ ∃ vs', Load store_ABC "vectors.json" fs_mistyped = (vs', Some UnmarshalTypeError)
      ∧ RecID <$> Records vs' = ["x"]
      ∧ IDMap vs' = IDMap store_ABC
      ∧ Records vs' ≠ Records store_ABC
      ∧ ¬ store_sound vs'.
Proof.
  split; [|split].
  - intros vs filename fs vs' err [[-> _]|[-> _]]%Load_failure; [done|].
    intros [|]; discriminate.
  - eexists. split; [vm_compute; reflexivity|].
    split; [reflexivity|]. split; [reflexivity|].
    intros Hinv. specialize (Hinv "x" 0). destruct Hinv as [_ Hinv].
    specialize (Hinv eq_refl). vm_compute in Hinv. discriminate Hinv.
  - eexists. split; [vm_compute; reflexivity|].
    split; [reflexivity|]. split; [reflexivity|]. split.
    + intros H. apply (f_equal length) in H. vm_compute in H. discriminate H.
    + intros Hsound. specialize (Hsound "A" 0).
      assert (IDMap store_ABC !! "A" = Some 0) as HA by (vm_compute; reflexivity).
      specialize (Hsound HA). vm_compute in Hsound. discriminate Hsound.
Qed.

(** * Further properties of the code *)

(** ** DotProduct on vectors of different lengths *)

Section DotProductBounds.
Context {F : Type} (add mul : F → F → F) (zero : F).
Implicit Types a b : list F.

(** On a second vector at least as long as the first, the loops read the
    first [len(a)] components of both. *)
Lemma DotProduct_gen_le a b :
  length a ≤ length b →
  DotProduct_gen add mul zero a b = Ret (dot_grouped add mul zero (zip a b)).
Proof.
  intros Hlen. unfold DotProduct_gen.
  replace (length a / 4 * 4) with (0 + 4 * ((length a - 0) / 4)) by lia.
  rewrite dot_loops_spec by lia. by rewrite drop_0.
Qed.

(** The unrolled loop reaches the end of a [b] that stops inside the full
    groups of four. *)
Lemma dot_unrolled_Panic a b fuel i sum :
  i mod 4 = 0 → i ≤ length b → length b < length a / 4 * 4 →
  (length a - i) / 4 ≤ fuel →
  dot_unrolled add mul a b (length a) fuel i sum = Panic.
Proof.
  revert i sum. induction fuel as [|fuel IH]; intros i sum Hi Hib Hb Hfuel.
  - lia.
  - cbn [dot_unrolled]. destruct (Nat.ltb_spec (i + 3) (length a)) as [Hin|Hin]; [|lia].
    destruct (lookup_lt_is_Some_2 a i ltac:(lia)) as [x0 Hx0].
    destruct (lookup_lt_is_Some_2 a (i + 1) ltac:(lia)) as [x1 Hx1].
    destruct (lookup_lt_is_Some_2 a (i + 2) ltac:(lia)) as [x2 Hx2].
    destruct (lookup_lt_is_Some_2 a (i + 3) ltac:(lia)) as [x3 Hx3].
    rewrite (at_lookup _ _ _ Hx0), (at_lookup _ _ _ Hx1),
      (at_lookup _ _ _ Hx2), (at_lookup _ _ _ Hx3).
    cbn [mbind run_bind]. unfold at_.
    destruct (b !! i) as [y0|] eqn:Hy0; [|done]. cbn [mbind run_bind].
    destruct (b !! (i + 1)) as [y1|] eqn:Hy1; [|done]. cbn [mbind run_bind].
    destruct (b !! (i + 2)) as [y2|] eqn:Hy2; [|done]. cbn [mbind run_bind].
    destruct (b !! (i + 3)) as [y3|] eqn:Hy3; [|done]. cbn [mbind run_bind].
    apply lookup_lt_Some in Hy3. apply IH; lia.
Qed.

(** It runs through when [b] covers the full groups of four. *)
Lemma dot_unrolled_Ret a b fuel i sum :
  i mod 4 = 0 → length a / 4 * 4 ≤ length b →
  (length a - i) / 4 ≤ fuel →
  ∃ s, dot_unrolled add mul a b (length a) fuel i sum = Ret s.
Proof.
  revert i sum. induction fuel as [|fuel IH]; intros i sum Hi Hb Hfuel.
  - cbn [dot_unrolled]. destruct (Nat.ltb_spec (i + 3) (length a)); [lia|eauto].
  - cbn [dot_unrolled]. destruct (Nat.ltb_spec (i + 3) (length a)) as [Hin|Hin]; [|eauto].
    destruct (lookup_lt_is_Some_2 a i ltac:(lia)) as [x0 Hx0].
    destruct (lookup_lt_is_Some_2 b i ltac:(lia)) as [y0 Hy0].
    destruct (lookup_lt_is_Some_2 a (i + 1) ltac:(lia)) as [x1 Hx1].
    destruct (lookup_lt_is_Some_2 b (i + 1) ltac:(lia)) as [y1 Hy1].
    destruct (lookup_lt_is_Some_2 a (i + 2) ltac:(lia)) as [x2 Hx2].
    destruct (lookup_lt_is_Some_2 b (i + 2) ltac:(lia)) as [y2 Hy2].
    destruct (lookup_lt_is_Some_2 a (i + 3) ltac:(lia)) as [x3 Hx3].
    destruct (lookup_lt_is_Some_2 b (i + 3) ltac:(lia)) as [y3 Hy3].
    rewrite (at_lookup _ _ _ Hx0), (at_lookup _ _ _ Hy0),
      (at_lookup _ _ _ Hx1), (at_lookup _ _ _ Hy1),
      (at_lookup _ _ _ Hx2), (at_lookup _ _ _ Hy2),
      (at_lookup _ _ _ Hx3), (at_lookup _ _ _ Hy3).
    cbn [mbind run_bind]. apply IH; lia.
Qed.

(** The remainder loop reaches the end of a [b] shorter than [a]. *)
Lemma dot_tail_Panic a b fuel i sum :
  i ≤ length b → length b < length a → length a - i ≤ fuel →
  dot_tail add mul a b (length a) fuel i sum = Panic.
Proof.
  revert i sum. induction fuel as [|fuel IH]; intros i sum Hib Hb Hfuel.
  - lia.
  - cbn [dot_tail]. destruct (Nat.ltb_spec i (length a)) as [Hin|Hin]; [|lia].
    destruct (lookup_lt_is_Some_2 a i Hin) as [x Hx].
    rewrite (at_lookup _ _ _ Hx). cbn [mbind run_bind]. unfold at_.
    destruct (b !! i) as [y|] eqn:Hy; [|done]. cbn [mbind run_bind].
    apply lookup_lt_Some in Hy. apply IH; lia.
Qed.

Lemma DotProduct_gen_short a b :
  length b < length a → DotProduct_gen add mul zero a b = Panic.
Proof.
  intros Hlen. unfold DotProduct_gen.
  destruct (decide (length b < length a / 4 * 4)) as [Hb|Hb].
  - rewrite dot_unrolled_Panic; [done|done|lia|done|lia].
  - destruct (dot_unrolled_Ret a b (length a) 0 zero) as [s ->]; [done|lia|lia|].
    cbn [mbind run_bind]. apply dot_tail_Panic; lia.
Qed.

Lemma dot_grouped_ext (mul' : F → F → F) sum (ps ps' : list (F * F)) :
  Forall2 (λ p p', mul p.1 p.2 = mul' p'.1 p'.2) ps ps' →
  dot_grouped add mul sum ps = dot_grouped add mul' sum ps'.
Proof.
  assert (∀ n (ps ps' : list (F * F)) sum, length ps ≤ n →
    Forall2 (λ p p', mul p.1 p.2 = mul' p'.1 p'.2) ps ps' →
    dot_grouped add mul sum ps = dot_grouped add mul' sum ps') as Hn;
    [|by apply (Hn (length ps))].
  clear sum ps ps'. induction n as [|n IH]; intros ps ps' sum Hlen H.
  - destruct H; [done|simpl in Hlen; lia].
  - destruct H as [|p0 q0 ps ps' H0 H]; [done|].
    destruct H as [|p1 q1 ps ps' H1 H]; [cbn; by rewrite H0|].
    destruct H as [|p2 q2 ps ps' H2 H]; [cbn; by rewrite H0, H1|].
    destruct H as [|p3 q3 ps ps' H3 H]; [cbn; by rewrite H0, H1, H2|].
    cbn [dot_grouped]. rewrite H0, H1, H2, H3. apply IH; [simpl in Hlen; lia|done].
Qed.
End DotProductBounds.

Lemma Float32_mul_comm (x y : float32) : Float32.mul x y = Float32.mul y x.
Proof.
  unfold Float32.mul, SFmul.
  destruct x as [sx|sx| |sx mx ex], y as [sy|sy| |sy my ey];
    try reflexivity; rewrite ?(xorb_comm sx sy); try reflexivity.
  by rewrite (Pos.mul_comm mx my), (Z.add_comm ex ey).
Qed.


(** X2.  When [b] is longer than [a], its components from position [len(a)]
    on are never read: the result is that of [a] with the prefix of [b]. *)
Theorem DotProduct_ignores_extra (a b : Vector) :
  length a ≤ length b →
  DotProduct a b = DotProduct a (take (length a) b)
  ∧ DotProduct a b
    = Ret (dot_grouped Float32.add Float32.mul Float32.zero (zip a (take (length a) b))).
Proof.
  intros Hlen. unfold DotProduct.
  rewrite !DotProduct_gen_le by (rewrite ?length_take; lia).
  assert (zip a (take (length a) b) = zip a b) as ->; [|done].
  apply zip_with_take_r.
Qed.

Lemma DotProduct_ignores_extra_witness :
  let a := [Float32.of_Z 1; Float32.of_Z 2] in
  let b := [Float32.of_Z 3; Float32.of_Z 4; Float32.of_Z 5] in
  DotProduct a b = DotProduct a (take (length a) b)
  ∧ DotProduct a b
    = Ret (dot_grouped Float32.add Float32.mul Float32.zero (zip a (take (length a) b))).
Proof. apply DotProduct_ignores_extra. simpl. lia. Defined.

(** X3.  On vectors of equal length [DotProduct] is symmetric. *)
Theorem DotProduct_comm (a b : Vector) :
  length a = length b → DotProduct a b = DotProduct b a.
Proof.
  intros Hlen. unfold DotProduct. rewrite !DotProduct_gen_le by lia. f_equal.
  apply dot_grouped_ext.
  apply Forall2_same_length_lookup_2; [by rewrite !length_zip; lia|].
  intros i [x y] [y' x'] [Hp1 Hp2]%lookup_zip_Some [Hq1 Hq2]%lookup_zip_Some.
  cbn [fst snd]. rewrite Float32_mul_comm. congruence.
Qed.

Lemma DotProduct_comm_witness :
  DotProduct [Float32.of_Z 1; Float32.of_Z 2] [Float32.of_Z 3; Float32.of_Z 4]
  = DotProduct [Float32.of_Z 3; Float32.of_Z 4] [Float32.of_Z 1; Float32.of_Z 2].
Proof. apply DotProduct_comm. reflexivity. Defined.

(** ** Rounding never turns a number into NaN *)

Section Rounding.
Variables prec emax : Z.

Lemma iter_pos_invariant {A} (P : A → Prop) (f : A → A) :
  (∀ x, P x → P (f x)) → ∀ p x, P x → P (SpecFloat.iter_pos f p x).
Proof.
  intros Hf. induction p as [p IH|p IH|]; intros x Hx; cbn [SpecFloat.iter_pos]; auto.
Qed.

Lemma shr_1_nonneg mrs : (0 ≤ shr_m mrs → 0 ≤ shr_m (shr_1 mrs))%Z.
Proof. destruct mrs as [[|[p|p|]|[p|p|]] r s]; cbn; lia. Qed.

Lemma shr_fexp_nonneg m e l :
  (0 ≤ m → 0 ≤ shr_m (shr_fexp prec emax m e l).1)%Z.
Proof.
  intros Hm. unfold shr_fexp, shr.
  assert (0 ≤ shr_m (shr_record_of_loc m l))%Z as H0 by (by destruct l as [|[]]).
  destruct (_ - e)%Z; cbn [fst]; [done| |done].
  by apply (iter_pos_invariant (λ mrs, 0 ≤ shr_m mrs)%Z), H0; apply shr_1_nonneg.
Qed.

Lemma round_nearest_even_nonneg m l : (0 ≤ m → 0 ≤ round_nearest_even m l)%Z.
Proof. intros Hm. destruct l as [|[]]; cbn; [done| |done|lia]. destruct (Z.even m); lia. Qed.

Lemma binary_round_aux_signed s mx ex lx :
  (0 ≤ mx)%Z → signed s (binary_round_aux prec emax s mx ex lx).
Proof.
  intros Hm. unfold binary_round_aux.
  pose proof (shr_fexp_nonneg mx ex lx Hm) as H1.
  destruct (shr_fexp prec emax mx ex lx) as [mrs' e']. cbn [fst] in H1.
  pose proof (shr_fexp_nonneg _ e' loc_Exact
                (round_nearest_even_nonneg _ (loc_of_shr_record mrs') H1)) as H2.
  destruct (shr_fexp prec emax _ e' loc_Exact) as [mrs'' e'']. cbn [fst] in H2.
  destruct (shr_m mrs''); [done| |lia]. by destruct (_ <=? _)%Z.
Qed.

Lemma binary_round_signed s m e : signed s (binary_round prec emax s m e).
Proof.
  unfold binary_round. destruct (shl_align _ _ _) as [mz ez].
  by apply binary_round_aux_signed.
Qed.

Lemma SFmul_square_signed x : x ≠ S754_nan → signed false (SFmul prec emax x x).
Proof.
  destruct x as [[]|[]| |[] m e]; intros Hx; try done;
    by apply binary_round_aux_signed.
Qed.

Lemma SFadd_signed x y :
  signed false x → signed false y → signed false (SFadd prec emax x y).
Proof.
  destruct x as [sx|sx| |sx mx ex], y as [sy|sy| |sy my ey]; cbn [signed];
    intros Hx Hy; try done; subst; try done.
  cbn. apply binary_round_signed.
Qed.

Lemma SFadd_infinity_r x :
  signed false x → SFadd prec emax x (S754_infinity false) = S754_infinity false.
Proof. destruct x as [sx|sx| |sx mx ex]; cbn [signed]; intros Hx; by subst. Qed.

Lemma SFadd_infinity_l y :
  signed false y → SFadd prec emax (S754_infinity false) y = S754_infinity false.
Proof. destruct y as [sy|sy| |sy my ey]; cbn [signed]; intros Hy; by subst. Qed.

Lemma SFsqrt_signed x : signed false x → signed false (SFsqrt prec emax x).
Proof.
  destruct x as [s|s| |s m e]; cbn [signed]; intros Hx; subst; try done.
  unfold SFsqrt, SFsqrt_core_binary.
  set (m' := match _ with Z0 => _ | Z.pos _ => _ | Z.neg _ => _ end).
  assert (0 ≤ m')%Z as Hm'.
  { unfold m'. destruct (_ - _)%Z; [lia| |lia]. by apply Z.shiftl_nonneg. }
  pose proof (Z.sqrtrem_spec m' Hm') as Hspec.
  destruct (Z.sqrtrem m') as [q r].
  apply binary_round_aux_signed. lia.
Qed.

Lemma SFdiv_signed x y :
  finite32 x = true → signed false y → SFeqb y (S754_zero false) = false →
  SFdiv prec emax x y ≠ S754_nan.
Proof.
  destruct x as [sx|sx| |sx mx ex], y as [sy|sy| |sy my ey]; cbn; try done.
  intros _ _ _. unfold SFdiv_core_binary.
  set (m' := match _ with Z0 => _ | Z.pos _ => _ | Z.neg _ => _ end).
  assert (0 ≤ m')%Z as Hm'.
  { unfold m'. destruct (_ - _)%Z; [lia| |lia]. by apply Z.shiftl_nonneg. }
  pose proof (Z.div_pos m' (Z.pos my) Hm' ltac:(lia)) as Hq.
  unfold Z.div in Hq. destruct (Z.div_eucl m' (Z.pos my)) as [q r]. cbn [fst] in Hq.
  pose proof (binary_round_aux_signed (xorb sx sy) q
    (Z.min (fexp prec emax (Zdigits2 (Z.pos mx) + ex - (Zdigits2 (Z.pos my) + ey)))
       (ex - ey)) (new_location (Z.pos my) r) Hq) as Hs.
  intros Hnan. by rewrite Hnan in Hs.
Qed.
End Rounding.

(** ** Normalize on vectors with NaN or infinite components *)

Section NormalizeNonFinite.
Implicit Types v : Vector.

Local Abbreviation sq := (λ sum val : float32, Float32.add sum (Float32.mul val val)).

Lemma sum_squares_nan v s : S754_nan ∈ v → foldl sq s v = S754_nan.
Proof.
  assert (∀ v, foldl sq S754_nan v = S754_nan) as Hstay.
  { clear. induction v as [|x v IH]; [done|]. cbn [foldl]. exact IH. }
  revert s. induction v as [|x v IH]; intros s Hin.
  - by apply elem_of_nil in Hin.
  - cbn [foldl]. apply elem_of_cons in Hin as [<-|Hin]; [|by apply IH].
    assert (sq s S754_nan = S754_nan) as Hs by (by destruct s).
    cbn beta in Hs. rewrite Hs. apply Hstay.
Qed.

Lemma sum_squares_signed v s :
  S754_nan ∉ v → signed false s → signed false (foldl sq s v).
Proof.
  revert s. induction v as [|x v IH]; intros s Hv Hs; [done|].
  cbn [foldl]. apply not_elem_of_cons in Hv as [Hx Hv]. apply IH; [done|].
  apply SFadd_signed; [done|]. by apply SFmul_square_signed.
Qed.

Lemma sum_squares_infinite v s b :
  S754_nan ∉ v → S754_infinity b ∈ v → signed false s →
  foldl sq s v = S754_infinity false.
Proof.
  assert (∀ v, S754_nan ∉ v → foldl sq (S754_infinity false) v = S754_infinity false)
    as Hstay.
  { clear. induction v as [|x v IH]; intros Hv; [done|].
    apply not_elem_of_cons in Hv as [Hx Hv]. cbn [foldl].
    unfold Float32.add. rewrite SFadd_infinity_l; [by apply IH|].
    by apply SFmul_square_signed. }
  revert s. induction v as [|x v IH]; intros s Hv Hin Hs.
  - by apply elem_of_nil in Hin.
  - apply not_elem_of_cons in Hv as [Hx Hv]. cbn [foldl].
    apply elem_of_cons in Hin as [<-|Hin].
    + assert (sq s (S754_infinity b) = S754_infinity false) as ->; [|by apply Hstay].
      unfold Float32.add.
      assert (Float32.mul (S754_infinity b) (S754_infinity b) = S754_infinity false)
        as -> by (by destruct b).
      by apply SFadd_infinity_r.
    + apply IH; [done|done|]. apply SFadd_signed; [done|]. by apply SFmul_square_signed.
Qed.

Lemma magnitude_nan v : S754_nan ∈ v → magnitude v = S754_nan.
Proof. intros Hin. unfold magnitude. rewrite (sum_squares_nan v _ Hin). reflexivity. Qed.

Lemma magnitude_infinite v b :
  S754_nan ∉ v → S754_infinity b ∈ v → magnitude v = S754_infinity false.
Proof.
  intros Hv Hin. unfold magnitude. rewrite (sum_squares_infinite v _ b Hv Hin); [|done].
  reflexivity.
Qed.

Lemma magnitude_signed v : S754_nan ∉ v → signed false (magnitude v).
Proof.
  intros Hv. unfold magnitude.
  pose proof (sum_squares_signed v Float32.zero Hv eq_refl) as Hs.
  destruct (foldl sq Float32.zero v) as [s|s| |s m e]; cbn [signed] in Hs;
    subst; try done.
  unfold Float32.to_float64.
  pose proof (binary_round_signed 53 1024 false m e) as H64.
  apply (SFsqrt_signed 53 1024) in H64. unfold Float32.sqrt64.
  destruct (SFsqrt 53 1024 (binary_round 53 1024 false m e)) as [s|s| |s m' e'];
    cbn [signed] in H64; subst; try done.
  apply binary_round_signed.
Qed.

Lemma finite32_not_nan v : Forall (λ x, finite32 x = true) v → S754_nan ∉ v.
Proof. intros Hv Hin. eapply Forall_forall in Hv; [|exact Hin]. done. Qed.

(** One NaN component makes every component of the normalized vector NaN. *)
Lemma Normalize_nan_all v :
  S754_nan ∈ v → Normalize v = replicate (length v) S754_nan.
Proof.
  intros Hin. unfold Normalize. rewrite (magnitude_nan v Hin). cbn.
  rewrite fill_range_fmap. clear Hin. induction v as [|x v IH]; [done|].
  cbn. rewrite IH. by destruct x.
Qed.

(** A NaN or infinite component leaves a NaN in the normalized vector. *)
Lemma Normalize_nonfinite_nan v x :
  x ∈ v → finite32 x = false → S754_nan ∈ Normalize v.
Proof.
  intros Hin Hx.
  assert (S754_nan ∈ v ∨ S754_nan ∉ v) as [Hnan|Hv].
  { destruct (decide (Exists (λ y, Float32.is_nan y = true) v)) as [Hex|Hno].
    - left. apply Exists_exists in Hex as (y & Hy & Hnan). by destruct y.
    - right. intros Hnan. apply Hno, Exists_exists. by exists S754_nan. }
  { rewrite (Normalize_nan_all v Hnan). apply list_elem_of_lookup.
    apply list_elem_of_lookup in Hnan as [i Hi]. exists i.
    apply lookup_replicate_2. by eapply lookup_lt_Some. }
  destruct x as [s|b| |s m e]; try done.
  unfold Normalize. rewrite (magnitude_infinite v b Hv Hin). cbn.
  rewrite fill_range_fmap. apply list_elem_of_fmap. by exists (S754_infinity b).
Qed.

(** Finite components never produce one. *)
Lemma Normalize_finite_no_nan v :
  Forall (λ x, finite32 x = true) v → S754_nan ∉ Normalize v.
Proof.
  intros Hfin Hnan. pose proof (finite32_not_nan v Hfin) as Hv.
  unfold Normalize in Hnan.
  destruct (Float32.eqb (magnitude v) Float32.zero) eqn:Hz; [done|].
  rewrite fill_range_fmap in Hnan.
  apply list_elem_of_fmap in Hnan as (x & Hx & Hin).
  eapply Forall_forall in Hfin; [|exact Hin].
  symmetry in Hx. revert Hx. apply SFdiv_signed; [done| |done].
  by apply magnitude_signed.
Qed.

(** X4.  The normalized vector holds a NaN exactly when the vector given
    has a component that is NaN or infinite; and when the vector given holds
    a NaN, every component of the normalized vector is NaN. *)
Theorem Normalize_NaN_iff v :
  (S754_nan ∈ Normalize v ↔ ∃ x, x ∈ v ∧ finite32 x = false)
  ∧ (S754_nan ∈ v → Normalize v = replicate (length v) S754_nan).
Proof.
  split; [|apply Normalize_nan_all]. split.
  - intros Hnan.
    destruct (decide (Exists (λ x, finite32 x = false) v)) as [Hex|Hall].
    { by apply Exists_exists in Hex. }
    exfalso. apply not_Exists_Forall in Hall; [|apply _].
    revert Hnan. apply Normalize_finite_no_nan.
    eapply Forall_impl; [exact Hall|]. intros x Hx. cbn in Hx.
    by destruct (finite32 x).
  - intros (x & Hin & Hx). by eapply Normalize_nonfinite_nan.
Qed.
End NormalizeNonFinite.

(** ** [container/heap]: the operations return on any slice

    Whatever the comparison answers (a NaN score makes it answer [false] both
    ways), the index arithmetic of [up] and [down] stays within the slice. *)

Section HeapTotal.
Context {A : Type} (less : A → A → bool).
Implicit Types h : list A.

Lemma up_loop_total fuel h j :
  j < length h → j ≤ fuel →
  ∃ h', up_loop less fuel h j = Ret h' ∧ length h' = length h.
Proof.
  revert h j. induction fuel as [|fuel IH]; intros h j Hj Hfuel;
    rewrite up_loop_unfold; cbv zeta.
  - rewrite decide_True by lia. eauto.
  - destruct (decide ((j - 1) / 2 = j)) as [|Hne]; [eauto|].
    destruct (lookup_lt_is_Some_2 h j Hj) as [y Hy].
    destruct (lookup_lt_is_Some_2 h ((j - 1) / 2) ltac:(lia)) as [x Hx].
    rewrite (Less_Ret less _ _ _ _ _ Hy Hx). cbn [mbind run_bind].
    destruct (less y x); cbn [negb]; [|eauto].
    rewrite (Swap_Ret _ _ _ _ _ Hx Hy). cbn [mbind run_bind].
    destruct (IH (<[(j - 1) / 2 := y]> (<[j := x]> h)) ((j - 1) / 2))
      as (h' & -> & Hlen); [rewrite !length_insert; lia|lia|].
    exists h'. split; [done|]. by rewrite Hlen, !length_insert.
Qed.

Lemma down_loop_total fuel h i n :
  n ≤ length h → n - i ≤ fuel →
  ∃ h', down_loop less fuel h i n = Ret h' ∧ length h' = length h.
Proof.
  revert h i. induction fuel as [|fuel IH]; intros h i Hn Hfuel;
    rewrite down_loop_unfold; cbv zeta.
  - rewrite decide_True by lia. eauto.
  - destruct (decide (n ≤ 2 * i + 1)) as [|Hlt]; [eauto|].
    destruct (lookup_lt_is_Some_2 h i ltac:(lia)) as [x Hx].
    destruct (lookup_lt_is_Some_2 h (2 * i + 1) ltac:(lia)) as [y1 Hy1].
    assert (∃ b, (if decide (2 * i + 1 + 1 < n)
                  then Less less h (2 * i + 1 + 1) (2 * i + 1) else Ret false) = Ret b
                 ∧ (b = true → 2 * i + 1 + 1 < n))
      as (b & -> & Hb).
    { destruct (decide (2 * i + 1 + 1 < n)); [|by exists false].
      destruct (lookup_lt_is_Some_2 h (2 * i + 1 + 1) ltac:(lia)) as [y2 Hy2].
      rewrite (Less_Ret less _ _ _ _ _ Hy2 Hy1). eauto. }
    cbn [mbind run_bind].
    set (j := if b then 2 * i + 1 + 1 else 2 * i + 1).
    assert (i < j < n) as Hij by (unfold j; destruct b; [specialize (Hb eq_refl)|]; lia).
    destruct (lookup_lt_is_Some_2 h j ltac:(lia)) as [y Hy].
    rewrite (Less_Ret less _ _ _ _ _ Hy Hx). cbn [mbind run_bind].
    destruct (less y x); cbn [negb]; [|eauto].
    rewrite (Swap_Ret _ _ _ _ _ Hx Hy). cbn [mbind run_bind].
    destruct (IH (<[i := y]> (<[j := x]> h)) j) as (h' & -> & Hlen);
      [rewrite !length_insert; lia|lia|].
    exists h'. split; [done|]. by rewrite Hlen, !length_insert.
Qed.

Lemma heap_Push_total h x :
  ∃ h', heap_Push less h x = Ret h' ∧ length h' = S (length h).
Proof.
  unfold heap_Push, heap_up, Push, Len.
  destruct (up_loop_total (length (h ++ [x]) - 1) (h ++ [x]) (length (h ++ [x]) - 1))
    as (h' & -> & Hlen); [rewrite length_app; simpl; lia|lia|].
  exists h'. split; [done|]. rewrite Hlen, length_app. simpl. lia.
Qed.

Lemma heap_Pop_total h :
  h ≠ [] → ∃ x h', heap_Pop less h = Ret (x, h') ∧ S (length h') = length h.
Proof.
  intros Hne. unfold heap_Pop, Len.
  destruct (length h) as [|n] eqn:Hlen; [by destruct h|].
  destruct (lookup_lt_is_Some_2 h 0 ltac:(lia)) as [x0 Hx0].
  destruct (lookup_lt_is_Some_2 h n ltac:(lia)) as [xn Hxn].
  rewrite (Swap_Ret _ _ _ _ _ Hx0 Hxn). cbn [mbind run_bind].
  unfold heap_down.
  destruct (down_loop_total n (<[0 := xn]> (<[n := x0]> h)) 0 n) as (h2 & -> & Hlen2);
    [rewrite !length_insert; lia|lia|].
  cbn [mbind run_bind]. rewrite !length_insert in Hlen2.
  unfold Pop. rewrite Hlen2, Hlen.
  destruct (lookup_lt_is_Some_2 h2 n ltac:(lia)) as [x Hx].
  rewrite (at_lookup _ _ _ Hx). cbn [mbind run_bind].
  exists x, (take n h2). split; [done|]. rewrite length_take. lia.
Qed.

Lemma topk_offer_total k h res :
  (0 < k)%Z → ∃ h', topk_offer less k h res = Ret h'.
Proof.
  intros Hk. unfold topk_offer, Len.
  destruct (decide (Z.of_nat (length h) < k)%Z) as [|Hfull].
  - destruct (heap_Push_total h res) as (h' & -> & _). eauto.
  - destruct (lookup_lt_is_Some_2 h 0 ltac:(lia)) as [top Htop].
    rewrite (at_lookup _ _ _ Htop). cbn [mbind run_bind].
    destruct (less top res); [|eauto].
    destruct (heap_Pop_total h) as (x & h1 & -> & _); [by destruct h|].
    cbn [mbind run_bind].
    destruct (heap_Push_total h1 res) as (h' & -> & _). eauto.
Qed.

Lemma drain_loop_total cnt h results :
  length h = cnt → ∃ out, drain_loop less cnt h results = Ret out.
Proof.
  revert h results. induction cnt as [|cnt IH]; intros h results Hlen; cbn [drain_loop].
  - eauto.
  - destruct (heap_Pop_total h) as (x & h' & -> & Hlen'); [by destruct h|].
    cbn [mbind run_bind]. apply IH. lia.
Qed.

Lemma heap_drain_total zero h : ∃ out, heap_drain less zero h = Ret out.
Proof. by apply drain_loop_total. Qed.
End HeapTotal.

(** ** Search: when it returns and when it panics *)

Lemma merge_returns k arrival : (0 < k)%Z → ∃ out, merge k arrival = Ret out.
Proof.
  intros Hk. unfold merge. rewrite heap_Init_nil. cbn [mbind run_bind].
  destruct (foldl_run_total (merge_chunk k) (λ _, True) arrival [] I) as (h & -> & _).
  { intros h chunk _ _. unfold merge_chunk.
    apply (foldl_run_total _ (λ _, True)); [done|].
    intros h1 res _ _. destruct (topk_offer_total ResultHeap_less k h1 res Hk); eauto. }
  cbn [mbind run_bind]. apply heap_drain_total.
Qed.

Section SearchPositive.
Variables (vs : VectorStore) (q : Vector) (k : Z).
Variables (namespace filterKey filterVal : string).
Hypothesis k_pos : (0 < k)%Z.

(** With [k > 0] a scan stops early only at a record that passes the
    filters and is shorter than the query. *)
Lemma scan_positive cnt j h :
  j + cnt ≤ length (Records vs) →
  ((∃ h', scan vs q k namespace filterKey filterVal cnt j h = Ret h')
   ∧ ∀ i rec, j ≤ i < j + cnt → Records vs !! i = Some rec →
       passes namespace filterKey filterVal rec = true →
       length q ≤ length (RecVector rec))
  ∨ (scan vs q k namespace filterKey filterVal cnt j h = Panic
     ∧ ∃ i rec, j ≤ i < j + cnt ∧ Records vs !! i = Some rec
         ∧ passes namespace filterKey filterVal rec = true
         ∧ length (RecVector rec) < length q).
Proof.
  revert j h. induction cnt as [|cnt IH]; intros j h Hj; cbn [scan].
  - left. split; [eauto|]. intros; lia.
  - destruct (lookup_lt_is_Some_2 (Records vs) j ltac:(lia)) as [rec Hrec].
    rewrite (at_lookup _ _ _ Hrec). cbn [mbind run_bind].
    assert (∀ h1,
      ((∃ h', scan vs q k namespace filterKey filterVal cnt (S j) h1 = Ret h')
       ∧ ∀ i rec, S j ≤ i < S j + cnt → Records vs !! i = Some rec →
           passes namespace filterKey filterVal rec = true →
           length q ≤ length (RecVector rec))
      ∨ (scan vs q k namespace filterKey filterVal cnt (S j) h1 = Panic
         ∧ ∃ i rec, S j ≤ i < S j + cnt ∧ Records vs !! i = Some rec
             ∧ passes namespace filterKey filterVal rec = true
             ∧ length (RecVector rec) < length q)) as Hrest.
    { intros h1. apply IH. lia. }
    assert (passes namespace filterKey filterVal rec = true →
            length q ≤ length (RecVector rec) →
            ∀ h1,
      ((∃ h', scan vs q k namespace filterKey filterVal cnt (S j) h1 = Ret h')
       ∧ ∀ i rec, j ≤ i < j + S cnt → Records vs !! i = Some rec →
           passes namespace filterKey filterVal rec = true →
           length q ≤ length (RecVector rec))
      ∨ (scan vs q k namespace filterKey filterVal cnt (S j) h1 = Panic
         ∧ ∃ i rec, j ≤ i < j + S cnt ∧ Records vs !! i = Some rec
             ∧ passes namespace filterKey filterVal rec = true
             ∧ length (RecVector rec) < length q)) as Hgood.
    { intros Hp Hlen h1.
      destruct (Hrest h1) as [[Hscan Hall]|[Hscan (i & rec' & Hi & Hrec' & Hbad)]].
      - left. split; [done|]. intros i rec' Hi Hrec' Hp'.
        destruct (decide (i = j)) as [->|Hij]; [congruence|].
        apply (Hall i); [lia|done|done].
      - right. split; [done|]. exists i, rec'. split; [lia|done]. }
    destruct (passes namespace filterKey filterVal rec) eqn:Hp.
    + destruct (decide (length q ≤ length (RecVector rec))) as [Hlen|Hlen].
      * destruct (DotProduct_gen_Ret Float32.add Float32.mul Float32.zero q
                    (RecVector rec) Hlen) as [score Hscore].
        fold (DotProduct q (RecVector rec)) in Hscore. rewrite Hscore.
        cbn [mbind run_bind].
        destruct (topk_offer_total ResultHeap_less k h
                    {| ID := RecID rec; Score := score |} k_pos) as [h1 ->].
        cbn [mbind run_bind]. by apply Hgood.
      * right. split; [|exists j, rec; repeat split; [lia..|done|done|lia]].
        assert (DotProduct q (RecVector rec) = Panic) as ->; [|done].
        apply DotProduct_gen_short. lia.
    + destruct (Hrest h) as [[Hscan Hall]|[Hscan (i & rec' & Hi & Hrec' & Hbad)]].
      * left. split; [done|]. intros i rec' Hi Hrec' Hp'.
        destruct (decide (i = j)) as [->|Hij]; [congruence|].
        apply (Hall i); [lia|done|done].
      * right. split; [done|]. exists i, rec'. split; [lia|done].
Qed.

Lemma worker_positive se :
  se.1 ≤ se.2 ≤ length (Records vs) →
  ((∃ out, worker vs q k namespace filterKey filterVal se = Ret out)
   ∧ ∀ i rec, se.1 ≤ i < se.2 → Records vs !! i = Some rec →
       passes namespace filterKey filterVal rec = true →
       length q ≤ length (RecVector rec))
  ∨ (worker vs q k namespace filterKey filterVal se = Panic
     ∧ ∃ i rec, se.1 ≤ i < se.2 ∧ Records vs !! i = Some rec
         ∧ passes namespace filterKey filterVal rec = true
         ∧ length (RecVector rec) < length q).
Proof.
  intros Hse. unfold worker. rewrite heap_Init_nil. cbn [mbind run_bind].
  destruct (scan_positive (se.2 - se.1) se.1 [])
    as [[[h ->] Hall]|[-> Hsome]]; [lia|..].
  - left. split; [apply heap_drain_total|]. intros i rec Hi. apply Hall. lia.
  - right. split; [done|]. destruct Hsome as (i & rec & Hi & Hrec).
    exists i, rec. split; [lia|done].
Qed.
End SearchPositive.

Lemma Search_outcome_hits vs numCPU query k namespace filterKey filterVal results :
  Search_outcome vs numCPU query k namespace filterKey filterVal (Ret results) →
  Forall (hit vs (Normalize query) namespace filterKey filterVal) results.
Proof.
  unfold Search_outcome. intros Hout.
  destruct (Search_chunks _ _ _ _ _ _ _) as [chunks| |] eqn:Hchunks;
    [|discriminate|discriminate].
  destruct Hout as (arrival & Hperm & Hmerge).
  apply Search_chunks_hits in Hchunks. rewrite <- Hperm in Hchunks.
  symmetry in Hmerge. by apply (merge_hits _ _ _ _ _ _ _ _ Hchunks) in Hmerge.
Qed.

(** What [Search] does for [k > 0]: it panics when a stored record that
    passes the filters is shorter than the query, and returns otherwise. *)
Lemma Search_positive_k vs numCPU query k namespace filterKey filterVal out :
  (0 < k)%Z →
  Search_outcome vs numCPU query k namespace filterKey filterVal out →
  (out = Panic ∧ ∃ rec, rec ∈ Records vs
                   ∧ passes namespace filterKey filterVal rec = true
                   ∧ length (RecVector rec) < length query)
  ∨ ((∃ results, out = Ret results)
     ∧ ∀ rec, rec ∈ Records vs →
         passes namespace filterKey filterVal rec = true →
         length query ≤ length (RecVector rec)).
Proof.
  intros Hk. unfold Search_outcome, Search_chunks.
  set (ranges := spawn _ _ _ _).
  set (w := worker vs (Normalize query) k namespace filterKey filterVal).
  assert (∀ se, se ∈ ranges → se.1 ≤ se.2 ≤ length (Records vs)) as Hbounds.
  { intros se. apply spawn_bounds. }
  pose proof (Normalize_length query) as Hnorm.
  destruct (decide (Exists (λ rec, passes namespace filterKey filterVal rec = true
                                   ∧ length (RecVector rec) < length query)
                      (Records vs))) as [Hex|Hnone].
  - apply Exists_exists in Hex as (rec & Hrec & Hp & Hshort).
    assert (collect (w <$> ranges) = Panic) as ->.
    { apply collect_Panic.
      - apply Forall_forall. intros o (se & -> & Hse)%list_elem_of_fmap. unfold w.
        destruct (worker_positive vs (Normalize query) k namespace filterKey filterVal
                    Hk se (Hbounds se Hse)) as [[[o ->] _]|[-> _]]; eauto.
      - apply list_elem_of_lookup in Hrec as [i Hi].
        destruct (Search_ranges_cover (length (Records vs)) numCPU i) as (se & Hse & Hin);
          [by eapply lookup_lt_Some|].
        destruct (worker_positive vs (Normalize query) k namespace filterKey filterVal
                    Hk se (Hbounds se Hse)) as [[_ Hall]|[Hw _]].
        + specialize (Hall i rec Hin Hi Hp). lia.
        + unfold w. rewrite <- Hw. by apply list_elem_of_fmap_2. }
    intros ->. left. eauto.
  - assert (∀ rec, rec ∈ Records vs →
              passes namespace filterKey filterVal rec = true →
              length query ≤ length (RecVector rec)) as Hall.
    { intros rec Hrec Hp.
      destruct (decide (length query ≤ length (RecVector rec))) as [|Hshort]; [done|].
      destruct Hnone. apply Exists_exists. exists rec. split; [done|]. split; [done|lia]. }
    destruct (collect_total (λ _, True) (w <$> ranges)) as (chunks & -> & _).
    { apply Forall_forall. intros o (se & -> & Hse)%list_elem_of_fmap. unfold w.
      destruct (worker_positive vs (Normalize query) k namespace filterKey filterVal
                  Hk se (Hbounds se Hse))
        as [[[o ->] _]|[_ (i & rec & _ & Hi & Hp & Hshort)]]; [eauto|].
      specialize (Hall rec (list_elem_of_lookup_2 _ _ _ Hi) Hp). lia. }
    intros (arrival & _ & ->). right. split; [|done]. by apply merge_returns.
Qed.

(** X5.  Whatever the order in which the shard results arrive, [Search]
    either returns or panics, and it panics exactly when some stored record
    passes the filters and either [k ≤ 0] or that record's vector is shorter
    than the query. *)
Theorem Search_Panic_iff vs numCPU query k namespace filterKey filterVal out :
  Search_outcome vs numCPU query k namespace filterKey filterVal out →
  (out = Panic ↔
     ∃ rec, rec ∈ Records vs
       ∧ passes namespace filterKey filterVal rec = true
       ∧ ((k ≤ 0)%Z ∨ length (RecVector rec) < length query))
  ∧ (out = Panic ∨ ∃ results, out = Ret results).
Proof.
  intros Hout. destruct (decide (k ≤ 0)%Z) as [Hk|Hk].
  - destruct (Search_nonpositive_k _ _ _ _ _ _ _ _ Hk Hout)
      as [[-> (rec & Hrec & Hp)]|[-> Hnone]].
    + split; [|by left]. split; [|done]. intros _. exists rec. eauto.
    + split; [|right; eauto]. split; [done|].
      intros (rec & Hrec & Hp & _). by rewrite (Hnone rec Hrec) in Hp.
  - assert (0 < k)%Z as Hk' by lia.
    destruct (Search_positive_k _ _ _ _ _ _ _ _ Hk' Hout)
      as [[-> (rec & Hrec & Hp & Hshort)]|[[results ->] Hall]].
    + split; [|by left]. split; [|done]. intros _. exists rec. eauto.
    + split; [|right; eauto]. split; [done|].
      intros (rec & Hrec & Hp & [?|Hshort]); [lia|].
      specialize (Hall rec Hrec Hp). lia.
Qed.

Lemma Search_Panic_iff_witness :
  (Search store_ABC 2 query_x 2 "ns1" "" "" = Panic ↔
     ∃ rec, rec ∈ Records store_ABC
       ∧ passes "ns1" "" "" rec = true
       ∧ ((2 ≤ 0)%Z ∨ length (RecVector rec) < length query_x))
  ∧ (Search store_ABC 2 query_x 2 "ns1" "" "" = Panic
     ∨ ∃ results, Search store_ABC 2 query_x 2 "ns1" "" "" = Ret results).
Proof. apply (Search_Panic_iff store_ABC 2 query_x 2 "ns1" "" ""), Search_is_outcome. Defined.

(** X6.  When no stored record passes the filters (in particular on an empty
    store), [Search] returns the empty list: for every [k], zero and
    negative ones included, and for a query of any length. *)
Theorem Search_no_match vs numCPU query k namespace filterKey filterVal out :
  (∀ rec, rec ∈ Records vs → passes namespace filterKey filterVal rec = false) →
  Search_outcome vs numCPU query k namespace filterKey filterVal out →
  out = Ret [].
Proof.
  intros Hnone Hout. destruct (decide (k ≤ 0)%Z) as [Hk|Hk].
  - destruct (Search_nonpositive_k _ _ _ _ _ _ _ _ Hk Hout)
      as [[_ (rec & Hrec & Hp)]|[-> _]]; [|done].
    by rewrite (Hnone rec Hrec) in Hp.
  - assert (0 < k)%Z as Hk' by lia.
    destruct (Search_positive_k _ _ _ _ _ _ _ _ Hk' Hout)
      as [[_ (rec & Hrec & Hp & _)]|[[results ->] _]].
    { by rewrite (Hnone rec Hrec) in Hp. }
    apply Search_outcome_hits in Hout. destruct Hout as [|r results Hr _]; [done|].
    destruct Hr as (rec & Hrec & Hp & _). by rewrite (Hnone rec Hrec) in Hp.
Qed.

Lemma Search_no_match_witness :
  Search store_ABC 2 query_x (-3) "ns2" "" "" = Ret [].
Proof.
  apply (Search_no_match store_ABC 2 query_x (-3) "ns2" "" "");
    [|apply Search_is_outcome].
  intros rec Hrec. apply list_elem_of_In in Hrec. cbn in Hrec.
  destruct Hrec as [<-|[<-|[<-|[]]]]; reflexivity.
Defined.

(** ** Search: the shards *)

Lemma slice_app {A} (l : list A) (s m e : nat) :
  s ≤ m ≤ e → slice l s m ++ slice l m e = slice l s e.
Proof.
  intros Hsme. unfold slice.
  replace (drop m l) with (drop (m - s) (drop s l)) by (rewrite drop_drop; f_equal; lia).
  rewrite take_take_drop. f_equal. lia.
Qed.

Lemma slice_empty {A} (l : list A) (s e : nat) : e ≤ s → slice l s e = [].
Proof. intros Hes. unfold slice. by replace (e - s) with 0 by lia. Qed.

Lemma slice_all {A} (l : list A) : slice l 0 (length l) = l.
Proof. unfold slice. rewrite drop_0, Nat.sub_0_r. apply firstn_all. Qed.

Lemma slice_cons {A} (l : list A) (s e : nat) (x : A) :
  l !! s = Some x → s < e → slice l s e = x :: slice l (S s) e.
Proof.
  intros Hx Hse. unfold slice. rewrite (drop_S _ _ _ Hx).
  by replace (e - s) with (S (e - S s)) by lia.
Qed.

Lemma spawn_slices {A} (l : list A) chunkSize cnt i :
  0 < chunkSize →
  mjoin ((λ se, slice l se.1 se.2) <$> spawn chunkSize (length l) cnt i)
  = slice l (i * chunkSize) (length l `min` ((i + cnt) * chunkSize)).
Proof.
  intros Hcs. revert i. induction cnt as [|cnt IH]; intros i; cbn [spawn].
  - cbn. rewrite slice_empty; [done|lia].
  - destruct (decide (length l ≤ i * chunkSize)) as [Hout|Hin].
    { cbn. rewrite slice_empty; [done|lia]. }
    cbn [fmap list_fmap mjoin list_join fst snd]. rewrite IH.
    replace (S i * chunkSize) with (i * chunkSize + chunkSize) by lia.
    destruct (decide (length l < i * chunkSize + chunkSize)) as [Hlast|Hmore].
    + rewrite (slice_empty l (i * chunkSize + chunkSize)) by lia. rewrite app_nil_r.
      f_equal. lia.
    + rewrite slice_app by lia. f_equal. lia.
Qed.

Lemma spawn_length chunkSize len cnt i : length (spawn chunkSize len cnt i) ≤ cnt.
Proof.
  revert i. induction cnt as [|cnt IH]; intros i; cbn [spawn]; [done|].
  destruct (decide (len ≤ i * chunkSize)); [simpl; lia|].
  cbn [length]. specialize (IH (S i)). lia.
Qed.

Lemma spawn_nonempty chunkSize len cnt i se :
  0 < chunkSize → se ∈ spawn chunkSize len cnt i → se.1 < se.2 ≤ len.
Proof.
  intros Hcs. revert i. induction cnt as [|cnt IH]; intros i; cbn [spawn].
  - by intros ?%elem_of_nil.
  - destruct (decide (len ≤ i * chunkSize)); [by intros ?%elem_of_nil|].
    intros [->|Hse]%elem_of_cons; [|by eapply IH]. cbn [fst snd].
    destruct (decide (len < i * chunkSize + chunkSize)); lia.
Qed.

Lemma chunkSize_covers len (numCPU : positive) :
  0 < len →
  0 < (len + Pos.to_nat numCPU - 1) / Pos.to_nat numCPU
  ∧ len ≤ Pos.to_nat numCPU * ((len + Pos.to_nat numCPU - 1) / Pos.to_nat numCPU).
Proof.
  intros Hlen. pose proof (Pos2Nat.is_pos numCPU) as Hpos.
  pose proof (Nat.div_mod_eq (len + Pos.to_nat numCPU - 1) (Pos.to_nat numCPU)) as Hdiv.
  pose proof (Nat.mod_upper_bound (len + Pos.to_nat numCPU - 1) (Pos.to_nat numCPU)) as Hmod.
  split; nia.
Qed.

(** X7.  The ranges handed to the workers cut the records into at most
    [NumCPU] consecutive, non-empty slices: concatenated in spawn order they
    give back the records, so every record is scanned by exactly one
    worker. *)
Theorem Search_shards_partition {A} (records : list A) (numCPU : positive) :
  let numWorkers := Pos.to_nat numCPU in
  let chunkSize := (length records + numWorkers - 1) / numWorkers in
  let ranges := spawn chunkSize (length records) numWorkers 0 in
  mjoin ((λ se, slice records se.1 se.2) <$> ranges) = records
  ∧ length ranges ≤ numWorkers
  ∧ Forall (λ se, se.1 < se.2 ≤ length records) ranges.
Proof.
  cbv zeta. split; [|split; [apply spawn_length|]].
  - destruct records as [|r records].
    { cbn [length]. by destruct (Pos.to_nat numCPU). }
    destruct (chunkSize_covers (length (r :: records)) numCPU) as [Hcs Hcover];
      [simpl; lia|].
    rewrite spawn_slices by done.
    rewrite Nat.min_l by lia. apply slice_all.
  - destruct records as [|r records].
    { cbn [length]. by destruct (Pos.to_nat numCPU). }
    destruct (chunkSize_covers (length (r :: records)) numCPU) as [Hcs Hcover];
      [simpl; lia|].
    apply Forall_forall. intros se Hse. by eapply spawn_nonempty.
Qed.

(** ** The bounded heap keeps the [k] best elements *)

Section HeapBest.
Context {A : Type} (less : A → A → bool) (good : A → Prop).
Implicit Types (h xs : list A) (x y z : A).

Hypothesis less_asym : ∀ x y, less x y = true → less y x = false.
Hypothesis heap_le_trans : ∀ x y z, good x → good y → good z →
  heap_le less x y → heap_le less y z → heap_le less x z.

Lemma is_heap_nil : is_heap less [].
Proof. intros c x y Hc. simpl in Hc. lia. Qed.

Lemma keeps_best_nil k : (0 ≤ k)%Z → keeps_best less k [] [].
Proof.
  intros Hk. exists []. split; [done|]. split; [simpl; lia|].
  by intros d x ?%elem_of_nil.
Qed.

Lemma keeps_best_perm k xs xs' h h' :
  xs ≡ₚ xs' → h ≡ₚ h' → keeps_best less k xs h → keeps_best less k xs' h'.
Proof.
  intros Hxs Hh (dropped & Hperm & Hlen & Hle). exists dropped.
  split; [by rewrite <- Hxs, <- Hh|]. split; [by rewrite <- Hxs, <- Hh|].
  intros d x Hd Hx. rewrite <- Hh in Hx. by apply Hle.
Qed.

Lemma keeps_best_length k xs h :
  keeps_best less k xs h → Z.of_nat (length h) = Z.min k (Z.of_nat (length xs)).
Proof. by intros (dropped & _ & Hlen & _). Qed.

Lemma keeps_best_good k xs h : keeps_best less k xs h → Forall good xs → Forall good h.
Proof.
  intros (dropped & Hperm & _) Hgood. rewrite Hperm in Hgood.
  by apply Forall_app in Hgood as [? _].
Qed.

(** One bounded insertion. *)
Lemma topk_offer_best k h xs res :
  (0 < k)%Z → is_heap less h → Forall good xs → good res →
  keeps_best less k xs h →
  ∃ h', topk_offer less k h res = Ret h' ∧ is_heap less h'
    ∧ keeps_best less k (res :: xs) h'.
Proof.
  intros Hk Hheap Hgood Hres Hbest.
  pose proof (keeps_best_good _ _ _ Hbest Hgood) as Hgh.
  destruct Hbest as (dropped & Hperm & Hlen & Hle).
  assert (Forall good dropped) as Hgd.
  { rewrite Hperm in Hgood. by apply Forall_app in Hgood as [_ ?]. }
  pose proof (Permutation_length Hperm) as Hlenp. rewrite length_app in Hlenp.
  unfold topk_offer, Len.
  destruct (decide (Z.of_nat (length h) < k)%Z) as [Hroom|Hfull].
  - destruct (heap_Push_heap less good less_asym heap_le_trans h res Hheap Hgh Hres)
      as (h' & -> & Hheap' & Hperm').
    exists h'. split; [done|]. split; [done|].
    assert (dropped = []) as -> by (apply nil_length_inv; lia).
    exists []. rewrite app_nil_r in *. split; [by rewrite Hperm', Hperm|].
    split; [|by intros d x ?%elem_of_nil].
    rewrite (Permutation_length Hperm'). cbn [length]. lia.
  - destruct (lookup_lt_is_Some_2 h 0 ltac:(lia)) as [top Htop].
    rewrite (at_lookup _ _ _ Htop). cbn [mbind run_bind].
    assert (∀ y, y ∈ h → less y top = false) as Hmin.
    { intros y [c Hc]%list_elem_of_lookup.
      apply (heap_root_min less good less_asym heap_le_trans (length h) h top
               Hheap Hgh (le_n _) Htop c y); [by eapply lookup_lt_Some|done]. }
    assert (good top) as Hgtop by exact (Forall_lookup_1 _ _ _ _ Hgh Htop).
    destruct (less top res) eqn:Hcmp.
    + destruct (heap_Pop_heap less good less_asym heap_le_trans h Hheap Hgh)
        as (x & h1 & -> & Hx & Hheap1 & Hperm1 & _); [by destruct h|].
      assert (x = top) as -> by congruence. cbn [mbind run_bind].
      assert (Forall good h1) as Hgh1.
      { rewrite <- Hperm1 in Hgh. by apply Forall_cons in Hgh as [_ ?]. }
      destruct (heap_Push_heap less good less_asym heap_le_trans h1 res Hheap1 Hgh1 Hres)
        as (h' & -> & Hheap' & Hperm').
      exists h'. split; [done|]. split; [done|].
      exists (top :: dropped). split; [|split].
      * rewrite Hperm', Hperm, <- Hperm1. cbn.
        rewrite <- Permutation_middle. done.
      * rewrite (Permutation_length Hperm'). cbn [length].
        rewrite <- (Permutation_length Hperm1) in Hlen, Hlenp, Hfull.
        cbn [length] in Hlen, Hlenp, Hfull. lia.
      * intros d y Hd Hy. rewrite Hperm' in Hy.
        assert (y ∈ h1 → y ∈ h) as Hsub.
        { intros Hin. rewrite <- Hperm1. by right. }
        apply elem_of_cons in Hd as [->|Hd]; apply elem_of_cons in Hy as [->|Hy].
        -- by apply less_asym.
        -- by apply Hmin, Hsub.
        -- apply (heap_le_trans d top res); [by eapply Forall_forall in Hgd|done|done|..].
           ++ apply Hle; [done|by eapply list_elem_of_lookup_2].
           ++ by apply less_asym.
        -- by apply Hle, Hsub.
    + exists h. split; [done|]. split; [done|].
      exists (res :: dropped). split; [|split].
      * rewrite Hperm. apply Permutation_middle.
      * cbn [length]. lia.
      * intros d y Hd Hy. apply elem_of_cons in Hd as [->|Hd]; [|by apply Hle].
        apply (heap_le_trans res top y); [done|done|by eapply Forall_forall in Hgh|..].
        -- exact Hcmp.
        -- by apply Hmin.
Qed.

(** The [k] best of the [k] best of each part are the [k] best of the whole. *)
Lemma keeps_best_parts k (xss outs : list (list A)) :
  (0 ≤ k)%Z → Forall2 (keeps_best less k) xss outs →
  ∃ D, mjoin xss ≡ₚ mjoin outs ++ D
    ∧ Z.min k (Z.of_nat (length (mjoin outs))) = Z.min k (Z.of_nat (length (mjoin xss)))
    ∧ ∀ d, d ∈ D → ∃ out, out ∈ outs ∧ Z.of_nat (length out) = k
                     ∧ ∀ x, x ∈ out → less x d = false.
Proof.
  intros Hk. induction 1 as [|xs out xss outs (dropped & Hperm & Hlen & Hle) _ IH].
  - exists []. split; [done|]. split; [done|]. by intros d ?%elem_of_nil.
  - destruct IH as (D & HpermD & HlenD & HD).
    exists (dropped ++ D).
    change (mjoin (xs :: xss)) with (xs ++ mjoin xss).
    change (mjoin (out :: outs)) with (out ++ mjoin outs). split; [|split].
    + rewrite Hperm, HpermD. rewrite <- !(assoc_L (++)). f_equiv.
      rewrite !(assoc_L (++)). f_equiv. apply Permutation_app_comm.
    + pose proof (Permutation_length Hperm) as Hlenp.
      rewrite !length_app in *. lia.
    + intros d [Hd|Hd]%elem_of_app.
      * exists out. split; [by left|]. split; [|by intros x; apply Hle].
        pose proof (Permutation_length Hperm) as Hlenp. rewrite length_app in Hlenp.
        apply list_elem_of_split in Hd as (l1 & l2 & ->).
        rewrite length_app in Hlenp. cbn [length] in Hlenp. lia.
      * destruct (HD d Hd) as (out' & Hout' & Hfull).
        exists out'. split; [by right|done].
Qed.

Lemma filter_length_join (P : A → Prop) `{∀ x, Decision (P x)} (out : list A)
    (outs : list (list A)) :
  out ∈ outs → length (filter P out) ≤ length (filter P (mjoin outs)).
Proof.
  intros (l1 & l2 & ->)%list_elem_of_split.
  rewrite join_app. change (mjoin (out :: l2)) with (out ++ mjoin l2).
  rewrite !filter_app, !length_app. lia.
Qed.

Lemma filter_all (P : A → Prop) `{∀ x, Decision (P x)} (l : list A) :
  Forall P l → filter P l = l.
Proof.
  induction 1 as [|y l Hy _ IH]; [done|].
  rewrite filter_cons, decide_True by done. by rewrite IH.
Qed.

Lemma filter_none (P : A → Prop) `{∀ x, Decision (P x)} (l : list A) :
  Forall (λ y, ¬ P y) l → filter P l = [].
Proof.
  induction 1 as [|y l Hy _ IH]; [done|].
  by rewrite filter_cons, decide_False by done.
Qed.

Lemma keeps_best_join k (xss outs : list (list A)) (final : list A) :
  (0 ≤ k)%Z → Forall2 (keeps_best less k) xss outs →
  Forall good (mjoin xss) →
  keeps_best less k (mjoin outs) final →
  keeps_best less k (mjoin xss) final.
Proof.
  intros Hk Hparts Hgood (Df & Hpermf & Hlenf & Hlef).
  destruct (keeps_best_parts k xss outs Hk Hparts) as (D & HpermD & HlenD & HD).
  assert (Forall good (mjoin outs) ∧ Forall good D) as [Hgo HgD].
  { rewrite HpermD in Hgood. by apply Forall_app in Hgood. }
  assert (Forall good final) as Hgf.
  { rewrite Hpermf in Hgo. by apply Forall_app in Hgo as [? _]. }
  exists (Df ++ D). split; [|split].
  - by rewrite HpermD, Hpermf, (assoc_L (++)).
  - lia.
  - intros d x [Hd|Hd]%elem_of_app Hx; [by apply Hlef|].
    destruct (less x d) eqn:Hxd; [exfalso|done].
    destruct (HD d Hd) as (out & Hout & Hfull & Hlow).
    set (P := λ y, less x y = true).
    assert (good x) as Hgx by (eapply Forall_forall in Hgf; [exact Hgf|done]).
    assert (good d) as Hgd by (eapply Forall_forall in HgD; [exact HgD|done]).
    (* every element of the full part [out] is above [x] *)
    assert (Forall P out) as HPout.
    { apply Forall_forall. intros y Hy. unfold P.
      destruct (less x y) eqn:Hxy; [done|exfalso].
      assert (good y) as Hgy.
      { eapply Forall_forall in Hgo; [exact Hgo|].
        apply list_elem_of_join. by exists out. }
      pose proof (heap_le_trans d y x Hgd Hgy Hgx) as Htr. unfold heap_le in Htr.
      rewrite Htr in Hxd; [done|by apply Hlow|done]. }
    (* none of the elements the merge left out is *)
    assert (Forall (λ y, ¬ P y) Df) as HPDf.
    { apply Forall_forall. intros y Hy. unfold P. by rewrite (Hlef y x Hy Hx). }
    assert (¬ P x) as HPx.
    { unfold P. intros Hxx. pose proof (less_asym _ _ Hxx). congruence. }
    pose proof (filter_length_join P out outs Hout) as Hcount.
    rewrite (filter_all P out HPout) in Hcount.
    rewrite Hpermf, filter_app, (filter_none P Df HPDf), app_nil_r in Hcount.
    pose proof (length_filter_lt P final x Hx HPx) as Hlt.
    lia.
Qed.
End HeapBest.

(** ** Search returns the [k] best candidates *)

Section FoldPrefix.
Context {S X : Type} (f : S → X → run S).

(** A loop invariant that mentions the elements consumed so far. *)
Lemma foldl_run_prefix (P : list X → S → Prop) (xs pre : list X) (s : S) :
  P pre s →
  (∀ pre x s, P pre s → x ∈ xs → ∃ s', f s x = Ret s' ∧ P (pre ++ [x]) s') →
  ∃ s', foldl (λ acc x, s ← acc; f s x) (Ret s) xs = Ret s' ∧ P (pre ++ xs) s'.
Proof.
  revert pre s. induction xs as [|x xs IH]; intros pre s Hs Hstep; simpl.
  - rewrite app_nil_r. eauto.
  - destruct (Hstep pre x s Hs) as (s1 & Hs1 & HP1); [by left|]. rewrite Hs1.
    rewrite (cons_middle x pre xs), (assoc_L (++)).
    apply IH; [done|]. intros. apply Hstep; [done|by right].
Qed.
End FoldPrefix.

Lemma collect_Forall2 {A B} (w : A → run B) (R : A → B → Prop) (l : list A) :
  (∀ x, x ∈ l → ∃ y, w x = Ret y ∧ R x y) →
  ∃ ys, collect (w <$> l) = Ret ys ∧ Forall2 R l ys.
Proof.
  induction l as [|x l IH]; intros Hl; cbn [fmap list_fmap collect].
  - exists []. by split.
  - destruct (Hl x) as (y & -> & Hy); [by left|].
    destruct IH as (ys & -> & Hys); [intros; apply Hl; by right|].
    cbn [mbind run_bind]. exists (y :: ys). split; [done|by constructor].
Qed.

Lemma candidates_cons q namespace filterKey filterVal rec records :
  candidates q namespace filterKey filterVal (rec :: records)
  = (if passes namespace filterKey filterVal rec then
       match DotProduct q (RecVector rec) with
       | Ret score => [{| ID := RecID rec; Score := score |}]
       | _ => []
       end
     else [])
    ++ candidates q namespace filterKey filterVal records.
Proof. reflexivity. Qed.

Lemma candidates_app q namespace filterKey filterVal l1 l2 :
  candidates q namespace filterKey filterVal (l1 ++ l2)
  = candidates q namespace filterKey filterVal l1
    ++ candidates q namespace filterKey filterVal l2.
Proof. apply bind_app. Qed.

Lemma candidates_join q namespace filterKey filterVal (ls : list (list Rec)) :
  mjoin (candidates q namespace filterKey filterVal <$> ls)
  = candidates q namespace filterKey filterVal (mjoin ls).
Proof.
  induction ls as [|l ls IH]; [done|].
  change (mjoin (l :: ls)) with (l ++ mjoin ls). rewrite candidates_app, <- IH. done.
Qed.

(** The candidates are pairs of a stored record that passes the filters. *)
Lemma candidates_hits vs q namespace filterKey filterVal :
  Forall (hit vs q namespace filterKey filterVal)
         (candidates q namespace filterKey filterVal (Records vs)).
Proof.
  apply Forall_forall. intros r Hr. unfold candidates in Hr.
  apply list_elem_of_bind in Hr as (rec & Hr & Hrec).
  destruct (passes namespace filterKey filterVal rec) eqn:Hp; [|by apply elem_of_nil in Hr].
  destruct (DotProduct q (RecVector rec)) as [score| |] eqn:Hs;
    [|by apply elem_of_nil in Hr..].
  apply list_elem_of_singleton in Hr as ->. by exists rec.
Qed.

Lemma Search_ranges_slices {A} (records : list A) (numCPU : positive) :
  mjoin ((λ se, slice records se.1 se.2)
           <$> spawn ((length records + Pos.to_nat numCPU - 1) / Pos.to_nat numCPU)
                 (length records) (Pos.to_nat numCPU) 0)
  = records.
Proof.
  destruct records as [|r records].
  { cbn [length]. by destruct (Pos.to_nat numCPU). }
  destruct (chunkSize_covers (length (r :: records)) numCPU) as [Hcs Hcover];
    [simpl; lia|].
  rewrite spawn_slices by done.
  rewrite Nat.min_l by lia. apply slice_all.
Qed.

Section SearchBest.
Variables (vs : VectorStore) (q : Vector) (k : Z).
Variables (namespace filterKey filterVal : string).
Hypothesis k_pos : (0 < k)%Z.
Hypothesis records_scorable : ∀ rec, rec ∈ Records vs →
  passes namespace filterKey filterVal rec = true → scorable q rec = true.

Local Abbreviation cand := (candidates q namespace filterKey filterVal).
Local Abbreviation best := (keeps_best ResultHeap_less k).

Lemma candidates_numeric records :
  records ⊆ Records vs → Forall numeric (cand records).
Proof.
  intros Hsub. apply Forall_forall. intros r Hr. unfold candidates in Hr.
  apply list_elem_of_bind in Hr as (rec & Hr & Hrec).
  destruct (passes namespace filterKey filterVal rec) eqn:Hp; [|by apply elem_of_nil in Hr].
  pose proof (records_scorable rec (Hsub _ Hrec) Hp) as Hok.
  unfold scorable in Hok. apply andb_true_iff in Hok as [_ Hnan].
  destruct (DotProduct q (RecVector rec)) as [score| |]; [|by apply elem_of_nil in Hr..].
  apply list_elem_of_singleton in Hr as ->. unfold numeric. cbn [Score].
  by apply negb_true_iff.
Qed.

Lemma slice_subseteq {A} (l : list A) s e : slice l s e ⊆ l.
Proof.
  unfold slice. etrans; [apply subseteq_take|apply subseteq_drop].
Qed.

Lemma scan_best cnt j h xs :
  is_heap ResultHeap_less h → Forall numeric xs → best xs h →
  j + cnt ≤ length (Records vs) →
  ∃ h', scan vs q k namespace filterKey filterVal cnt j h = Ret h'
    ∧ is_heap ResultHeap_less h'
    ∧ best (xs ++ cand (slice (Records vs) j (j + cnt))) h'.
Proof.
  revert j h xs. induction cnt as [|cnt IH]; intros j h xs Hheap Hnum Hbest Hj;
    cbn [scan].
  - exists h. rewrite slice_empty by lia. cbn. by rewrite app_nil_r.
  - destruct (lookup_lt_is_Some_2 (Records vs) j ltac:(lia)) as [rec Hrec].
    rewrite (at_lookup _ _ _ Hrec). cbn [mbind run_bind].
    rewrite (slice_cons _ _ _ _ Hrec) by lia. rewrite candidates_cons.
    replace (j + S cnt) with (S j + cnt) by lia.
    destruct (passes namespace filterKey filterVal rec) eqn:Hp.
    + pose proof (records_scorable rec (list_elem_of_lookup_2 _ _ _ Hrec) Hp) as Hok.
      unfold scorable in Hok. apply andb_true_iff in Hok as [Hlen%bool_decide_eq_true Hnan].
      destruct (DotProduct_gen_Ret Float32.add Float32.mul Float32.zero q (RecVector rec) Hlen)
        as [score Hscore].
      fold (DotProduct q (RecVector rec)) in Hscore. rewrite Hscore in Hnan |- *.
      cbn [mbind run_bind].
      assert (numeric {| ID := RecID rec; Score := score |}) as Hres.
      { unfold numeric. cbn [Score]. by apply negb_true_iff. }
      destruct (topk_offer_best ResultHeap_less numeric ResultHeap_less_asym
                  ResultHeap_le_trans k h xs _ k_pos Hheap Hnum Hres Hbest)
        as (h1 & -> & Hheap1 & Hbest1).
      cbn [mbind run_bind].
      destruct (IH (S j) h1 (xs ++ [{| ID := RecID rec; Score := score |}]))
        as (h' & Hscan & Hheap' & Hbest'); [done| | |lia|].
      * apply Forall_app. split; [done|]. by apply Forall_singleton.
      * eapply keeps_best_perm; [|done|exact Hbest1].
        by rewrite (Permutation_app_comm xs).
      * exists h'. split; [done|]. split; [done|].
        by rewrite <- (assoc_L (++)) in Hbest'.
    + rewrite app_nil_l. apply IH; [done..|lia].
Qed.

Lemma worker_best se :
  se.1 ≤ se.2 ≤ length (Records vs) →
  ∃ out, worker vs q k namespace filterKey filterVal se = Ret out
    ∧ best (cand (slice (Records vs) se.1 se.2)) out.
Proof.
  intros Hse. unfold worker. rewrite heap_Init_nil. cbn [mbind run_bind].
  destruct (scan_best (se.2 - se.1) se.1 [] [])
    as (h & -> & Hheap & Hbest); [apply is_heap_nil|done| |lia|].
  { apply keeps_best_nil. lia. }
  cbn [mbind run_bind]. rewrite app_nil_l in Hbest.
  replace (se.1 + (se.2 - se.1)) with se.2 in Hbest by lia.
  assert (Forall numeric h) as Hnum.
  { eapply keeps_best_good; [exact Hbest|].
    apply candidates_numeric, slice_subseteq. }
  destruct (heap_drain_sorted ResultHeap_less numeric ResultHeap_less_asym
              ResultHeap_le_trans zero_SearchResult h Hheap Hnum)
    as (out & -> & Hperm & _).
  exists out. split; [done|]. eapply keeps_best_perm; [done| |exact Hbest]. done.
Qed.

Lemma merge_best arrival :
  Forall (Forall numeric) arrival →
  ∃ out, merge k arrival = Ret out ∧ descending out ∧ best (mjoin arrival) out.
Proof.
  intros Harr. unfold merge. rewrite heap_Init_nil. cbn [mbind run_bind].
  destruct (foldl_run_prefix (merge_chunk k)
              (λ pre h, Forall numeric (mjoin pre) ∧ is_heap ResultHeap_less h
                        ∧ best (mjoin pre) h) arrival [] [])
    as (h & -> & Hnum & Hheap & Hbest).
  { split; [done|]. split; [apply is_heap_nil|]. apply keeps_best_nil. lia. }
  { intros pre chunk h (Hnum & Hheap & Hbest) Hchunk. unfold merge_chunk.
    assert (Forall numeric chunk) as Hnc.
    { rewrite Forall_forall in Harr. by apply Harr. }
    destruct (foldl_run_prefix (topk_offer ResultHeap_less k)
                (λ pre' h, Forall numeric (mjoin pre ++ pre')
                           ∧ is_heap ResultHeap_less h
                           ∧ best (mjoin pre ++ pre') h) chunk [] h)
      as (h' & -> & Hnum' & Hheap' & Hbest').
    { by rewrite app_nil_r. }
    { intros pre' res h1 (Hnum1 & Hheap1 & Hbest1) Hres.
      assert (numeric res) as Hnres by (eapply Forall_forall in Hnc; [exact Hnc|done]).
      destruct (topk_offer_best ResultHeap_less numeric ResultHeap_less_asym
                  ResultHeap_le_trans k h1 _ res k_pos Hheap1 Hnum1 Hnres Hbest1)
        as (h2 & -> & Hheap2 & Hbest2).
      exists h2. split; [done|]. rewrite (assoc_L (++)).
      split; [|split; [done|]].
      - apply Forall_app. split; [done|]. by apply Forall_singleton.
      - eapply keeps_best_perm; [|done|exact Hbest2].
        by rewrite (Permutation_app_comm _ [res]). }
    exists h'. split; [done|]. rewrite app_nil_l in *.
    rewrite join_app. change (mjoin [chunk]) with (chunk ++ []).
    by rewrite app_nil_r. }
  cbn [mbind run_bind]. rewrite app_nil_l in *.
  assert (Forall numeric h) as Hnh by (by eapply keeps_best_good).
  destruct (heap_drain_sorted ResultHeap_less numeric ResultHeap_less_asym
              ResultHeap_le_trans zero_SearchResult h Hheap Hnh)
    as (out & -> & Hperm & Hsorted).
  exists out. split; [done|]. split.
  - unfold descending. eapply StronglySorted_impl_elem; [|exact Hsorted].
    intros a b Ha Hb. unfold flip, heap_le, ResultHeap_less.
    rewrite Hperm in Ha, Hb. rewrite Forall_forall in Hnh.
    apply ltb_false_leb; by apply Hnh.
  - eapply keeps_best_perm; [done| |exact Hbest]. done.
Qed.
End SearchBest.

(** [Search] in full, for [k > 0] on a searchable store. *)
Lemma Search_best vs numCPU query k namespace filterKey filterVal out :
  (0 < k)%Z →
  searchable vs query namespace filterKey filterVal = true →
  Search_outcome vs numCPU query k namespace filterKey filterVal out →
  ∃ results, out = Ret results
    ∧ descending results
    ∧ Forall numeric (candidates (Normalize query) namespace filterKey filterVal (Records vs))
    ∧ keeps_best ResultHeap_less k
        (candidates (Normalize query) namespace filterKey filterVal (Records vs))
        results.
Proof.
  intros Hk Hok Hout.
  assert (∀ rec, rec ∈ Records vs →
    passes namespace filterKey filterVal rec = true →
    scorable (Normalize query) rec = true) as Hrec.
  { intros rec Hin Hp. unfold searchable in Hok.
    rewrite forallb_forall in Hok. apply list_elem_of_In, Hok in Hin.
    by rewrite Hp in Hin. }
  pose proof (candidates_numeric vs (Normalize query) namespace filterKey filterVal Hrec)
    as Hnumeric.
  unfold Search_outcome, Search_chunks in Hout.
  set (ranges := spawn _ _ _ _) in Hout.
  destruct (collect_Forall2
    (worker vs (Normalize query) k namespace filterKey filterVal)
    (λ se chunk, keeps_best ResultHeap_less k
       (candidates (Normalize query) namespace filterKey filterVal
          (slice (Records vs) se.1 se.2)) chunk) ranges)
    as (chunks & Hchunks & Hparts).
  { intros se Hse%spawn_bounds.
    by apply (worker_best vs (Normalize query) k namespace filterKey filterVal). }
  rewrite Hchunks in Hout. destruct Hout as (arrival & Hperm & ->).
  assert (mjoin ((λ se, candidates (Normalize query) namespace filterKey filterVal
                          (slice (Records vs) se.1 se.2)) <$> ranges)
          = candidates (Normalize query) namespace filterKey filterVal (Records vs))
    as Hwhole.
  { rewrite (list_fmap_compose (λ se, slice (Records vs) se.1 se.2)
               (candidates (Normalize query) namespace filterKey filterVal)).
    rewrite candidates_join. unfold ranges. by rewrite Search_ranges_slices. }
  assert (Forall (Forall numeric) chunks) as Hnc.
  { eapply Forall2_Forall_r; [exact Hparts|].
    apply Forall_forall. intros se _ chunk Hbest.
    eapply keeps_best_good; [exact Hbest|].
    apply (candidates_numeric vs (Normalize query) namespace filterKey filterVal Hrec).
    apply slice_subseteq. }
  destruct (merge_best k Hk arrival) as (out & -> & Hdesc & Hbest).
  { by rewrite Hperm. }
  exists out. split; [done|]. split; [done|]. split; [by apply Hnumeric|].
  rewrite <- Hwhole.
  apply (keeps_best_join ResultHeap_less numeric ResultHeap_less_asym ResultHeap_le_trans
           k _ chunks); [lia| |rewrite Hwhole; by apply Hnumeric|].
  - by apply Forall2_fmap_l.
  - eapply keeps_best_perm; [|done|exact Hbest]. by rewrite Hperm.
Qed.

(** ** The scores [Search] returns do not depend on the schedule *)

Lemma key_ge_total : Total key_ge.
Proof. intros [[a1 a2] a3] [[b1 b2] b3]. unfold key_ge, lex_lt. cbn. lia. Qed.

Lemma key_ge_trans : Transitive key_ge.
Proof.
  intros [[a1 a2] a3] [[b1 b2] b3] [[c1 c2] c3]. unfold key_ge, lex_lt. cbn. lia.
Qed.

Lemma key_ge_antisym : AntiSymm (=) key_ge.
Proof.
  intros [[a1 a2] a3] [[b1 b2] b3]. unfold key_ge, lex_lt. cbn. intros H1 H2.
  assert (a1 = b1 ∧ a2 = b2 ∧ a3 = b3) as (-> & -> & ->) by lia. done.
Qed.

Lemma fkey_eqb (x y : float32) :
  Float32.is_nan x = false → Float32.is_nan y = false →
  fkey x = fkey y → Float32.eqb x y = true.
Proof.
  unfold Float32.eqb, SFeqb, SFcompare.
  destruct x as [sx|sx| |sx mx ex], y as [sy|sy| |sy my ey]; try discriminate;
    intros _ _; try destruct sx; try destruct sy; simpl; try done;
    intros Heq; injection Heq as He Hm;
    assert (ex = ey) as -> by lia; assert (mx = my) as -> by lia;
    by rewrite Z.compare_refl, Pos.compare_cont_refl.
Qed.

Lemma descending_keys (rs : list SearchResult) :
  Forall numeric rs → descending rs → StronglySorted key_ge (score_key <$> rs).
Proof.
  intros Hnum Hdesc. unfold descending in Hdesc.
  induction Hdesc as [|r rs _ IH Hr]; [constructor|].
  apply Forall_cons in Hnum as [Hnr Hnum]. cbn [fmap list_fmap]. constructor; [by apply IH|].
  apply Forall_fmap, Forall_forall. intros r' Hr'. cbn.
  eapply Forall_forall in Hr; [|exact Hr']. eapply Forall_forall in Hnum; [|exact Hr'].
  unfold key_ge, score_key. intros Hlt. apply (leb_lex _ _ Hnum Hnr) in Hr. done.
Qed.

(** The keys of the [k] best, in descending order, are determined by the
    candidates. *)
Lemma best_keys_sorted k (cands rs : list SearchResult) :
  Forall numeric cands → descending rs → keeps_best ResultHeap_less k cands rs →
  ∃ rest, (score_key <$> rs) ++ rest ≡ₚ score_key <$> cands
    ∧ StronglySorted key_ge ((score_key <$> rs) ++ rest).
Proof.
  intros Hnum Hdesc (dropped & Hperm & _ & Hle).
  rewrite Hperm in Hnum. apply Forall_app in Hnum as [Hnr Hnd].
  exists (merge_sort key_ge (score_key <$> dropped)). split.
  - rewrite merge_sort_Permutation, Hperm, fmap_app. done.
  - apply StronglySorted_app_2.
    + intros a b (r & -> & Hr)%list_elem_of_fmap Hb.
      rewrite merge_sort_Permutation in Hb.
      apply list_elem_of_fmap in Hb as (d & -> & Hd).
      specialize (Hle d r Hd Hr). unfold ResultHeap_less in Hle.
      eapply Forall_forall in Hnr; [|exact Hr]. eapply Forall_forall in Hnd; [|exact Hd].
      unfold key_ge, score_key. intros Hlt%(ltb_lex _ _ Hnr Hnd). congruence.
    + by apply descending_keys.
    + apply (@StronglySorted_merge_sort _ key_ge _ key_ge_trans key_ge_total).
Qed.

Lemma best_keys_unique k (cands rs rs' : list SearchResult) :
  Forall numeric cands →
  descending rs → keeps_best ResultHeap_less k cands rs →
  descending rs' → keeps_best ResultHeap_less k cands rs' →
  score_key <$> rs = score_key <$> rs'.
Proof.
  intros Hnum Hdesc Hbest Hdesc' Hbest'.
  destruct (best_keys_sorted k cands rs Hnum Hdesc Hbest) as (rest & Hperm & Hsorted).
  destruct (best_keys_sorted k cands rs' Hnum Hdesc' Hbest') as (rest' & Hperm' & Hsorted').
  assert ((score_key <$> rs) ++ rest = (score_key <$> rs') ++ rest') as Heq.
  { apply (@StronglySorted_unique _ key_ge key_ge_antisym); [done|done|].
    by rewrite Hperm, Hperm'. }
  apply app_inj_1 in Heq as [? _]; [done|].
  rewrite !length_fmap.
  apply keeps_best_length in Hbest, Hbest'. lia.
Qed.

(** X8.  For [k > 0] on a searchable store, whatever the order in which the
    shard results arrive, [Search] returns the best candidates: the results
    are [min(k, n)] of the [n] (id, score) pairs of the records that pass
    the filters, and no pair left out has a score above that of a pair
    returned. *)
Theorem Search_keeps_best vs numCPU query k namespace filterKey filterVal out :
  (0 < k)%Z →
  searchable vs query namespace filterKey filterVal = true →
  Search_outcome vs numCPU query k namespace filterKey filterVal out →
  ∃ results dropped, out = Ret results
    ∧ candidates (Normalize query) namespace filterKey filterVal (Records vs)
      ≡ₚ results ++ dropped
    ∧ Z.of_nat (length results)
      = Z.min k (Z.of_nat (length (candidates (Normalize query) namespace filterKey
                                     filterVal (Records vs))))
    ∧ ∀ d r, d ∈ dropped → r ∈ results → Float32.leb (Score d) (Score r) = true.
Proof.
  intros Hk Hok Hout.
  destruct (Search_best _ _ _ _ _ _ _ _ Hk Hok Hout)
    as (results & -> & _ & Hnum & dropped & Hperm & Hlen & Hle).
  exists results, dropped. split; [done|]. split; [done|]. split; [done|].
  intros d r Hd Hr. rewrite Hperm in Hnum. apply Forall_app in Hnum as [Hnr Hnd].
  eapply Forall_forall in Hnr; [|exact Hr]. eapply Forall_forall in Hnd; [|exact Hd].
  apply ltb_false_leb; [done|done|]. by apply Hle.
Qed.

Lemma Search_keeps_best_witness :
  ∃ results dropped, Search store_ABC 2 query_x 2 "ns1" "" "" = Ret results
    ∧ candidates (Normalize query_x) "ns1" "" "" (Records store_ABC)
      ≡ₚ results ++ dropped
    ∧ Z.of_nat (length results)
      = Z.min 2 (Z.of_nat (length (candidates (Normalize query_x) "ns1" "" ""
                                     (Records store_ABC))))
    ∧ ∀ d r, d ∈ dropped → r ∈ results → Float32.leb (Score d) (Score r) = true.
Proof.
  apply (Search_keeps_best store_ABC 2 query_x 2 "ns1" "" "").
  - lia.
  - vm_compute. reflexivity.
  - apply Search_is_outcome.
Defined.

(** X9.  For [k > 0] on a searchable store, the scores [Search] returns
    are the same, position by position, for every number of processors and
    every order in which the shard results arrive; only the ids of results
    with equal scores may differ. *)
Theorem Search_scores_deterministic vs numCPU numCPU' query k namespace filterKey
    filterVal out out' :
  (0 < k)%Z →
  searchable vs query namespace filterKey filterVal = true →
  Search_outcome vs numCPU query k namespace filterKey filterVal out →
  Search_outcome vs numCPU' query k namespace filterKey filterVal out' →
  ∃ results results', out = Ret results ∧ out' = Ret results'
    ∧ Forall2 (λ r r', Float32.eqb (Score r) (Score r') = true) results results'.
Proof.
  intros Hk Hok Hout Hout'.
  destruct (Search_best _ _ _ _ _ _ _ _ Hk Hok Hout)
    as (results & -> & Hdesc & Hnum & Hbest).
  destruct (Search_best _ _ _ _ _ _ _ _ Hk Hok Hout')
    as (results' & -> & Hdesc' & _ & Hbest').
  exists results, results'. split; [done|]. split; [done|].
  pose proof (best_keys_unique k _ _ _ Hnum Hdesc Hbest Hdesc' Hbest') as Hkeys.
  pose proof (keeps_best_good _ numeric _ _ _ Hbest Hnum) as Hnr.
  pose proof (keeps_best_good _ numeric _ _ _ Hbest' Hnum) as Hnr'.
  apply Forall2_same_length_lookup_2.
  { apply (f_equal length) in Hkeys. by rewrite !length_fmap in Hkeys. }
  intros i r r' Hr Hr'.
  apply fkey_eqb;
    [exact (Forall_lookup_1 numeric _ _ _ Hnr Hr)
    |exact (Forall_lookup_1 numeric _ _ _ Hnr' Hr')|].
  apply (f_equal (λ l, l !! i)) in Hkeys.
  rewrite !list_lookup_fmap, Hr, Hr' in Hkeys. by injection Hkeys.
Qed.

Lemma Search_scores_deterministic_witness :
  ∃ results results',
    Search store_ABC 1 query_x 2 "ns1" "" "" = Ret results
    ∧ Search store_ABC 3 query_x 2 "ns1" "" "" = Ret results'
    ∧ Forall2 (λ r r', Float32.eqb (Score r) (Score r') = true) results results'.
Proof.
  apply (Search_scores_deterministic store_ABC 1 3 query_x 2 "ns1" "" "").
  - lia.
  - vm_compute. reflexivity.
  - apply Search_is_outcome.
  - apply Search_is_outcome.
Defined.

(** ** AddItem: the last upsert of an id wins *)

(** X10.  Upserting an id twice in a row leaves the store as the second
    upsert alone would: the first leaves no trace. *)
Theorem AddItem_overwrite vs id v1 m1 n1 v2 m2 n2 vs1 :
  AddItem vs id v1 m1 n1 = Ret vs1 →
  AddItem vs1 id v2 m2 n2 = AddItem vs id v2 m2 n2.
Proof.
  unfold AddItem. destruct (IDMap vs !! id) as [idx|] eqn:Hid.
  - destruct (decide (idx < length (Records vs))) as [Hlt|]; [|discriminate].
    intros [= <-]. cbn [IDMap Records]. rewrite Hid.
    rewrite length_insert, !decide_True by done.
    by rewrite list_insert_insert_eq.
  - intros [= <-]. cbn [IDMap Records]. rewrite lookup_insert_eq.
    rewrite decide_True by (rewrite length_app; simpl; lia).
    rewrite insert_app_r_alt, Nat.sub_diag by lia. done.
Qed.

Lemma AddItem_overwrite_witness :
  AddItem (store_of [("A", [Float32.of_Z 1], "ns1")]) "A" [Float32.of_Z 2] ∅ "ns2"
  = AddItem NewVectorStore "A" [Float32.of_Z 2] ∅ "ns2".
Proof.
  apply (AddItem_overwrite NewVectorStore "A" [Float32.of_Z 1] ∅ "ns1").
  reflexivity.
Defined.

(** ** The handlers of [main.go] *)

Lemma fill_range_run_from {A B} (f : A → run B) (z : B) (v : list A) (ys pre : list B) :
  Forall2 (λ x y, f x = Ret y) v ys →
  foldl (λ acc iv, res ← acc; y ← f iv.2; Ret (<[iv.1 := y]> res))
        (Ret (pre ++ replicate (length v) z))
        (zip (seq (length pre) (length v)) v)
  = Ret (pre ++ ys).
Proof.
  intros Hys. revert pre. induction Hys as [|x y v ys Hxy _ IH]; intros pre.
  - by simpl.
  - cbn [length seq zip zip_with foldl replicate fst snd mbind run_bind].
    rewrite Hxy. cbn [mbind run_bind].
    replace (<[length pre := y]> (pre ++ z :: replicate (length v) z))
      with ((pre ++ [y]) ++ replicate (length v) z).
    + replace (S (length pre)) with (length (pre ++ [y]))
        by (rewrite length_app; simpl; lia).
      rewrite IH. by rewrite <- app_assoc.
    + rewrite <- app_assoc, insert_app_r_alt by lia.
      by rewrite Nat.sub_diag.
Qed.

Lemma fill_range_run_Ret {A B} (f : A → run B) (z : B) (v : list A) (ys : list B) :
  Forall2 (λ x y, f x = Ret y) v ys → fill_range_run f z v = Ret ys.
Proof. intros Hys. exact (fill_range_run_from f z v ys [] Hys). Qed.

Lemma Forall_Forall2_exists {A B} (R : A → B → Prop) (l : list A) :
  Forall (λ x, ∃ y, R x y) l → ∃ ys, Forall2 R l ys.
Proof.
  induction 1 as [|x l [y Hy] _ [ys Hys]]; [by exists []|].
  exists (y :: ys). by constructor.
Qed.

(** [AddItem] keeps the mapped positions valid. *)
Lemma AddItem_sound vs id vector meta namespace :
  store_sound vs →
  ∃ vs', AddItem vs id vector meta namespace = Ret vs' ∧ store_sound vs'.
Proof.
  intros Hsound. set (record := new_record id vector meta namespace).
  destruct (IDMap vs !! id) as [idx|] eqn:Hid.
  - pose proof (store_sound_valid vs id idx Hsound Hid) as Hlt.
    rewrite (AddItem_present _ _ _ _ _ _ Hid Hlt). eexists. split; [done|].
    intros id' i. cbn. fold record. intros Hi.
    destruct (decide (i = idx)) as [->|Hne].
    + rewrite list_lookup_insert_eq by done. cbn.
      apply Hsound in Hi, Hid. congruence.
    + rewrite list_lookup_insert_ne by done. by apply Hsound.
  - rewrite (AddItem_absent _ _ _ _ _ Hid). eexists. split; [done|].
    intros id' i. cbn. fold record.
    destruct (decide (id' = id)) as [->|Hne].
    + rewrite lookup_insert_eq. intros [= <-]. by rewrite list_lookup_middle.
    + rewrite lookup_insert_ne by done. intros Hi%Hsound.
      apply fmap_Some in Hi as (r & Hr & ->).
      by rewrite (lookup_app_l_Some _ _ _ _ Hr).
Qed.

Lemma add_handler_sound db bound embedding :
  store_sound db →
  ∃ db' resp, add_handler db bound embedding = Ret (db', resp) ∧ store_sound db'.
Proof.
  intros Hsound. unfold add_handler.
  destruct bound as [req|]; [|by eauto].
  destruct embedding as [vec|]; [|by eauto].
  destruct (AddItem_sound db (AddRequest.ID req) vec
              (<["text" := AddRequest.Text req]> (default ∅ (AddRequest.Metadata req)))
              (AddRequest.Namespace req) Hsound) as (db' & -> & Hsound').
  cbn [mbind run_bind]. eauto.
Qed.

Lemma Load_new_sound filename fs : store_sound (Load NewVectorStore filename fs).1.
Proof.
  destruct (Load NewVectorStore filename fs) as [vs' [err|]] eqn:Hload; cbn [fst].
  - apply Load_failure in Hload as [[-> _]|(_ & rs & _ & ->)].
    + apply store_inv_sound, NewVectorStore_inv.
    + intros id i. cbn. by rewrite lookup_empty.
  - apply Load_success in Hload as (rs & _ & ->). apply rebuild_IDMap_sound.
Qed.

Lemma reachable_store_sound fs db : reachable fs db → store_sound db.
Proof.
  induction 1 as [|db bound embedding db' resp _ IH Hadd].
  - apply Load_new_sound.
  - destruct (add_handler_sound db bound embedding IH) as (db'' & resp' & Hadd' & Hsound).
    rewrite Hadd in Hadd'. by injection Hadd' as -> _.
Qed.

(** In a store whose mapped positions are valid, the metadata loop finds a
    record for the id of every stored record. *)
Lemma attach_metadata_sound db (results : list SearchResult) :
  store_sound db →
  Forall (λ r, ∃ rec, rec ∈ Records db ∧ RecID rec = ID r) results →
  ∃ final, attach_metadata db results = Ret final ∧ Result <$> final = results.
Proof.
  intros Hsound Hres.
  destruct (Forall_Forall2_exists
    (λ r d, (rec ← at_ (Records db) (default 0 (IDMap db !! ID r));
             Ret {| Result := r; Metadata := RecMetadata rec |}) = Ret d
            ∧ Result d = r) results) as (final & Hfinal).
  { eapply Forall_impl; [exact Hres|]. intros r (rec & Hrec & Hid). cbn beta.
    assert (∃ rec', Records db !! default 0 (IDMap db !! ID r) = Some rec') as [rec' Hrec'].
    { destruct (IDMap db !! ID r) as [i|] eqn:Hi; cbn [default].
      - apply Hsound in Hi. apply fmap_Some in Hi as (rec' & ? & _). eauto.
      - apply lookup_lt_is_Some_2. apply list_elem_of_lookup in Hrec as [j Hj].
        apply lookup_lt_Some in Hj. lia. }
    rewrite (at_lookup _ _ _ Hrec'). cbn [mbind run_bind]. eauto. }
  exists final. split.
  - apply fill_range_run_Ret. eapply Forall2_impl; [exact Hfinal|]. by intros r d [? _].
  - apply list_eq_same_length with (length results).
    + done.
    + by rewrite length_fmap, <- (Forall2_length _ _ _ Hfinal).
    + intros i r' r _. rewrite list_lookup_fmap. intros Hd Hr.
      apply fmap_Some in Hd as (d & Hd & ->).
      by destruct (Forall2_lookup_lr _ _ _ _ _ _ Hfinal Hr Hd) as [_ ?].
Qed.


Lemma attach_metadata_singleton db res :
  attach_metadata db [res]
  = (rec ← at_ (Records db) (default 0 (IDMap db !! ID res));
     Ret [{| Result := res; Metadata := RecMetadata rec |}]).
Proof.
  unfold attach_metadata, fill_range_run. cbn.
  by destruct (at_ (Records db) (default 0 (IDMap db !! ID res))).
Qed.

(** X11.  In every state the server can reach, whatever "vectors.json"
    held at start-up, the slice accesses of the handlers stay in range: the
    [/add] handler returns, and the metadata loop of [/query] returns, with
    the results in their order, for every list [Search] returned. *)
Theorem reachable_index_safety fs db :
  reachable fs db →
  store_sound db
  ∧ (∀ bound embedding, ∃ db' resp, add_handler db bound embedding = Ret (db', resp))
  ∧ (∀ numCPU query k namespace filterKey filterVal results,
       Search_outcome db numCPU query k namespace filterKey filterVal (Ret results) →
       ∃ final, attach_metadata db results = Ret final ∧ Result <$> final = results).
Proof.
  intros Hsound%reachable_store_sound. split; [done|]. split.
  - intros bound embedding.
    destruct (add_handler_sound db bound embedding Hsound) as (db' & resp & Hadd & _).
    eauto.
  - intros numCPU query k namespace filterKey filterVal results Hout.
    apply Search_outcome_hits in Hout. apply attach_metadata_sound; [done|].
    eapply Forall_impl; [exact Hout|]. intros r (rec & Hrec & _ & Hid & _). eauto.
Qed.

Lemma reachable_index_safety_witness :
  let db := (Load NewVectorStore "vectors.json" fs_mistyped).1 in
  store_sound db
  ∧ (∀ bound embedding, ∃ db' resp, add_handler db bound embedding = Ret (db', resp))
  ∧ (∀ numCPU query k namespace filterKey filterVal results,
       Search_outcome db numCPU query k namespace filterKey filterVal (Ret results) →
       ∃ final, attach_metadata db results = Ret final ∧ Result <$> final = results).
Proof. apply (reachable_index_safety fs_mistyped), reachable_start. Defined.



Lemma DotProduct_nil (b : Vector) : DotProduct [] b = Ret Float32.zero.
Proof. reflexivity. Qed.

Lemma Normalize_nil : Normalize [] = [].
Proof. reflexivity. Qed.

Lemma searchable_nil db namespace filterKey filterVal :
  searchable db [] namespace filterKey filterVal = true.
Proof.
  unfold searchable. apply forallb_forall. intros rec _.
  destruct (passes namespace filterKey filterVal rec); [|done]. cbn [implb].
  rewrite Normalize_nil. unfold scorable. rewrite DotProduct_nil.
  apply andb_true_iff. split; [apply bool_decide_eq_true; simpl; lia|done].
Qed.

Lemma candidates_nil_length namespace filterKey filterVal (records : list Rec) :
  length (candidates [] namespace filterKey filterVal records)
  = length (filter (λ rec, passes namespace filterKey filterVal rec = true) records).
Proof.
  induction records as [|rec records IH]; [done|].
  rewrite candidates_cons, filter_cons, length_app, IH, DotProduct_nil.
  destruct (passes namespace filterKey filterVal rec).
  - by rewrite decide_True.
  - by rewrite decide_False.
Qed.

(** X13.  When the embedding service fails, the [/query] handler goes on
    with the [nil] vector: for [k ≥ 0] it answers [min(k, n)] of the [n]
    records that pass the filters, each with score 0 (0 stands for 5). *)
Theorem query_handler_no_embedding db numCPU req out :
  store_sound db →
  (0 ≤ QueryRequest.K req)%Z →
  query_handler db numCPU (Some req) [] out →
  ∃ final, out = Ret (Results final)
    ∧ Z.of_nat (length final)
      = Z.min (if decide (QueryRequest.K req = 0)%Z then 5 else QueryRequest.K req)
              (Z.of_nat (length (filter
                 (λ rec, passes (QueryRequest.Namespace req) (QueryRequest.FilterKey req)
                           (QueryRequest.FilterVal req) rec = true) (Records db))))
    ∧ Forall (λ d, Score (Result d) = Float32.zero) final.
Proof.
  intros Hsound HK (sout & Hout & ->).
  assert (0 < query_k req)%Z as Hk by (unfold query_k; destruct (decide _); lia).
  destruct (Search_best _ _ _ _ _ _ _ _ Hk (searchable_nil db _ _ _) Hout)
    as (results & -> & _ & _ & Hbest).
  apply Search_outcome_hits in Hout.
  destruct (attach_metadata_sound db results Hsound) as (final & Hfinal & Hres).
  { eapply Forall_impl; [exact Hout|]. intros r (rec & Hrec & _ & Hid & _). eauto. }
  exists final. cbn [mbind run_bind]. rewrite Hfinal. cbn [mbind run_bind].
  split; [done|]. split.
  - apply keeps_best_length in Hbest.
    rewrite Normalize_nil, candidates_nil_length, <- Hres, length_fmap in Hbest.
    exact Hbest.
  - apply Forall_forall. intros d Hd.
    assert (Result d ∈ results) as Hr by (rewrite <- Hres; by apply list_elem_of_fmap_2).
    eapply Forall_forall in Hout; [|exact Hr].
    destruct Hout as (rec & _ & _ & _ & Hscore).
    rewrite Normalize_nil, DotProduct_nil in Hscore. by injection Hscore.
Qed.

Lemma query_handler_no_embedding_witness :
  let req := {| QueryRequest.Text := "x"; QueryRequest.K := 2;
                QueryRequest.Namespace := "ns1"; QueryRequest.FilterKey := "";
                QueryRequest.FilterVal := "" |} in
  ∃ final,
    (results ← Search store_ABC 2 [] 2 "ns1" "" "";
     finalResponse ← attach_metadata store_ABC results;
     Ret (Results finalResponse)) = Ret (Results final)
    ∧ Z.of_nat (length final)
      = Z.min (if decide (QueryRequest.K req = 0)%Z then 5 else QueryRequest.K req)
              (Z.of_nat (length (filter
                 (λ rec, passes "ns1" "" "" rec = true) (Records store_ABC))))
    ∧ Forall (λ d, Score (Result d) = Float32.zero) final.
Proof.
  intros req. apply (query_handler_no_embedding store_ABC 2 req).
  - apply store_inv_sound, store_of_inv.
  - cbn. lia.
  - eexists. split; [apply Search_is_outcome|]. reflexivity.
Defined.

(** X14.  After a successful [/add], the metadata the [/query] handler
    attaches to a result with the id added is the request's metadata with
    the request's text under the key "text"; for every other id that was
    mapped, it is what it was before.  The total reported is the number of
    records. *)
Theorem add_handler_roundtrip db req vec db' resp :
  store_sound db →
  add_handler db (Some req) (Some vec) = Ret (db', resp) →
  resp = Added (length (Records db'))
  ∧ (∀ res, ID res = AddRequest.ID req →
       attach_metadata db' [res]
       = Ret [{| Result := res;
                 Metadata := <["text" := AddRequest.Text req]>
                               (default ∅ (AddRequest.Metadata req)) |}])
  ∧ (∀ res, ID res ≠ AddRequest.ID req → is_Some (IDMap db !! ID res) →
       attach_metadata db' [res] = attach_metadata db [res]).
Proof.
  intros Hsound. unfold add_handler.
  set (meta := <["text" := AddRequest.Text req]> (default ∅ (AddRequest.Metadata req))).
  destruct (IDMap db !! AddRequest.ID req) as [idx|] eqn:Hid.
  - pose proof (store_sound_valid db _ idx Hsound Hid) as Hlt.
    rewrite (AddItem_present _ _ _ _ _ _ Hid Hlt). cbn [mbind run_bind].
    intros [= <- <-]. split; [done|]. split.
    + intros res Hres. rewrite attach_metadata_singleton. cbn [IDMap Records].
      rewrite Hres, Hid. change (default 0 (Some idx)) with idx.
      rewrite (at_lookup _ _ _ (list_lookup_insert_eq _ _ _ Hlt)). done.
    + intros res Hres [i Hi]. rewrite !attach_metadata_singleton. cbn [IDMap Records].
      rewrite Hi. change (default 0 (Some i)) with i.
      assert (i ≠ idx) as Hne.
      { intros ->. apply Hsound in Hi, Hid. congruence. }
      unfold at_. by rewrite list_lookup_insert_ne.
  - rewrite (AddItem_absent _ _ _ _ _ Hid). cbn [mbind run_bind].
    intros [= <- <-]. split; [done|]. split.
    + intros res Hres. rewrite attach_metadata_singleton. cbn [IDMap Records].
      rewrite Hres, lookup_insert_eq. change (default 0 (Some ?i)) with i.
      rewrite (at_lookup _ _ _ (list_lookup_middle _ _ _ _ eq_refl)). done.
    + intros res Hres [i Hi]. rewrite !attach_metadata_singleton. cbn [IDMap Records].
      rewrite lookup_insert_ne, Hi by done. change (default 0 (Some i)) with i.
      pose proof (store_sound_valid db _ i Hsound Hi) as Hlt.
      unfold at_. by rewrite lookup_app_l.
Qed.

Lemma add_handler_roundtrip_witness :
  let req := {| AddRequest.ID := "B"; AddRequest.Text := "hello";
                AddRequest.Namespace := "ns2"; AddRequest.Metadata := None |} in
  ∃ db', add_handler store_ABC (Some req) (Some query_x)
         = Ret (db', Added (length (Records db')))
    ∧ (∀ res, ID res = AddRequest.ID req →
         attach_metadata db' [res]
         = Ret [{| Result := res;
                   Metadata := <["text" := AddRequest.Text req]>
                                 (default ∅ (AddRequest.Metadata req)) |}])
    ∧ (∀ res, ID res ≠ AddRequest.ID req → is_Some (IDMap store_ABC !! ID res) →
         attach_metadata db' [res] = attach_metadata store_ABC [res]).
Proof.
  intros req.
  destruct (add_handler_sound store_ABC (Some req) (Some query_x))
    as (db' & resp & Hadd & _); [apply store_inv_sound, store_of_inv|].
  destruct (add_handler_roundtrip store_ABC req query_x db' resp) as (-> & Hsame & Hother);
    [apply store_inv_sound, store_of_inv|exact Hadd|].
  exists db'. split; [exact Hadd|]. split; [exact Hsame|exact Hother].
Defined.

(** ** Save after a vector that is not finite *)

(** X15.  Once [AddItem] has been given a vector with a NaN or infinite
    component, [Save] fails: [json.Marshal] rejects the stored record, and
    nothing is written. *)
Theorem AddItem_nonfinite_blocks_Save vs id vector meta namespace vs' x filename fs :
  x ∈ vector → finite32 x = false →
  AddItem vs id vector meta namespace = Ret vs' →
  Save vs' filename fs = (fs, Some UnsupportedValueError).
Proof.
  intros Hin Hx Hadd.
  assert (new_record id vector meta namespace ∈ Records vs') as Hrec.
  { unfold AddItem in Hadd. fold (new_record id vector meta namespace) in Hadd.
    destruct (IDMap vs !! id) as [idx|].
    - destruct (decide (idx < length (Records vs))) as [Hlt|]; [|discriminate].
      injection Hadd as <-. cbn [Records].
      eapply list_elem_of_lookup_2. by apply list_lookup_insert_eq.
    - injection Hadd as <-. cbn [Records]. apply elem_of_app. right. by left. }
  pose proof (Normalize_nonfinite_nan vector x Hin Hx) as Hnan.
  unfold Save, json_Marshal.
  destruct (forallb _ (Records vs')) eqn:Hall; [exfalso|done].
  rewrite forallb_forall in Hall.
  specialize (Hall _ (proj1 (list_elem_of_In _ _) Hrec)). cbn [new_record RecVector] in Hall.
  rewrite forallb_forall in Hall.
  by specialize (Hall _ (proj1 (list_elem_of_In _ _) Hnan)).
Qed.

Lemma AddItem_nonfinite_blocks_Save_witness :
  Save (store_of [("A", [Float32.of_Z 1; S754_infinity false], "")]) "vectors.json" fs_empty
  = (fs_empty, Some UnsupportedValueError).
Proof.
  apply (AddItem_nonfinite_blocks_Save NewVectorStore "A"
           [Float32.of_Z 1; S754_infinity false] ∅ "" _ (S754_infinity false)).
  - apply list_elem_of_In. cbn. auto.
  - reflexivity.
  - reflexivity.
Defined.

(** ** Search and the identifiers *)

Lemma candidates_ids_sublist q namespace filterKey filterVal (records : list Rec) :
  (ID <$> candidates q namespace filterKey filterVal records)
    `sublist_of` (RecID <$> records).
Proof.
  induction records as [|rec records IH]; [done|].
  rewrite candidates_cons. cbn [fmap list_fmap].
  destruct (passes namespace filterKey filterVal rec); [|by apply sublist_cons].
  destruct (DotProduct q (RecVector rec)); [|by apply sublist_cons..].
  cbn. by apply sublist_skip.
Qed.

Lemma candidates_length q namespace filterKey filterVal (records : list Rec) :
  length (candidates q namespace filterKey filterVal records) ≤ length records.
Proof.
  pose proof (sublist_length _ _
    (candidates_ids_sublist q namespace filterKey filterVal records)) as Hlen.
  by rewrite !length_fmap in Hlen.
Qed.

(** X16.  On a store whose mapping is a bijection, no id is returned twice
    ([k > 0], searchable store, any arrival order of the shard results). *)
Theorem Search_distinct_ids vs numCPU query k namespace filterKey filterVal out :
  store_inv vs →
  (0 < k)%Z →
  searchable vs query namespace filterKey filterVal = true →
  Search_outcome vs numCPU query k namespace filterKey filterVal out →
  ∃ results, out = Ret results ∧ NoDup (ID <$> results).
Proof.
  intros Hinv Hk Hok Hout.
  destruct (Search_best _ _ _ _ _ _ _ _ Hk Hok Hout)
    as (results & -> & _ & _ & dropped & Hperm & _).
  exists results. split; [done|].
  assert (NoDup (ID <$> candidates (Normalize query) namespace filterKey filterVal
                          (Records vs))) as Hnodup.
  { eapply sublist_NoDup; [by apply store_inv_NoDup|apply candidates_ids_sublist]. }
  rewrite Hperm, fmap_app in Hnodup. by apply NoDup_app in Hnodup as [? _].
Qed.

Lemma Search_distinct_ids_witness :
  ∃ results, Search store_ABC 2 query_x 2 "ns1" "" "" = Ret results
    ∧ NoDup (ID <$> results).
Proof.
  apply (Search_distinct_ids store_ABC 2 query_x 2 "ns1" "" "").
  - apply store_of_inv.
  - lia.
  - vm_compute. reflexivity.
  - apply Search_is_outcome.
Defined.

(** X17.  What [AddItem] stored is found: a search in the namespace of the
    item, without metadata filter and with [k] at least the number of
    records, returns a result with the item's id, scored against the
    normalized vector of the item (searchable store, any arrival order). *)
Theorem AddItem_then_Search vs id vector meta namespace vs' numCPU query k out :
  AddItem vs id vector meta namespace = Ret vs' →
  (0 < k)%Z → (Z.of_nat (length (Records vs')) ≤ k)%Z →
  searchable vs' query namespace "" "" = true →
  Search_outcome vs' numCPU query k namespace "" "" out →
  ∃ results r, out = Ret results ∧ r ∈ results ∧ ID r = id
    ∧ DotProduct (Normalize query) (Normalize vector) = Ret (Score r).
Proof.
  intros Hadd Hk Hlen Hok Hout.
  assert (new_record id vector meta namespace ∈ Records vs') as Hrec.
  { unfold AddItem in Hadd. fold (new_record id vector meta namespace) in Hadd.
    destruct (IDMap vs !! id) as [idx|].
    - destruct (decide (idx < length (Records vs))) as [Hlt|]; [|discriminate].
      injection Hadd as <-. cbn [Records].
      eapply list_elem_of_lookup_2. by apply list_lookup_insert_eq.
    - injection Hadd as <-. cbn [Records]. apply elem_of_app. right. by left. }
  assert (passes namespace "" "" (new_record id vector meta namespace) = true) as Hp.
  { apply passes_spec. by split. }
  assert (∃ score, DotProduct (Normalize query) (Normalize vector) = Ret score)
    as [score Hscore].
  { unfold searchable in Hok. rewrite forallb_forall in Hok.
    specialize (Hok _ (proj1 (list_elem_of_In _ _) Hrec)). rewrite Hp in Hok.
    cbn [implb] in Hok. unfold scorable in Hok.
    apply andb_true_iff in Hok as [Hle%bool_decide_eq_true _].
    by apply (DotProduct_gen_Ret Float32.add Float32.mul Float32.zero). }
  destruct (Search_best _ _ _ _ _ _ _ _ Hk Hok Hout)
    as (results & -> & _ & _ & dropped & Hperm & Hcount & _).
  pose proof (candidates_length (Normalize query) namespace "" "" (Records vs')) as Hcl.
  pose proof (Permutation_length Hperm) as Hpl. rewrite length_app in Hpl.
  assert (dropped = []) as -> by (apply nil_length_inv; lia).
  rewrite app_nil_r in Hperm.
  exists results, {| ID := id; Score := score |}. split; [done|].
  split; [|by split]. rewrite <- Hperm. unfold candidates.
  apply list_elem_of_bind. exists (new_record id vector meta namespace).
  split; [|done]. rewrite Hp. cbn [new_record RecVector RecID]. rewrite Hscore.
  by left.
Qed.

Lemma AddItem_then_Search_witness :
  ∃ results r, Search store_ABC 2 query_x 3 "ns1" "" "" = Ret results
    ∧ r ∈ results ∧ ID r = "C"
    ∧ DotProduct (Normalize query_x)
        (Normalize [Float32.div (Float32.of_Z 9) (Float32.of_Z 10);
                    Float32.div (Float32.of_Z 1) (Float32.of_Z 10); Float32.zero])
      = Ret (Score r).
Proof.
  apply (AddItem_then_Search
           (store_of
              [("A", [Float32.of_Z 1; Float32.zero; Float32.zero], "ns1");
               ("B", [Float32.zero; Float32.of_Z 1; Float32.zero], "ns1")])
           "C" _ ∅ "ns1" store_ABC 2 query_x 3).
  - reflexivity.
  - lia.
  - vm_compute. discriminate.
  - vm_compute. reflexivity.
  - apply Search_is_outcome.
Defined.

(** ** Normalize keeps the signs *)

Lemma SFdiv_sign_bit prec emax x y :
  finite32 x = true → signed false y → SFeqb y (S754_zero false) = false →
  signed (sign_bit x) (SFdiv prec emax x y).
Proof.
  destruct x as [sx|sx| |sx mx ex], y as [sy|sy| |sy my ey]; cbn [signed];
    try done; intros _ Hy; subst; cbn; try (by destruct sx).
  intros _. unfold SFdiv_core_binary.
  set (m' := match _ with Z0 => _ | Z.pos _ => _ | Z.neg _ => _ end).
  assert (0 ≤ m')%Z as Hm'.
  { unfold m'. destruct (_ - _)%Z; [lia| |lia]. by apply Z.shiftl_nonneg. }
  pose proof (Z.div_pos m' (Z.pos my) Hm' ltac:(lia)) as Hq.
  unfold Z.div in Hq. destruct (Z.div_eucl m' (Z.pos my)) as [q r]. cbn [fst] in Hq.
  replace sx with (xorb sx false) at 1 by (by destruct sx).
  by apply binary_round_aux_signed.
Qed.

(** X18.  For a vector of finite components, every component of the
    normalized vector is a number or an infinity, never NaN, and has the
    sign bit of the component it comes from. *)
Theorem Normalize_keeps_signs (v : Vector) :
  Forall (λ x, finite32 x = true) v →
  Forall2 (λ x y, signed (sign_bit x) y) v (Normalize v).
Proof.
  intros Hfin. pose proof (finite32_not_nan v Hfin) as Hv.
  unfold Normalize.
  destruct (Float32.eqb (magnitude v) Float32.zero) eqn:Hz.
  - apply Forall2_same_length_lookup_2; [done|]. intros i x y Hx Hy.
    assert (x = y) as <- by congruence.
    eapply Forall_lookup_1 in Hfin; [|exact Hx]. by destruct x.
  - rewrite fill_range_fmap. apply Forall2_fmap_r, Forall_Forall2_diag.
    eapply Forall_impl; [exact Hfin|]. intros x Hx. cbn beta.
    apply SFdiv_sign_bit; [done| |done]. by apply magnitude_signed.
Qed.

Lemma Normalize_keeps_signs_witness :
  Forall2 (λ x y, signed (sign_bit x) y)
    [Float32.of_Z 3; Float32.of_Z (-4)] (Normalize [Float32.of_Z 3; Float32.of_Z (-4)]).
Proof. apply Normalize_keeps_signs. by repeat constructor. Defined.

(** ** Search: more results, other namespaces *)

Lemma keys_eqb (rs rs' : list SearchResult) :
  Forall numeric rs → Forall numeric rs' →
  score_key <$> rs = score_key <$> rs' →
  Forall2 (λ r r', Float32.eqb (Score r) (Score r') = true) rs rs'.
Proof.
  intros Hnr Hnr' Hkeys. apply Forall2_same_length_lookup_2.
  { apply (f_equal length) in Hkeys. by rewrite !length_fmap in Hkeys. }
  intros i r r' Hr Hr'.
  apply fkey_eqb;
    [exact (Forall_lookup_1 numeric _ _ _ Hnr Hr)
    |exact (Forall_lookup_1 numeric _ _ _ Hnr' Hr')|].
  apply (f_equal (λ l, l !! i)) in Hkeys.
  rewrite !list_lookup_fmap, Hr, Hr' in Hkeys. by injection Hkeys.
Qed.

(** The keys of the [k] best are the first keys of the [k'] best, [k ≤ k']. *)
Lemma best_keys_prefix k k' (cands rs rs' : list SearchResult) :
  (k ≤ k')%Z → Forall numeric cands →
  descending rs → keeps_best ResultHeap_less k cands rs →
  descending rs' → keeps_best ResultHeap_less k' cands rs' →
  length rs ≤ length rs'
  ∧ score_key <$> rs = score_key <$> take (length rs) rs'.
Proof.
  intros Hkk Hnum Hdesc Hbest Hdesc' Hbest'.
  destruct (best_keys_sorted k cands rs Hnum Hdesc Hbest) as (rest & Hperm & Hsorted).
  destruct (best_keys_sorted k' cands rs' Hnum Hdesc' Hbest') as (rest' & Hperm' & Hsorted').
  assert ((score_key <$> rs) ++ rest = (score_key <$> rs') ++ rest') as Heq.
  { apply (@StronglySorted_unique _ key_ge key_ge_antisym); [done|done|].
    by rewrite Hperm, Hperm'. }
  apply keeps_best_length in Hbest, Hbest'.
  assert (length rs ≤ length rs') as Hlen by lia. split; [done|].
  apply (f_equal (take (length rs))) in Heq.
  rewrite take_app_length' in Heq by (by rewrite length_fmap).
  rewrite take_app_le in Heq by (rewrite length_fmap; lia).
  by rewrite fmap_take.
Qed.

(** X19.  Asking for more results does not change the scores of the first
    ones: for [0 < k ≤ k'] on a searchable store, the scores of a search for
    [k] results are, position by position, those of the first results of a
    search for [k'] (any numbers of processors, any arrival orders). *)
Theorem Search_more_results vs numCPU numCPU' query k k' namespace filterKey filterVal
    out out' :
  (0 < k)%Z → (k ≤ k')%Z →
  searchable vs query namespace filterKey filterVal = true →
  Search_outcome vs numCPU query k namespace filterKey filterVal out →
  Search_outcome vs numCPU' query k' namespace filterKey filterVal out' →
  ∃ results results', out = Ret results ∧ out' = Ret results'
    ∧ length results ≤ length results'
    ∧ Forall2 (λ r r', Float32.eqb (Score r) (Score r') = true)
        results (take (length results) results').
Proof.
  intros Hk Hkk Hok Hout Hout'.
  destruct (Search_best _ _ _ _ _ _ _ _ Hk Hok Hout)
    as (results & -> & Hdesc & Hnum & Hbest).
  assert (0 < k')%Z as Hk' by lia.
  destruct (Search_best _ _ _ _ _ _ _ _ Hk' Hok Hout')
    as (results' & -> & Hdesc' & _ & Hbest').
  exists results, results'. split; [done|]. split; [done|].
  destruct (best_keys_prefix k k' _ _ _ Hkk Hnum Hdesc Hbest Hdesc' Hbest')
    as [Hlen Hkeys].
  split; [done|]. apply keys_eqb; [| |done].
  - by eapply (keeps_best_good _ numeric).
  - apply Forall_take. by eapply (keeps_best_good _ numeric).
Qed.

Lemma Search_more_results_witness :
  ∃ results results',
    Search store_ABC 2 query_x 1 "ns1" "" "" = Ret results
    ∧ Search store_ABC 3 query_x 3 "ns1" "" "" = Ret results'
    ∧ length results ≤ length results'
    ∧ Forall2 (λ r r', Float32.eqb (Score r) (Score r') = true)
        results (take (length results) results').
Proof.
  apply (Search_more_results store_ABC 2 3 query_x 1 3 "ns1" "" "").
  - lia.
  - lia.
  - vm_compute. reflexivity.
  - apply Search_is_outcome.
  - apply Search_is_outcome.
Defined.

(** Two stores that offer the same candidates give the same scores. *)
Lemma Search_same_candidates vs vs' numCPU numCPU' query k namespace filterKey filterVal
    out out' :
  (0 < k)%Z →
  searchable vs query namespace filterKey filterVal = true →
  searchable vs' query namespace filterKey filterVal = true →
  candidates (Normalize query) namespace filterKey filterVal (Records vs')
  = candidates (Normalize query) namespace filterKey filterVal (Records vs) →
  Search_outcome vs numCPU query k namespace filterKey filterVal out →
  Search_outcome vs' numCPU' query k namespace filterKey filterVal out' →
  ∃ results results', out = Ret results ∧ out' = Ret results'
    ∧ Forall2 (λ r r', Float32.eqb (Score r) (Score r') = true) results results'.
Proof.
  intros Hk Hok Hok' Hcands Hout Hout'.
  destruct (Search_best _ _ _ _ _ _ _ _ Hk Hok Hout)
    as (results & -> & Hdesc & Hnum & Hbest).
  destruct (Search_best _ _ _ _ _ _ _ _ Hk Hok' Hout')
    as (results' & -> & Hdesc' & _ & Hbest').
  rewrite Hcands in Hbest'.
  exists results, results'. split; [done|]. split; [done|].
  apply keys_eqb; [by eapply (keeps_best_good _ numeric)..|].
  by apply (best_keys_unique k _ _ _ Hnum).
Qed.

Lemma candidates_insert q namespace filterKey filterVal (records : list Rec) i old new :
  records !! i = Some old →
  passes namespace filterKey filterVal old = false →
  passes namespace filterKey filterVal new = false →
  candidates q namespace filterKey filterVal (<[i := new]> records)
  = candidates q namespace filterKey filterVal records.
Proof.
  intros Hold Hpo Hpn.
  rewrite insert_take_drop by (by eapply lookup_lt_Some).
  rewrite <- (take_drop_middle records i old Hold) at 3.
  by rewrite !candidates_app, !candidates_cons, Hpo, Hpn.
Qed.

Lemma searchable_candidates vs query namespace filterKey filterVal :
  searchable vs query namespace filterKey filterVal = true ↔
  ∀ rec, rec ∈ Records vs → passes namespace filterKey filterVal rec = true →
         scorable (Normalize query) rec = true.
Proof.
  unfold searchable. rewrite forallb_forall. split.
  - intros Hall rec Hrec Hp. apply list_elem_of_In, Hall in Hrec. by rewrite Hp in Hrec.
  - intros Hall rec Hrec%list_elem_of_In.
    destruct (passes namespace filterKey filterVal rec) eqn:Hp; [|done]. by apply Hall.
Qed.

(** X20.  Namespaces are isolated from upserts elsewhere: an [AddItem] into
    one namespace, of an id that is new or whose record was outside the
    namespace searched, leaves the scores returned by a search in another
    (non-empty) namespace as they were. *)
Theorem AddItem_other_namespace vs id vector meta namespace vs' numCPU numCPU' query k
    namespace' filterKey filterVal out out' :
  AddItem vs id vector meta namespace = Ret vs' →
  namespace' ≠ "" → namespace' ≠ namespace →
  (∀ idx old, IDMap vs !! id = Some idx → Records vs !! idx = Some old →
     RecNamespace old ≠ namespace') →
  (0 < k)%Z →
  searchable vs query namespace' filterKey filterVal = true →
  Search_outcome vs numCPU query k namespace' filterKey filterVal out →
  Search_outcome vs' numCPU' query k namespace' filterKey filterVal out' →
  ∃ results results', out = Ret results ∧ out' = Ret results'
    ∧ Forall2 (λ r r', Float32.eqb (Score r) (Score r') = true) results results'.
Proof.
  intros Hadd Hns Hne Hold Hk Hok Hout Hout'.
  assert (∀ rec, RecNamespace rec ≠ namespace' →
            passes namespace' filterKey filterVal rec = false) as Hout_ns.
  { intros rec Hrec. unfold passes.
    by rewrite (bool_decide_eq_true_2 _ Hns), (bool_decide_eq_true_2 _ Hrec). }
  assert (passes namespace' filterKey filterVal (new_record id vector meta namespace)
          = false) as Hnew by (apply Hout_ns; cbn; congruence).
  assert (candidates (Normalize query) namespace' filterKey filterVal (Records vs')
          = candidates (Normalize query) namespace' filterKey filterVal (Records vs)
          ∧ ∀ rec, rec ∈ Records vs' →
              passes namespace' filterKey filterVal rec = true → rec ∈ Records vs)
    as [Hcands Hsub].
  { unfold AddItem in Hadd. fold (new_record id vector meta namespace) in Hadd.
    destruct (IDMap vs !! id) as [idx|] eqn:Hid.
    - destruct (decide (idx < length (Records vs))) as [Hlt|]; [|discriminate].
      injection Hadd as <-. cbn [Records].
      destruct (lookup_lt_is_Some_2 _ _ Hlt) as [old Holdrec].
      split.
      + apply (candidates_insert _ _ _ _ _ _ old); [done| |done].
        apply Hout_ns. by eapply Hold.
      + intros rec [j Hj]%list_elem_of_lookup Hp.
        destruct (decide (j = idx)) as [->|Hji].
        * rewrite list_lookup_insert_eq in Hj by done. injection Hj as <-. congruence.
        * rewrite list_lookup_insert_ne in Hj by done. by eapply list_elem_of_lookup_2.
    - injection Hadd as <-. cbn [Records]. split.
      + rewrite candidates_app, candidates_cons, Hnew. cbn. by rewrite app_nil_r.
      + intros rec [Hrec|Hrec%list_elem_of_singleton]%elem_of_app Hp; [done|].
        subst. congruence. }
  apply (Search_same_candidates vs vs' numCPU numCPU' query k namespace' filterKey
           filterVal out out'); [done|done| |done|done|done].
  apply searchable_candidates. intros rec Hrec Hp.
  apply (proj1 (searchable_candidates _ _ _ _ _) Hok); [by apply Hsub|done].
Qed.

Lemma AddItem_other_namespace_witness :
  ∃ results results',
    Search (store_of [("A", [Float32.of_Z 1; Float32.zero; Float32.zero], "ns1");
                      ("B", [Float32.zero; Float32.of_Z 1; Float32.zero], "ns1")])
           1 query_x 2 "ns1" "" "" = Ret results
    ∧ Search (store_of [("A", [Float32.of_Z 1; Float32.zero; Float32.zero], "ns1");
                        ("B", [Float32.zero; Float32.of_Z 1; Float32.zero], "ns1");
                        ("Z", [Float32.of_Z 1], "ns2")])
             3 query_x 2 "ns1" "" "" = Ret results'
    ∧ Forall2 (λ r r', Float32.eqb (Score r) (Score r') = true) results results'.
Proof.
  apply (AddItem_other_namespace
           (store_of [("A", [Float32.of_Z 1; Float32.zero; Float32.zero], "ns1");
                      ("B", [Float32.zero; Float32.of_Z 1; Float32.zero], "ns1")])
           "Z" [Float32.of_Z 1] ∅ "ns2"
           (store_of [("A", [Float32.of_Z 1; Float32.zero; Float32.zero], "ns1");
                      ("B", [Float32.zero; Float32.of_Z 1; Float32.zero], "ns1");
                      ("Z", [Float32.of_Z 1], "ns2")])
           1 3 query_x 2 "ns1" "" "").
  - reflexivity.
  - discriminate.
  - discriminate.
  - intros idx old Hidx. vm_compute in Hidx. discriminate.
  - lia.
  - vm_compute. reflexivity.
  - apply Search_is_outcome.
  - apply Search_is_outcome.
Defined.

(** ** The identifier mapping while the server runs *)

Lemma add_handler_inv db bound embedding db' resp :
  store_inv db → add_handler db bound embedding = Ret (db', resp) → store_inv db'.
Proof.
  intros Hinv. unfold add_handler.
  destruct bound as [req|]; [|by intros [= <- _]].
  destruct embedding as [vec|]; [|by intros [= <- _]].
  destruct (AddItem_inv db (AddRequest.ID req) vec
              (<["text" := AddRequest.Text req]> (default ∅ (AddRequest.Metadata req)))
              (AddRequest.Namespace req) Hinv) as (db'' & -> & Hinv').
  cbn [mbind run_bind]. by intros [= <- _].
Qed.

(** X21.  When "vectors.json" is absent, is not JSON, or holds records with
    pairwise distinct ids (as every file written by [Save] from such a
    store does), the id mapping is a bijection onto the record positions in
    every state the server reaches. *)
Theorem reachable_store_inv fs db :
  match files fs !! "vectors.json" with
  | None | Some Malformed => True
  | Some (Encoded rs) => NoDup (RecID <$> rs)
  | Some (Mistyped rs) => rs = []
  end →
  reachable fs db → store_inv db.
Proof.
  intros Hfile. induction 1 as [|db bound embedding db' resp _ IH Hadd].
  - unfold Load, os_ReadFile.
    destruct (files fs !! "vectors.json") as [[|rs|rs]|]; cbn.
    + apply NewVectorStore_inv.
    + by apply rebuild_IDMap_inv.
    + subst. apply NewVectorStore_inv.
    + apply NewVectorStore_inv.
  - by eapply add_handler_inv.
Qed.

Lemma reachable_store_inv_witness :
  store_inv (Load NewVectorStore "vectors.json" (Save store_ABC "vectors.json" fs_empty).1).1.
Proof.
  apply (reachable_store_inv (Save store_ABC "vectors.json" fs_empty).1).
  - vm_compute. apply (bool_decide_unpack _). vm_compute. exact I.
  - apply reachable_start.
Defined.
